(** * provider.Import: the import orchestration pipeline of terracognita

    A shallow embedding of [provider.Import] (package [provider]) and of the
    collaborators it drives: the [Provider], [Resource] and [writer.Writer]
    interfaces, the [filter.Filter] value and the retry helper.

    The Go function is effectful: it calls into the provider, the resources
    and the writers, writes progress text and emits diagnostic log entries.
    The embedding threads an explicit world [W] through every collaborator
    call and records every call, progress line and log entry in an ordered
    list of events, so that statements such as "no fetch is performed" or
    "Sync comes last" are statements about that list. *)

From Stdlib Require Import List String Ascii Arith Bool Lia DecimalString.
Import ListNotations.
Open Scope string_scope.
Open Scope list_scope.

(** ** Errors *)

(** Go [error] values as [Import] builds and inspects them: the sentinel
    [errcode.ErrProviderResourceNotSupported], errors coming out of a
    collaborator, and the two wrappers of [github.com/pkg/errors]. A nil
    error is [None] in [option error]. *)
Inductive error : Type :=
| ErrProviderResourceNotSupported
| ErrExternal (msg : string)
| Wrapf (e : error) (msg : string)
| WithStack (e : error).

(** [errors.Cause]: strips every wrapper. *)
Fixpoint Cause (e : error) : error :=
  match e with
  | Wrapf e' _ => Cause e'
  | WithStack e' => Cause e'
  | _ => e
  end.

(** ** Filter *)

(** [filter.Filter], restricted to the two fields [Import] reads. *)
Record Filter : Type := mkFilter {
  Include : list string;
  Exclude : list string
}.

(** Modelled from the spec: [filter.Filter.IsExcluded] is not part of the
    sources at hand; the specification describes it as the membership test
    of a type identifier in [Exclude]. *)
Definition IsExcluded (f : Filter) (v : string) : bool :=
  existsb (String.eqb v) (Exclude f).

(** ** Formatting helpers *)

Definition CR : string := String (ascii_of_nat 13) EmptyString.
Definition LF : string := String (ascii_of_nat 10) EmptyString.

(** The [%d] verb on a non-negative [int]. *)
Definition fmt_d (n : nat) : string := NilZero.string_of_uint (Nat.to_uint n).

(** What [Import] takes from outside the function and its interfaces: the
    number of attempts behind [util.RetryDefault], the [%q] verb of [fmt]
    and [filter.Filter.String]. *)
Class Runtime : Type := {
  RetryTimes : nat;
  fmt_q : string -> string;
  FilterString : Filter -> string
}.

(** ** Logging *)

(** A value logged under a key. *)
Inductive Val : Type :=
| VStr (s : string)
| VInt (n : nat)
| VErr (e : error).

(** A go-kit logger is represented by the key/value context it carries;
    [kitlog.With] appends to it. *)
Definition Logger : Type := list (string * Val).

Definition With (l : Logger) (k : string) (v : Val) : Logger := l ++ [(k, v)].

(** The value given last for a key: what a reader of the log entry sees. *)
Definition logger_get (l : Logger) (k : string) : option Val :=
  match find (fun kv => String.eqb (fst kv) k) (rev l) with
  | Some kv => Some (snd kv)
  | None => None
  end.

(** ** Collaborator interfaces *)

Section Interfaces.

Variables W Res Wr Ctx : Type.

(** The [Provider] interface, as far as [Import] uses it. *)
Record Provider : Type := mkProvider {
  HasResourceType : string -> bool;
  ResourceTypes : list string;
  Resources : Ctx -> string -> Filter -> W -> (list Res * option error) * W
}.

(** The [Resource] interface. *)
Class Resource : Type := {
  ID : Res -> string;
  ImportState : Res -> W -> (list Res * option error) * W;
  Read : Res -> Filter -> W -> option error * W;
  HCL : Res -> Wr -> W -> option error * W;
  State : Res -> Wr -> W -> option error * W
}.

(** The [writer.Writer] interface. *)
Class Writer : Type := {
  Sync : Wr -> W -> option error * W
}.

(** What a run does, in order. Every collaborator call is recorded with
    its receiver and the error it returned. *)
Inductive Event : Type :=
| EvOut (s : string)
| EvLog (l : Logger) (k : string) (v : Val)
| EvResources (c : Ctx) (t : string) (err : option error)
| EvImportState (r : Res) (err : option error)
| EvRead (r : Res) (err : option error)
| EvHCL (r : Res) (wr : Wr) (err : option error)
| EvState (r : Res) (wr : Wr) (err : option error)
| EvSync (wr : Wr) (err : option error).

(** Either the computation goes on with a value, or [Import] returns the
    error at once. *)
Inductive outcome (A : Type) : Type :=
| Next (a : A)
| Return (e : error).

(** State (the world), output (the events) and early return. *)
Definition M (A : Type) : Type := W -> outcome A * W * list Event.

Definition ret {A} (a : A) : M A := fun w => (Next A a, w, []).

Definition abort {A} (e : error) : M A := fun w => (Return A e, w, []).

Definition bind {A B} (m : M A) (k : A -> M B) : M B :=
  fun w =>
    match m w with
    | (Next _ a, w1, tr1) =>
        match k a w1 with
        | (o, w2, tr2) => (o, w2, tr1 ++ tr2)
        end
    | (Return _ e, w1, tr1) => (Return B e, w1, tr1)
    end.

Definition emit (ev : Event) : M unit := fun w => (Next unit tt, w, [ev]).

End Interfaces.

Arguments HasResourceType {W Res Ctx} _ _.
Arguments ResourceTypes {W Res Ctx} _.
Arguments Resources {W Res Ctx} _ _ _ _ _.
Arguments ID {W Res Wr Resource} _.
Arguments ImportState {W Res Wr Resource} _ _.
Arguments Read {W Res Wr Resource} _ _ _.
Arguments HCL {W Res Wr Resource} _ _ _.
Arguments State {W Res Wr Resource} _ _ _.
Arguments Sync {W Wr Writer} _ _.
Arguments EvOut {Res Wr Ctx} _.
Arguments EvLog {Res Wr Ctx} _ _ _.
Arguments EvResources {Res Wr Ctx} _ _ _.
Arguments EvImportState {Res Wr Ctx} _ _.
Arguments EvRead {Res Wr Ctx} _ _.
Arguments EvHCL {Res Wr Ctx} _ _ _.
Arguments EvState {Res Wr Ctx} _ _ _.
Arguments EvSync {Res Wr Ctx} _ _.
Arguments Next {A} _.
Arguments Return {A} _.
Arguments ret {W Res Wr Ctx A} _ _.
Arguments abort {W Res Wr Ctx A} _ _.
Arguments bind {W Res Wr Ctx A B} _ _ _.
Arguments emit {W Res Wr Ctx} _ _.

Declare Scope import_scope.
Delimit Scope import_scope with imp.
Notation "x <- m ;; k" := (bind m (fun x => k))
  (at level 61, m at next level, right associativity) : import_scope.
Notation "m ;; k" := (bind m (fun _ => k))
  (at level 61, right associativity) : import_scope.

(** ** The pipeline *)

Section Pipeline.

Context {W Res Wr Ctx : Type}.
Context {RT : Runtime} {RI : Resource W Res Wr} {WI : Writer W Wr}.

Local Open Scope import_scope.

Notation "'Ev'" := (Event Res Wr Ctx).
Notation "'Act'" := (M W Res Wr Ctx).

(** [logger.Log(k, v)]; the error it returns is dropped by [Import]. *)
Definition Log (l : Logger) (k : string) (v : Val) : Act unit :=
  emit (EvLog l k v).

(** [fmt.Fprintf(out, ...)] with the text already formatted. *)
Definition Fprintf (s : string) : Act unit := emit (EvOut s).

(** One collaborator call: run it on the world and record it. *)
Definition call {A} (op : W -> A * W) (ev : A -> Ev) : Act A :=
  fun w => let (a, w') := op w in (Next a, w', [ev a]).

Definition call_Resources (p : Provider W Res Ctx) (ctx : Ctx) (t : string)
    (f : Filter) : Act (list Res * option error) :=
  call (Resources p ctx t f) (fun x => EvResources ctx t (snd x)).

Definition call_ImportState (re : Res) : Act (list Res * option error) :=
  call (ImportState re) (fun x => EvImportState re (snd x)).

Definition call_Read (r : Res) (f : Filter) : Act (option error) :=
  call (Read r f) (EvRead r).

Definition call_HCL (r : Res) (hcl : Wr) : Act (option error) :=
  call (HCL r hcl) (EvHCL r hcl).

Definition call_State (r : Res) (tfstate : Wr) : Act (option error) :=
  call (State r tfstate) (EvState r tfstate).

Definition call_Sync (wr : Wr) : Act (option error) :=
  call (Sync wr) (EvSync wr).

(** Modelled from the spec: [util.RetryDefault] is not part of the sources
    at hand. The specification describes a bounded-retry combinator with a
    fixed number of attempts, which stops at the first success and returns
    the cause of the last failure when every attempt failed. The delay
    between attempts is not represented. *)
Fixpoint Retry (times : nat) (rfn : Act (option error)) (last : option error)
    : Act (option error) :=
  match times with
  | O => ret (option_map Cause last)
  | S n =>
      err <- rfn ;;
      match err with
      | None => ret None
      | Some e => Retry n rfn (Some e)
      end
  end.

Definition RetryDefault (rfn : Act (option error)) : Act (option error) :=
  Retry RetryTimes rfn None.

(** Lines 27-32 and 39-45: the first entry the provider does not support,
    wrapped with the name of the list it was found in. *)
Fixpoint range_Include (p : Provider W Res Ctx) (l : list string) : option error :=
  match l with
  | [] => None
  | i :: l' =>
      if negb (HasResourceType p i)
      then Some (Wrapf ErrProviderResourceNotSupported
                   ("type " ++ i ++ " on Include filter"))
      else range_Include p l'
  end.

Fixpoint range_Exclude (p : Provider W Res Ctx) (l : list string) : option error :=
  match l with
  | [] => None
  | e :: l' =>
      if negb (HasResourceType p e)
      then Some (Wrapf ErrProviderResourceNotSupported
                   ("type " ++ e ++ " on Exclude filter"))
      else range_Exclude p l'
  end.

(** Lines 24-45: the value of [types] when line 47 is reached, or the
    error returned before. *)
Definition resolve (p : Provider W Res Ctx) (f : Filter) : error + list string :=
  match
    (if negb (Nat.eqb (List.length (Include f)) 0)
     then match range_Include p (Include f) with
          | Some e => inl e
          | None => inr (Include f)
          end
     else inr (ResourceTypes p))
  with
  | inl e => inl e
  | inr types =>
      if negb (Nat.eqb (List.length (Exclude f)) 0)
      then match range_Exclude p (Exclude f) with
           | Some e => inl e
           | None => inr types
           end
      else inr types
  end.

Section Run.

Variable ctx : Ctx.
Variable p : Provider W Res Ctx.
Variables hcl tfstate : option Wr.
Variable f : Filter.

(** Lines 92-98: the unit goes to the configuration sink, if there is
    one. *)
Definition unit_HCL (logger : Logger) (t : string) (r : Res) : Act unit :=
  match hcl with
  | Some h =>
      Log logger "msg" (VStr "calculating HCL") ;;
      err <- call_HCL r h ;;
      match err with
      | Some e =>
          abort (Wrapf e ("error while calculating the Config of resource "
                            ++ fmt_q t))
      | None => ret tt
      end
  | None => ret tt
  end.

(** Lines 100-106: the unit goes to the state sink, if there is one. *)
Definition unit_State (logger : Logger) (t : string) (r : Res) : Act unit :=
  match tfstate with
  | Some s =>
      Log logger "msg" (VStr "calculating TFState") ;;
      err <- call_State r s ;;
      match err with
      | Some e =>
          abort (Wrapf e ("error while calculating the satate of resource "
                            ++ fmt_q t))
      | None => ret tt
      end
  | None => ret tt
  end.

(** Lines 80-106: one unit of the processing set. *)
Definition import_unit (logger : Logger) (t : string) (r : Res) : Act unit :=
  err <- RetryDefault (call_Read r f) ;;
  match err with
  | Some e =>
      let cause := Cause e in
      Log logger "error" (VErr cause)
  | None =>
      unit_HCL logger t r ;;
      unit_State logger t r
  end.

(** Line 79: the loop over the processing set. *)
Fixpoint range_units (logger : Logger) (t : string) (us : list Res) : Act unit :=
  match us with
  | [] => ret tt
  | r :: us' => import_unit logger t r ;; range_units logger t us'
  end.

(** Lines 67-107: one fetched resource, [i] being the index of the
    [range] clause. *)
Definition import_resource (logger0 : Logger) (t : string) (resourceLen i : nat)
    (re : Res) : Act unit :=
  let logger :=
    With (With (With logger0 "id" (VStr (ID re))) "total" (VInt resourceLen))
         "current" (VInt (i + 1)) in
  Fprintf (CR ++ "Importing " ++ t ++ " [" ++ fmt_d (i + 1) ++ "/"
              ++ fmt_d resourceLen ++ "]") ;;
  Log logger "msg" (VStr "reading from TF") ;;
  x <- call_ImportState re ;;
  match snd x with
  | Some e => abort e
  | None => range_units logger t (re :: fst x)
  end.

(** Line 66: the loop over the fetched resources. *)
Fixpoint range_resources (logger : Logger) (t : string) (resourceLen i : nat)
    (rs : list Res) : Act unit :=
  match rs with
  | [] => ret tt
  | re :: rs' =>
      import_resource logger t resourceLen i re ;;
      range_resources logger t resourceLen (S i) rs'
  end.

(** Lines 51-112: one type of the universe. The logger of the type loop
    is reassigned, so the iteration hands its logger to the next one. *)
Definition import_type (logger0 : Logger) (t : string) : Act Logger :=
  let logger := With logger0 "resource" (VStr t) in
  if IsExcluded f t
  then Log logger "msg" (VStr "excluded") ;; ret logger
  else
    Log logger "msg" (VStr "fetching the list of resources") ;;
    x <- call_Resources p ctx t f ;;
    match snd x with
    | Some e => abort (WithStack e)
    | None =>
        let resources := fst x in
        let resourceLen := List.length resources in
        range_resources logger t resourceLen 0 resources ;;
        (if Nat.ltb 0 resourceLen
         then Fprintf (CR ++ "Importing " ++ t ++ " [" ++ fmt_d resourceLen
                          ++ "/" ++ fmt_d resourceLen ++ "] Done!" ++ LF)
         else ret tt) ;;
        Log logger "msg" (VStr "importing done") ;;
        ret logger
    end.

(** Line 50: the loop over the types. *)
Fixpoint range_types (logger : Logger) (types : list string) : Act Logger :=
  match types with
  | [] => ret logger
  | t :: types' =>
      logger' <- import_type logger t ;;
      range_types logger' types'
  end.

(** Lines 115-126. *)
Definition sync_hcl (logger : Logger) : Act unit :=
  match hcl with
  | Some h =>
      Fprintf (CR ++ "Writing HCL ...") ;;
      Log logger "msg" (VStr "writing the HCL") ;;
      err <- call_Sync h ;;
      match err with
      | Some e => abort (Wrapf e "error while Sync Config")
      | None =>
          Fprintf (CR ++ "Writing HCL Done!" ++ LF) ;;
          Log logger "msg" (VStr "writing the HCL done")
      end
  | None => ret tt
  end.

(** Lines 128-139. *)
Definition sync_tfstate (logger : Logger) : Act unit :=
  match tfstate with
  | Some s =>
      Fprintf (CR ++ "Writing TFState ...") ;;
      Log logger "msg" (VStr "writing the TFState") ;;
      err <- call_Sync s ;;
      match err with
      | Some e => abort (Wrapf e "error while Sync State")
      | None =>
          Fprintf (CR ++ "Writing TFState Done!" ++ LF) ;;
          Log logger "msg" (VStr "writing the TFState done")
      end
  | None => ret tt
  end.

(** Lines 47-141: what runs once both filters are validated. *)
Definition import_body (types : list string) : Act unit :=
  let logger := With [] "func" (VStr "provider.Import") in
  Fprintf ("Importing with filters: " ++ FilterString f) ;;
  Log logger "filters" (VStr (FilterString f)) ;;
  logger' <- range_types logger types ;;
  sync_hcl logger' ;;
  sync_tfstate logger'.

(** [Import]: the error returned (nil is [None]), the world left behind
    and everything the run did. *)
Definition Import (w : W) : option error * W * list Ev :=
  match resolve p f with
  | inl e => (Some e, w, [])
  | inr types =>
      match import_body types w with
      | (Next _, w', tr) => (None, w', tr)
      | (Return e, w', tr) => (Some e, w', tr)
      end
  end.

End Run.

(** The logger the type loop starts with (line 22) and the two entries
    every validated run opens with (lines 47-48). *)
Definition start_logger : Logger := With [] "func" (VStr "provider.Import").

Definition banner (f : Filter) : list Ev :=
  [EvOut ("Importing with filters: " ++ FilterString f);
   EvLog start_logger "filters" (VStr (FilterString f))].

(** The error of [Import] when the last part it ran has outcome [o]. *)
Definition result_of {A} (o : outcome A) : option error :=
  match o with
  | Next _ => None
  | Return e => Some e
  end.

End Pipeline.

(** The type universe as the specification words it: [Include] when it is
    not empty, the provider's own list otherwise. It is compared with what
    [resolve] computes. *)
Definition universe {W Res Ctx : Type} (p : Provider W Res Ctx) (f : Filter)
    : list string :=
  match Include f with
  | [] => ResourceTypes p
  | _ :: _ => Include f
  end.

(** ** Reading a run from its events *)

Section Observations.

Context {Res Wr Ctx : Type}.

Notation "'Ev'" := (Event Res Wr Ctx).

Definition fetch_type (ev : Ev) : list string :=
  match ev with EvResources _ t _ => [t] | _ => [] end.

(** The types handed to [Provider.Resources], in call order. *)
Definition fetched_types (tr : list Ev) : list string := flat_map fetch_type tr.

Definition is_sync (ev : Ev) : bool :=
  match ev with EvSync _ _ => true | _ => false end.

Definition is_serialization (ev : Ev) : bool :=
  match ev with EvHCL _ _ _ | EvState _ _ _ => true | _ => false end.

(** The [Sync] calls of a run, in call order. *)
Definition syncs (tr : list Ev) : list Ev := filter is_sync tr.

(** The resource type a log entry is about: the last value its logger
    carries under the key "resource". *)
Definition log_resource (l : Logger) : option string :=
  match logger_get l "resource" with
  | Some (VStr t) => Some t
  | _ => None
  end.

(** The "excluded" diagnostic entry about type [t]. *)
Definition is_excluded_event (t : string) (ev : Ev) : bool :=
  match ev with
  | EvLog l k (VStr m) =>
      String.eqb k "msg" && String.eqb m "excluded" &&
      match log_resource l with
      | Some t' => String.eqb t' t
      | None => false
      end
  | _ => false
  end.

Definition excluded_events (t : string) (tr : list Ev) : nat :=
  List.length (filter (is_excluded_event t) tr).

(** Every iteration of the type loop opens with one of two log entries;
    the types they are about are the types the loop went through. *)
Definition opened_type (ev : Ev) : list string :=
  match ev with
  | EvLog l k (VStr m) =>
      if String.eqb k "msg" &&
         (String.eqb m "excluded" || String.eqb m "fetching the list of resources")
      then match log_resource l with
           | Some t => [t]
           | None => []
           end
      else []
  | _ => []
  end.

Definition processed_types (tr : list Ev) : list string := flat_map opened_type tr.

(** The type being imported after the events [tr]: the type of the last
    fetch, [cur] when there is none. *)
Fixpoint current_type (tr : list Ev) (cur : option string) : option string :=
  match tr with
  | [] => cur
  | EvResources _ t _ :: tr' => current_type tr' (Some t)
  | _ :: tr' => current_type tr' cur
  end.

(** A failed collaborator call after which the type loop returns. [Read]
    is not among them. *)
Definition is_failure (ev : Ev) : bool :=
  match ev with
  | EvResources _ _ (Some _) | EvImportState _ (Some _)
  | EvHCL _ _ (Some _) | EvState _ _ (Some _) => true
  | _ => false
  end.

(** The error [Import] returns after such a call, while type [t] is being
    imported. *)
Definition fatal_error {RT : Runtime} (t : string) (ev : Ev) : option error :=
  match ev with
  | EvResources _ _ (Some e) => Some (WithStack e)
  | EvImportState _ (Some e) => Some e
  | EvHCL _ _ (Some e) =>
      Some (Wrapf e ("error while calculating the Config of resource " ++ fmt_q t))
  | EvState _ _ (Some e) =>
      Some (Wrapf e ("error while calculating the satate of resource " ++ fmt_q t))
  | _ => None
  end.

Definition clean (tr : list Ev) : Prop :=
  Forall (fun ev => is_failure ev = false) tr.

Definition failed_read (u : Res) (ev : Ev) : Prop :=
  exists e, ev = EvRead u (Some e).

Section Shapes.

Variable ctx : Ctx.
Variables hcl tfstate : option Wr.
Variable f : Filter.

(** What an iteration of the type loop may do once the fetch is made. *)
Inductive body_event : Ev -> Prop :=
| be_out s : body_event (EvOut s)
| be_msg l m :
    In m ["reading from TF"; "calculating HCL"; "calculating TFState";
          "importing done"] ->
    body_event (EvLog l "msg" (VStr m))
| be_error l e : body_event (EvLog l "error" (VErr e))
| be_import r e : body_event (EvImportState r e)
| be_read r e : body_event (EvRead r e)
| be_hcl r h e : hcl = Some h -> body_event (EvHCL r h e)
| be_state r s e : tfstate = Some s -> body_event (EvState r s e).

(** What the type loop may do. *)
Inductive loop_event : Ev -> Prop :=
| le_body ev : body_event ev -> loop_event ev
| le_excluded l t :
    log_resource l = Some t -> IsExcluded f t = true ->
    loop_event (EvLog l "msg" (VStr "excluded"))
| le_fetching l t :
    log_resource l = Some t -> IsExcluded f t = false ->
    loop_event (EvLog l "msg" (VStr "fetching the list of resources"))
| le_fetch t e :
    IsExcluded f t = false -> loop_event (EvResources ctx t e).

(** The serialization of a unit into the configured sinks. *)
Definition serialization (logger : Logger) (u : Res) : list Ev :=
  match hcl with
  | Some h => [EvLog logger "msg" (VStr "calculating HCL"); EvHCL u h None]
  | None => []
  end ++
  match tfstate with
  | Some s => [EvLog logger "msg" (VStr "calculating TFState"); EvState u s None]
  | None => []
  end.

(** The events of one unit that did not stop the run: either every
    attempt at reading it failed and the cause was logged, or an
    attempt succeeded and the unit was serialized. *)
Inductive unit_block {RT : Runtime} (logger : Logger) (u : Res) : list Ev -> Prop :=
| ub_skipped rds e :
    Forall (failed_read u) rds -> List.length rds = RetryTimes ->
    unit_block logger u (rds ++ [EvLog logger "error" (VErr e)])
| ub_done rds :
    Forall (failed_read u) rds -> List.length rds < RetryTimes ->
    unit_block logger u (rds ++ EvRead u None :: serialization logger u).

End Shapes.

End Observations.

(** Every one of the [n] attempts at [op], each started in the world its
    predecessor left, fails. *)
Fixpoint all_attempts_fail {W : Type} (n : nat) (op : W -> option error * W) (w : W)
    : bool :=
  match n with
  | O => true
  | S k =>
      match op w with
      | (None, _) => false
      | (Some _, w') => all_attempts_fail k op w'
      end
  end.



Definition is_expanded {Res Wr Ctx : Type} (ev : Event Res Wr Ctx) : bool :=
  match ev with EvImportState _ None => true | _ => false end.

(** Every resource whose expansion succeeded was read. *)
Definition reads_follow {Res Wr Ctx : Type} (tr : list (Event Res Wr Ctx)) : Prop :=
  forall r, In (EvImportState r None) tr -> exists x, In (EvRead r x) tr.

(** Every event of a computation, from any world, satisfies [P]. *)
Definition emits_only {W Res Wr Ctx A : Type} (P : Event Res Wr Ctx -> Prop)
    (c : M W Res Wr Ctx A) : Prop :=
  forall w, Forall P (snd (c w)).

(** The return discipline of the type loop while type [t] is imported: a
    computation that goes on made no failed call, and one that returns did
    so right after its only failed call, with the error of that call. *)
Definition disciplined {W Res Wr Ctx A : Type} {RT : Runtime} (t : string)
    (c : M W Res Wr Ctx A) : Prop :=
  forall w,
    match c w with
    | (Next _, _, tr) => clean tr
    | (Return e, _, tr) =>
        exists pre ev, tr = pre ++ [ev] /\ clean pre /\ fatal_error t ev = Some e
    end.

(** ** A concrete account

    A small provider, a handful of resources with fixed behaviour and three
    writers, on which the pipeline is run. Resources and writers are
    numbered. *)

Module Demo.

(** The world: whether the caller's context is canceled, how many times
    [Read] was attempted on resource 2, what each writer accumulated and
    which writers were synced, both latest first. *)
Record World : Type := mkWorld {
  cancelled : bool;
  reads : nat;
  written : list (nat * nat);
  synced : list nat
}.

Definition start : World := mkWorld false 0 [] [].

Definition DQ : string := String (ascii_of_nat 34) EmptyString.

#[export] Instance runtime : Runtime := {
  RetryTimes := 3;
  fmt_q := fun s => (DQ ++ s ++ DQ)%string;
  FilterString := fun f =>
    ("Include: [" ++ String.concat "," (Include f) ++ "] Exclude: ["
       ++ String.concat "," (Exclude f) ++ "]")%string
}.

Definition config_writer : nat := 0.
Definition state_writer : nat := 1.
Definition broken_writer : nat := 13.

(** Resource 1 expands into 11 and 12; the expansion of 8 fails; 9 is
    never readable; 2 is readable from the third attempt on; the caller
    cancels while 3 is being read; 7 does not serialize to configuration,
    6 does not serialize to state. *)
#[export] Instance resource : Resource World nat nat := {
  ID := fun r => ("r" ++ fmt_d r)%string;
  ImportState := fun r w =>
    match r with
    | 1 => (([11; 12], None), w)
    | 8 => (([], Some (ErrExternal "import state failed")), w)
    | _ => (([], None), w)
    end;
  Read := fun r _ w =>
    match r with
    | 9 => (Some (WithStack (ErrExternal "not found")), w)
    | 2 =>
        if Nat.ltb (reads w) 2
        then (Some (ErrExternal "throttled"),
              mkWorld (cancelled w) (S (reads w)) (written w) (synced w))
        else (None, w)
    | 3 => (None, mkWorld true (reads w) (written w) (synced w))
    | _ => (None, w)
    end;
  HCL := fun r wr w =>
    match r with
    | 7 => (Some (ErrExternal "bad schema"), w)
    | _ => (None, mkWorld (cancelled w) (reads w) ((wr, r) :: written w) (synced w))
    end;
  State := fun r wr w =>
    match r with
    | 6 => (Some (ErrExternal "bad state"), w)
    | _ => (None, mkWorld (cancelled w) (reads w) ((wr, r) :: written w) (synced w))
    end
}.

#[export] Instance writer : Writer World nat := {
  Sync := fun wr w =>
    if Nat.eqb wr broken_writer
    then (Some (ErrExternal "disk full"), w)
    else (None, mkWorld (cancelled w) (reads w) (written w) (wr :: synced w))
}.

(** A provider of three types which honours the context: a fetch under a
    canceled context fails. [table] lists the resources of each type. *)
Definition provider {Ctx : Type} (table : string -> list nat)
    : Provider World nat Ctx := {|
  HasResourceType := fun t =>
    existsb (String.eqb t) ["type-A"; "type-B"; "type-C"];
  ResourceTypes := ["type-A"; "type-B"; "type-C"];
  Resources := fun _ t _ w =>
    if cancelled w
    then (([], Some (ErrExternal "context canceled")), w)
    else ((table t, None), w)
|}.

Definition account (t : string) : list nat :=
  if String.eqb t "type-A" then [1; 2]
  else if String.eqb t "type-B" then [3; 4]
  else [].

(** One resource of type-A, then nothing. *)
Definition only (r : nat) (t : string) : list nat :=
  if String.eqb t "type-A" then [r] else [].

Definition no_filter : Filter := mkFilter [] [].

(** type-X is not a type of the provider. *)
Definition unsupported : Filter := mkFilter ["type-A"; "type-X"] [].

(** type-B is asked for and excluded at once. *)
Definition both : Filter := mkFilter ["type-A"; "type-B"] ["type-B"].

Definition two_types : Filter := mkFilter ["type-A"; "type-B"] [].

Definition skip_B : Filter := mkFilter [] ["type-B"].

(** Resource 7 cannot be written to the configuration sink. *)
Definition config_failure_run : option error * World * list (Event nat nat unit) :=
  Import tt (provider (only 7)) (Some config_writer) (Some state_writer)
    no_filter start.

(** Resource 8 cannot be expanded. *)
Definition expansion_failure_run : option error * World * list (Event nat nat unit) :=
  Import tt (provider (only 8)) (Some config_writer) (Some state_writer)
    no_filter start.

(** The caller cancels while resource 3 is read: resources 1, 11, 12 and
    2 are serialized by then, no fetch is left to make. *)
Definition cancelled_run : option error * World * list (Event nat nat unit) :=
  Import tt (provider account) (Some config_writer) (Some state_writer)
    two_types start.

(** The type loop over everything, with both sinks. *)
Definition full_loop : outcome Logger * World * list (Event nat nat unit) :=
  range_types tt (provider (only 4)) (Some config_writer) (Some state_writer)
    no_filter start_logger ["type-A"; "type-B"; "type-C"] start.

(** The same loop and the whole run when the configuration sink cannot be
    synced. *)
Definition broken_loop : outcome Logger * World * list (Event nat nat unit) :=
  range_types tt (provider (only 4)) (Some broken_writer) (Some state_writer)
    no_filter start_logger ["type-A"; "type-B"; "type-C"] start.

Definition broken_run : option error * World * list (Event nat nat unit) :=
  Import tt (provider (only 4)) (Some broken_writer) (Some state_writer)
    no_filter start.

Definition logger_of (o : outcome Logger) : Logger :=
  match o with
  | Next l => l
  | Return _ => []
  end.

End Demo.

(** ** More readings of a run *)

Section MoreObservations.

Context {Res Wr Ctx : Type}.

Definition out_line (ev : Event Res Wr Ctx) : list string :=
  match ev with EvOut s => [s] | _ => [] end.

(** What a run wrote to [out], in order. *)
Definition outs (tr : list (Event Res Wr Ctx)) : list string := flat_map out_line tr.

(** The progress line of line 68 and the closing line of line 110. *)
Definition progress_line (t : string) (i n : nat) : string :=
  CR ++ "Importing " ++ t ++ " [" ++ fmt_d i ++ "/" ++ fmt_d n ++ "]".

Definition done_line (t : string) (n : nat) : string :=
  CR ++ "Importing " ++ t ++ " [" ++ fmt_d n ++ "/" ++ fmt_d n ++ "] Done!" ++ LF.

(** A call whose failure makes [Import] return: those of the type loop and
    a failed [Sync]. *)
Definition is_fatal (ev : Event Res Wr Ctx) : bool :=
  is_failure ev || match ev with EvSync _ (Some _) => true | _ => false end.

(** Every log entry among the events was made with a logger satisfying [P]. *)
Definition logs_with (P : Logger -> Prop) (tr : list (Event Res Wr Ctx)) : Prop :=
  Forall (fun ev => match ev with EvLog l _ _ => P l | _ => True end) tr.

(** A serialization of [r], into whichever sink. *)
Definition serializes (r : Res) (ev : Event Res Wr Ctx) : Prop :=
  (exists wr x, ev = EvHCL r wr x) \/ (exists wr x, ev = EvState r wr x).

(** Wherever a unit is serialized among the events, a successful read of
    that unit comes before. *)
Definition read_before_serialized (tr : list (Event Res Wr Ctx)) : Prop :=
  forall pre ev post r,
    tr = pre ++ ev :: post -> serializes r ev -> In (EvRead r None) pre.

End MoreObservations.

(** The world after [n] attempts at [op]. *)
Fixpoint after_attempts {W : Type} (n : nat) (op : W -> option error * W) (w : W) : W :=
  match n with
  | O => w
  | S k => after_attempts k op (snd (op w))
  end.

(** The first entry of a list the provider does not support. *)
Definition first_unsupported {W Res Ctx : Type} (p : Provider W Res Ctx)
    (l : list string) : option string :=
  find (fun i => negb (HasResourceType p i)) l.

(** ** The generator of listing functions

    [google/cmd/template.go]: the [Function] description, its [Execute]
    method and the template it interpolates. *)

Module Codegen.

Definition TAB : string := String (ascii_of_nat 9) EmptyString.
Definition DQ : string := String (ascii_of_nat 34) EmptyString.

(** The [Function] struct, fields in declaration order. *)
Record Function : Type := mkFunction {
  Resource : string;
  Zone : bool;
  Name : string;
  ServiceName : string;
  Region : bool;
  API : string;
  NoFilter : bool;
  ResourceList : string
}.

(** The fields and the conditions the template refers to. *)
Inductive field : Type := FResource | FName | FServiceName | FAPI | FResourceList.

Inductive flag : Type := BZone | BRegion | BNoFilter.

Inductive cond : Type :=
| CField (b : flag)
| CNot (b : flag).

(** A parsed [text/template]: literal text, the value of a field, and a
    conditional with its two branches ([else if] is an [if] in the [else]
    branch). *)
Local Unset Elimination Schemes.

Inductive node : Type :=
| Text (s : string)
| Print (x : field)
| If (c : cond) (yes no : list node).

Local Set Elimination Schemes.

Definition field_value (f : Function) (x : field) : string :=
  match x with
  | FResource => Resource f
  | FName => Name f
  | FServiceName => ServiceName f
  | FAPI => API f
  | FResourceList => ResourceList f
  end.

Definition flag_value (f : Function) (b : flag) : bool :=
  match b with
  | BZone => Zone f
  | BRegion => Region f
  | BNoFilter => NoFilter f
  end.

Definition eval (f : Function) (c : cond) : bool :=
  match c with
  | CField b => flag_value f b
  | CNot b => negb (flag_value f b)
  end.

(** What executing a node writes, one piece per text and per value. *)
Fixpoint chunks (f : Function) (n : node) : list string :=
  match n with
  | Text s => [s]
  | Print x => [field_value f x]
  | If c yes no =>
      if eval f c then flat_map (chunks f) yes else flat_map (chunks f) no
  end.

Definition chunks_of (f : Function) (ns : list node) : list string :=
  flat_map (chunks f) ns.

(** The text a template produces: its pieces in order. *)
Definition render (f : Function) (ns : list node) : string :=
  String.concat EmptyString (chunks_of f ns).

(** [functionTmpl] as [template.Parse] reads it (done once, in [init]). *)
Definition functionTmpl : list node :=
  [ Text (LF ++ TAB ++ "// List");
    Print FName;
    Text " returns a list of ";
    Print FName;
    Text " within a project ";
    If (CField BZone) [Text "and a zone "] [];
    Text (LF ++ TAB ++ "func (r *GCPReader) List");
    Print FName;
    Text "(ctx context.Context";
    If (CNot BNoFilter) [Text ", filter string "] [];
    Text ") (";
    If (CField BZone) [Text "map[string]"] [];
    Text "[]";
    Print FAPI;
    Text ".";
    Print FResource;
    Text (", error) {" ++
          LF ++ TAB ++ TAB ++ "service := ");
    Print FAPI;
    Text ".New";
    Print FServiceName;
    Text "Service(r.";
    Print FAPI;
    Text (")" ++
          LF ++ TAB ++ TAB);
    If (CField BZone)
      [ Text (LF ++ TAB ++ TAB ++ "list := make(map[string][]");
        Print FAPI;
        Text ".";
        Print FResource;
        Text (")" ++
              LF ++ TAB ++ TAB ++ "zones, err := r.getZones()" ++
              LF ++ TAB ++ TAB ++ "if err != nil {" ++
              LF ++ TAB ++ TAB ++ TAB ++ "return nil, errors.Wrap(err, " ++ DQ
                 ++ "unable to get zones in region" ++ DQ ++ ")" ++
              LF ++ TAB ++ TAB ++ "}" ++
              LF ++ TAB ++ TAB ++ "for _, zone := range zones {" ++
              LF ++ TAB ++ TAB) ]
      [];
    Text (LF ++ TAB ++ TAB ++ "resources := make([]");
    Print FAPI;
    Text ".";
    Print FResource;
    Text (", 0)" ++
          LF ++ TAB ++ TAB);
    If (CField BZone)
      [ Text (LF ++ TAB ++ TAB ++ "if err := service.List(r.project, zone)." ++
              LF ++ TAB ++ TAB) ]
      [ If (CField BRegion)
          [ Text (LF ++ TAB ++ TAB ++ "if err := service.List(r.project, r.region)." ++
                  LF ++ TAB ++ TAB) ]
          [ Text (LF ++ TAB ++ TAB ++ "if err := service.List(r.project)." ++
                  LF ++ TAB ++ TAB) ] ];
    Text (LF ++ TAB ++ TAB);
    If (CNot BNoFilter)
      [ Text (LF ++ TAB ++ TAB ++ TAB ++ "Filter(filter)." ++
              LF ++ TAB ++ TAB) ]
      [];
    Text (LF ++ TAB ++ TAB ++ TAB ++ "MaxResults(int64(r.maxResults))." ++
          LF ++ TAB ++ TAB ++ TAB ++ "Pages(ctx, func(list *");
    Print FAPI;
    Text ".";
    Print FResourceList;
    Text (") error {" ++
          LF ++ TAB ++ TAB ++ TAB ++ TAB ++ "for _, res := range list.Items {" ++
          LF ++ TAB ++ TAB ++ TAB ++ TAB ++ TAB ++ "resources = append(resources, *res)" ++
          LF ++ TAB ++ TAB ++ TAB ++ TAB ++ "}" ++
          LF ++ TAB ++ TAB ++ TAB ++ TAB ++ "return nil" ++
          LF ++ TAB ++ TAB ++ TAB ++ "}); err != nil {" ++
          LF ++ TAB ++ TAB ++ TAB ++ "return nil, errors.Wrap(err, " ++ DQ
             ++ "unable to list ");
    Print FAPI;
    Text " ";
    Print FResource;
    Text (" from google APIs" ++ DQ ++ ")" ++
          LF ++ TAB ++ TAB ++ "}" ++
          LF ++ TAB ++ TAB);
    If (CField BZone)
      [ Text (LF ++ TAB ++ TAB ++ "list[zone] = resources" ++
              LF ++ TAB ++ TAB ++ "}" ++
              LF ++ TAB ++ TAB ++ "return list, nil" ++
              LF ++ TAB ++ TAB) ]
      [ Text (LF ++ TAB ++ TAB ++ "return resources, nil" ++
              LF ++ TAB ++ TAB) ];
    Text (LF ++ TAB ++ "}" ++
          LF ++ TAB) ].

(** Lines 131-142: the defaults [Execute] fills in on its copy of [f], each
    from [Resource]. *)
Definition defaults (f : Function) : Function :=
  let f1 :=
    if (String.length (ResourceList f) =? 0)%nat
    then mkFunction (Resource f) (Zone f) (Name f) (ServiceName f) (Region f)
           (API f) (NoFilter f) (Resource f ++ "List")
    else f in
  let f2 :=
    if (String.length (API f1) =? 0)%nat
    then mkFunction (Resource f1) (Zone f1) (Name f1) (ServiceName f1) (Region f1)
           "compute" (NoFilter f1) (ResourceList f1)
    else f1 in
  let f3 :=
    if (String.length (Name f2) =? 0)%nat
    then mkFunction (Resource f2) (Zone f2) (Resource f2 ++ "s") (ServiceName f2)
           (Region f2) (API f2) (NoFilter f2) (ResourceList f2)
    else f2 in
  if (String.length (ServiceName f3) =? 0)%nat
  then mkFunction (Resource f3) (Zone f3) (Name f3) (Resource f3 ++ "s")
         (Region f3) (API f3) (NoFilter f3) (ResourceList f3)
  else f3.

Definition fmt_t (b : bool) : string := if b then "true" else "false".

(** The [%+v] verb on a [Function]. *)
Definition fmt_plus_v (f : Function) : string :=
  "{Resource:" ++ Resource f ++ " Zone:" ++ fmt_t (Zone f)
    ++ " Name:" ++ Name f ++ " ServiceName:" ++ ServiceName f
    ++ " Region:" ++ fmt_t (Region f) ++ " API:" ++ API f
    ++ " NoFilter:" ++ fmt_t (NoFilter f)
    ++ " ResourceList:" ++ ResourceList f ++ "}".

Section Writing.

(** An [io.Writer] with state [S]. *)
Variable S : Type.
Variable Write : S -> string -> option error * S.

(** The pieces go to the writer in order; the first write that fails ends
    the execution with its error. *)
Fixpoint write_all (cs : list string) (s : S) : option error * S :=
  match cs with
  | [] => (None, s)
  | c :: cs' =>
      match Write s c with
      | (Some e, s') => (Some e, s')
      | (None, s') => write_all cs' s'
      end
  end.

(** [fnTmpl.Execute(w, f)]. *)
Definition fnTmpl_Execute (f : Function) (s : S) : option error * S :=
  write_all (chunks_of f functionTmpl) s.

(** Lines 130-147: [Function.Execute]. *)
Definition Execute (f : Function) (s : S) : option error * S :=
  let f' := defaults f in
  match fnTmpl_Execute f' s with
  | (Some err, s') =>
      (Some (Wrapf err ("failed to Execute with Function " ++ fmt_plus_v f')), s')
  | (None, s') => (None, s')
  end.

End Writing.

(** A writer that keeps what it is given, as a [bytes.Buffer] does. *)
Definition buffer_Write (s : string) (c : string) : option error * string :=
  (None, (s ++ c)%string).

(** A writer with room for [n] more characters: it takes a piece whole or
    fails. *)
Definition bounded_Write (s : nat * string) (c : string)
    : option error * (nat * string) :=
  if (String.length c <=? fst s)%nat
  then (None, (fst s - String.length c, (snd s ++ c)%string))
  else (Some (ErrExternal "short write"), s).

Definition firewall : Function :=
  mkFunction "Firewall" false EmptyString EmptyString false EmptyString false
    EmptyString.

Definition with_Region (b : bool) (f : Function) : Function :=
  mkFunction (Resource f) (Zone f) (Name f) (ServiceName f) b (API f)
    (NoFilter f) (ResourceList f).

Definition with_NoFilter (b : bool) (f : Function) : Function :=
  mkFunction (Resource f) (Zone f) (Name f) (ServiceName f) (Region f) (API f)
    b (ResourceList f).

End Codegen.

(** ** More of the concrete account *)

Module MoreDemo.

Import Demo.

(** The iteration on type-A with no sink: resources 1 and 2 are fetched. *)
Definition type_A_iteration : outcome Logger * World * list (Event nat nat unit) :=
  import_type tt (provider account) None None no_filter start_logger "type-A" start.

(** A zonal resource. *)
Definition instance : Codegen.Function :=
  Codegen.mkFunction "Instance" true EmptyString EmptyString false EmptyString
    false EmptyString.

(** [Execute] on a writer with room for 30 characters. *)
Definition short_write_run : option error * (nat * string) :=
  Codegen.Execute (nat * string) Codegen.bounded_Write Codegen.firewall
    (30, EmptyString).

End MoreDemo.

(** ** The work a run owes

    Every change of the world comes from a call the events record, so the
    events of a run tell in which world each call was made, and with it
    what each fetch and each expansion returned. *)

Section Owed.

Context {W Res Wr Ctx : Type}.
Context {RI : Resource W Res Wr} {WI : Writer W Wr}.

Variable p : Provider W Res Ctx.
Variable f : Filter.

(** The world after the call an event records, made in the world [w]. *)
Definition step (ev : Event Res Wr Ctx) (w : W) : W :=
  match ev with
  | EvOut _ => w
  | EvLog _ _ _ => w
  | EvResources c t _ => snd (Resources p c t f w)
  | EvImportState r _ => snd (ImportState r w)
  | EvRead r _ => snd (Read r f w)
  | EvHCL r wr _ => snd (HCL r wr w)
  | EvState r wr _ => snd (State r wr w)
  | EvSync wr _ => snd (Sync wr w)
  end.

Fixpoint replay (tr : list (Event Res Wr Ctx)) (w : W) : W :=
  match tr with
  | [] => w
  | ev :: tr' => replay tr' (step ev w)
  end.

Definition expand_of (ev : Event Res Wr Ctx) : list Res :=
  match ev with EvImportState r _ => [r] | _ => [] end.

(** The resources handed to [ImportState], in call order. *)
Definition expanded (tr : list (Event Res Wr Ctx)) : list Res :=
  flat_map expand_of tr.

(** The resources the successful fetches among the events returned, in
    order, the events being those of a run started in [w]. *)
Fixpoint fetched_along (tr : list (Event Res Wr Ctx)) (w : W) : list Res :=
  match tr with
  | [] => []
  | ev :: tr' =>
      match ev with
      | EvResources c t None => fst (fst (Resources p c t f w))
      | _ => []
      end ++ fetched_along tr' (step ev w)
  end.

(** The units the successful expansions among the events call for: each
    expanded resource followed by what its expansion returned. *)
Fixpoint units_along (tr : list (Event Res Wr Ctx)) (w : W) : list Res :=
  match tr with
  | [] => []
  | ev :: tr' =>
      match ev with
      | EvImportState r None => r :: fst (fst (ImportState r w))
      | _ => []
      end ++ units_along tr' (step ev w)
  end.

(** The units whose reading came to an end, in order: with a successful
    [Read], or with the "error" entry that follows the last failed
    attempt. [cur] is the unit whose attempts are under way. *)
Fixpoint finished_units (cur : option Res) (tr : list (Event Res Wr Ctx))
    : list Res :=
  match tr with
  | [] => []
  | EvRead r None :: tr' => r :: finished_units None tr'
  | EvRead r (Some _) :: tr' => finished_units (Some r) tr'
  | EvLog _ k _ :: tr' =>
      if String.eqb k "error"
      then match cur with
           | Some r => r :: finished_units None tr'
           | None => finished_units None tr'
           end
      else finished_units cur tr'
  | _ :: tr' => finished_units cur tr'
  end.

(** The unit whose attempts are under way after the events. *)
Fixpoint reading (cur : option Res) (tr : list (Event Res Wr Ctx)) : option Res :=
  match tr with
  | [] => cur
  | EvRead r None :: tr' => reading None tr'
  | EvRead r (Some _) :: tr' => reading (Some r) tr'
  | EvLog _ k _ :: tr' =>
      if String.eqb k "error" then reading None tr' else reading cur tr'
  | _ :: tr' => reading cur tr'
  end.

(** Output, or a log entry that is not an "error" entry. *)
Definition is_note (ev : Event Res Wr Ctx) : bool :=
  match ev with
  | EvOut _ => true
  | EvLog _ k _ => negb (String.eqb k "error")
  | _ => false
  end.

(** The events of a computation replay to the world it leaves. *)
Definition replays {A : Type} (c : M W Res Wr Ctx A) : Prop :=
  forall w, replay (snd (c w)) w = snd (fst (c w)).

End Owed.

Section Cuts.

Context {Res Wr Ctx : Type} {RT : Runtime}.

Variables hcl tfstate : option Wr.

(** The events of a unit after which the unit loop goes on: every one of
    the [RetryTimes] attempts at reading it failed and the cause of the
    last failure was logged, nothing else; or an attempt succeeded and the
    unit went to every configured sink. *)
Inductive unit_run (logger : Logger) (u : Res) : list (Event Res Wr Ctx) -> Prop :=
| ur_skipped rds e0 :
    Forall (failed_read u) rds -> S (List.length rds) = RetryTimes ->
    unit_run logger u
      (rds ++ [EvRead u (Some e0); EvLog logger "error" (VErr (Cause e0))])
| ur_done rds :
    Forall (failed_read u) rds -> List.length rds < RetryTimes ->
    unit_run logger u (rds ++ EvRead u None :: serialization hcl tfstate logger u).

(** The events of a unit at which [Import] returns [e]: the unit was read,
    and its serialization into the configuration sink failed, or went
    through where that sink is configured and failed into the state
    sink. *)
Inductive unit_cut (logger : Logger) (t : string) (u : Res)
    : error -> list (Event Res Wr Ctx) -> Prop :=
| uc_config rds h e0 :
    hcl = Some h ->
    Forall (failed_read u) rds -> List.length rds < RetryTimes ->
    unit_cut logger t u
      (Wrapf e0 ("error while calculating the Config of resource " ++ fmt_q t))
      (rds ++ [EvRead u None;
               EvLog logger "msg" (VStr "calculating HCL");
               EvHCL u h (Some e0)])
| uc_state rds s e0 :
    tfstate = Some s ->
    Forall (failed_read u) rds -> List.length rds < RetryTimes ->
    unit_cut logger t u
      (Wrapf e0 ("error while calculating the satate of resource " ++ fmt_q t))
      (rds ++ EvRead u None
           :: match hcl with
              | Some h => [EvLog logger "msg" (VStr "calculating HCL");
                           EvHCL u h None]
              | None => []
              end
           ++ [EvLog logger "msg" (VStr "calculating TFState");
               EvState u s (Some e0)]).

End Cuts.

(** ** Further runs on concrete accounts *)

Module Accounts.

Import Demo.

(** The caller's context is canceled from the start: the first fetch
    fails. *)
Definition cancelled_start : World := mkWorld true 0 [] [].

Definition aborted_run : option error * World * list (Event nat nat unit) :=
  Import tt (provider account) (Some config_writer) (Some state_writer)
    both cancelled_start.

(** type-B is asked for twice and excluded. *)
Definition twice : Filter := mkFilter ["type-B"; "type-B"] ["type-B"].

Definition twice_run : option error * World * list (Event nat nat unit) :=
  Import tt (provider account) (Some config_writer) (Some state_writer)
    twice start.

Definition both_run : option error * World * list (Event nat nat unit) :=
  Import tt (provider account) (Some config_writer) (Some state_writer)
    both start.

(** Resources without a world: 1 expands into 7 and 12, 2 into 9 and 10;
    9 is never readable; 7 does not serialize to configuration. *)
Definition expanding : Resource unit nat nat := {|
  ID := fun r => ("r" ++ fmt_d r)%string;
  ImportState := fun r w =>
    match r with
    | 1 => (([7; 12], None), w)
    | 2 => (([9; 10], None), w)
    | _ => (([], None), w)
    end;
  Read := fun r _ w =>
    match r with
    | 9 => (Some (ErrExternal "not found"), w)
    | _ => (None, w)
    end;
  HCL := fun r _ w =>
    match r with
    | 7 => (Some (ErrExternal "bad schema"), w)
    | _ => (None, w)
    end;
  State := fun _ _ w => (None, w)
|}.

(** The iteration on resource 1, the only one fetched, with both sinks. *)
Definition cut_iteration : outcome unit * unit * list (Event nat nat unit) :=
  import_resource (RI:=expanding) (Some config_writer) (Some state_writer)
    no_filter start_logger "type-A" 1 0 1 tt.

(** The iteration on resource 2, the only one fetched, with both sinks. *)
Definition skipping_iteration : outcome unit * unit * list (Event nat nat unit) :=
  import_resource (RI:=expanding) (Some config_writer) (Some state_writer)
    no_filter start_logger "type-A" 1 0 2 tt.

(** The iteration on resource 1 of the account, the first of two. *)
Definition whole_iteration : outcome unit * World * list (Event nat nat unit) :=
  import_resource (Some config_writer) (Some state_writer) no_filter
    start_logger "type-A" 2 0 1 start.

(** A run without sinks over the account, type-B excluded. *)
Definition sinkless_run : option error * World * list (Event nat nat unit) :=
  Import tt (provider account) None None skip_B start.

End Accounts.

(** ** Filter validation and the type universe *)

Section Validation.

Context {W Res Wr Ctx : Type}.
Variable p : Provider W Res Ctx.

Lemma range_Include_unsupported (l : list string) :
  (exists x, In x l /\ HasResourceType p x = false) ->
  exists x, In x l /\ HasResourceType p x = false /\
    range_Include p l =
      Some (Wrapf ErrProviderResourceNotSupported
              ("type " ++ x ++ " on Include filter")).
Proof.
  induction l as [|i l IH]; intros [x [Hin Hx]].
  - destruct Hin.
  - simpl. destruct (HasResourceType p i) eqn:Hi; simpl.
    + destruct Hin as [-> | Hin]; [congruence|].
      destruct IH as [y [Hy1 [Hy2 Hy3]]]; [now exists x|].
      exists y. auto.
    + exists i. auto.
Qed.

Lemma range_Exclude_unsupported (l : list string) :
  (exists x, In x l /\ HasResourceType p x = false) ->
  exists x, In x l /\ HasResourceType p x = false /\
    range_Exclude p l =
      Some (Wrapf ErrProviderResourceNotSupported
              ("type " ++ x ++ " on Exclude filter")).
Proof.
  induction l as [|i l IH]; intros [x [Hin Hx]].
  - destruct Hin.
  - simpl. destruct (HasResourceType p i) eqn:Hi; simpl.
    + destruct Hin as [-> | Hin]; [congruence|].
      destruct IH as [y [Hy1 [Hy2 Hy3]]]; [now exists x|].
      exists y. auto.
    + exists i. auto.
Qed.

Lemma range_Include_supported (l : list string) :
  (forall x, In x l -> HasResourceType p x = true) ->
  range_Include p l = None.
Proof.
  induction l as [|i l IH]; intros H; simpl; [reflexivity|].
  rewrite (H i (or_introl eq_refl)). simpl. apply IH.
  intros x Hx. apply H. now right.
Qed.

Lemma range_Include_None (l : list string) :
  range_Include p l = None ->
  forall x, In x l -> HasResourceType p x = true.
Proof.
  induction l as [|i l IH]; simpl; intros H x Hx; [destruct Hx|].
  destruct (HasResourceType p i) eqn:Hi; simpl in H; [|discriminate].
  destruct Hx as [<- | Hx]; auto.
Qed.

Lemma range_Exclude_None (l : list string) :
  range_Exclude p l = None ->
  forall x, In x l -> HasResourceType p x = true.
Proof.
  induction l as [|i l IH]; simpl; intros H x Hx; [destruct Hx|].
  destruct (HasResourceType p i) eqn:Hi; simpl in H; [|discriminate].
  destruct Hx as [<- | Hx]; auto.
Qed.

(** The universe a validated filter resolves to. *)
Lemma resolve_inr (f : Filter) (types : list string) :
  resolve p f = inr types -> types = universe p f.
Proof.
  unfold resolve, universe. destruct (Include f) as [|i l] eqn:HI; simpl.
  - destruct (Exclude f) as [|e l'] eqn:HE; simpl; [congruence|].
    destruct (negb (HasResourceType p e)); [discriminate|].
    destruct (range_Exclude p l'); [discriminate|congruence].
  - destruct (negb (HasResourceType p i)); [discriminate|].
    destruct (range_Include p l); [discriminate|].
    destruct (Exclude f) as [|e l'] eqn:HE; simpl; [congruence|].
    destruct (negb (HasResourceType p e)); [discriminate|].
    destruct (range_Exclude p l'); [discriminate|congruence].
Qed.

(** A filter is validated exactly when the provider supports every entry
    of both lists. *)
Lemma resolve_inr_iff (f : Filter) :
  (exists types, resolve p f = inr types) <->
  (forall x, In x (Include f ++ Exclude f) -> HasResourceType p x = true).
Proof.
  split.
  - intros [types H] x Hx. unfold resolve in H.
    apply in_app_or in Hx.
    destruct (Include f) as [|i l] eqn:HI.
    + destruct Hx as [[]|Hx]. simpl in H.
      destruct (Exclude f) as [|e l'] eqn:HE; [destruct Hx|].
      cbn [List.length Nat.eqb negb] in H.
      destruct (range_Exclude p (e :: l')) eqn:HR; [discriminate|].
      eapply range_Exclude_None; eauto.
    + cbn [List.length Nat.eqb negb] in H.
      destruct (range_Include p (i :: l)) eqn:HR; [discriminate|].
      destruct Hx as [Hx|Hx]; [eapply range_Include_None; eauto|].
      destruct (Exclude f) as [|e l'] eqn:HE; [destruct Hx|].
      cbn [List.length Nat.eqb negb] in H.
      destruct (range_Exclude p (e :: l')) eqn:HR'; [discriminate|].
      eapply range_Exclude_None; eauto.
  - intros H.
    destruct (resolve p f) as [e|types] eqn:HR; [|now exists types].
    exfalso. unfold resolve in HR.
    assert (HIn : range_Include p (Include f) = None).
    { apply range_Include_supported. intros x Hx. apply H, in_or_app. now left. }
    assert (HEx : forall l, (forall x, In x l -> HasResourceType p x = true) ->
                            range_Exclude p l = None).
    { induction l as [|a l IH]; intros Hl; simpl; [reflexivity|].
      rewrite (Hl a (or_introl eq_refl)). simpl. apply IH.
      intros x Hx. apply Hl. now right. }
    specialize (HEx (Exclude f)).
    rewrite HIn, HEx in HR.
    + destruct (negb (List.length (Include f) =? 0)%nat),
               (negb (List.length (Exclude f) =? 0)%nat); discriminate.
    + intros x Hx. apply H, in_or_app. now right.
Qed.

End Validation.

(** ** Sequencing *)

Section Sequencing.

Context {W Res Wr Ctx : Type}.

Notation "'Ev'" := (Event Res Wr Ctx).
Notation "'Act'" := (M W Res Wr Ctx).

Lemma bind_Next {A B} (m : Act A) (k : A -> Act B) w a w1 tr1 :
  m w = (Next a, w1, tr1) ->
  bind m k w = (fst (fst (k a w1)), snd (fst (k a w1)), tr1 ++ snd (k a w1)).
Proof.
  intros H. unfold bind. rewrite H. now destruct (k a w1) as [[o w2] tr2].
Qed.

Lemma bind_Return {A B} (m : Act A) (k : A -> Act B) w e w1 tr1 :
  m w = (Return e, w1, tr1) -> bind m k w = (Return e, w1, tr1).
Proof. intros H. unfold bind. now rewrite H. Qed.

Lemma bind_inv {A B} (m : Act A) (k : A -> Act B) w o w' tr :
  bind m k w = (o, w', tr) ->
  (exists a w1 tr1 tr2,
      m w = (Next a, w1, tr1) /\ k a w1 = (o, w', tr2) /\ tr = tr1 ++ tr2) \/
  (exists e, m w = (Return e, w', tr) /\ o = Return e).
Proof.
  unfold bind. destruct (m w) as [[[a|e] w1] tr1].
  - destruct (k a w1) as [[o2 w2] tr2] eqn:Hk. intros H. inversion H; subst.
    left. exists a, w1, tr1, tr2. auto.
  - intros H. inversion H; subst. right. exists e. auto.
Qed.

Lemma bind_emit {B} (ev : Ev) (k : unit -> Act B) w :
  bind (emit ev) k w = (fst (fst (k tt w)), snd (fst (k tt w)), ev :: snd (k tt w)).
Proof. unfold bind, emit. now destruct (k tt w) as [[o w2] tr2]. Qed.

Lemma bind_emit_inv {B} (ev : Ev) (k : unit -> Act B) w o w' tr :
  bind (emit ev) k w = (o, w', tr) ->
  exists tr2, k tt w = (o, w', tr2) /\ tr = ev :: tr2.
Proof.
  rewrite bind_emit. destruct (k tt w) as [[o2 w2] tr2]. simpl.
  intros H. inversion H; subst. now exists tr2.
Qed.

Lemma bind_call_inv {A B} (op : W -> A * W) (evf : A -> Ev) (k : A -> Act B)
    w o w' tr :
  bind (call op evf) k w = (o, w', tr) ->
  exists tr2, k (fst (op w)) (snd (op w)) = (o, w', tr2) /\
              tr = evf (fst (op w)) :: tr2.
Proof.
  unfold bind, call. destruct (op w) as [a w1]. simpl.
  destruct (k a w1) as [[o2 w2] tr2].
  intros H. inversion H; subst. now exists tr2.
Qed.

Lemma emits_only_ret {A} (P : Ev -> Prop) (a : A) : emits_only P (ret (W:=W) a).
Proof. intros w. constructor. Qed.

Lemma emits_only_abort {A} (P : Ev -> Prop) e : emits_only P (abort (W:=W) (A:=A) e).
Proof. intros w. constructor. Qed.

Lemma emits_only_emit (P : Ev -> Prop) ev : P ev -> emits_only P (emit (W:=W) ev).
Proof. intros H w. simpl. auto. Qed.

Lemma emits_only_call {A} (P : Ev -> Prop) (op : W -> A * W) (ev : A -> Ev) :
  (forall a, P (ev a)) -> emits_only P (call op ev).
Proof. intros H w. unfold call. destruct (op w). simpl. auto. Qed.

Lemma emits_only_bind {A B} (P : Ev -> Prop) (m : Act A) (k : A -> Act B) :
  emits_only P m -> (forall a, emits_only P (k a)) -> emits_only P (bind m k).
Proof.
  intros Hm Hk w. unfold bind. specialize (Hm w).
  destruct (m w) as [[[a|e] w1] tr1]; simpl in *; [|assumption].
  specialize (Hk a w1). destruct (k a w1) as [[o w2] tr2]; simpl in *.
  apply Forall_app. auto.
Qed.

Lemma emits_only_impl {A} (P Q : Ev -> Prop) (c : Act A) :
  (forall ev, P ev -> Q ev) -> emits_only P c -> emits_only Q c.
Proof. intros H Hc w. eapply Forall_impl; [exact H|apply Hc]. Qed.

Lemma emits_only_run {A} (P : Ev -> Prop) (c : Act A) w o w' tr :
  emits_only P c -> c w = (o, w', tr) -> Forall P tr.
Proof. intros H E. specialize (H w). now rewrite E in H. Qed.

Lemma flat_map_nil {X Y} (g : X -> list Y) (l : list X) :
  Forall (fun x => g x = []) l -> flat_map g l = [].
Proof.
  induction 1 as [|x l Hx _ IH]; simpl; [reflexivity|]. now rewrite Hx, IH.
Qed.

Lemma filter_nil {X} (g : X -> bool) (l : list X) :
  Forall (fun x => g x = false) l -> filter g l = [].
Proof.
  induction 1 as [|x l Hx _ IH]; simpl; [reflexivity|]. now rewrite Hx.
Qed.

Lemma current_type_app (a b : list Ev) cur :
  current_type (a ++ b) cur = current_type b (current_type a cur).
Proof.
  revert cur. induction a as [|ev a IH]; intros cur; simpl; [reflexivity|].
  destruct ev; apply IH.
Qed.

Lemma current_type_no_fetch (tr : list Ev) cur :
  Forall (fun ev => fetch_type ev = []) tr -> current_type tr cur = cur.
Proof.
  induction 1 as [|ev tr Hev _ IH]; simpl; [reflexivity|].
  destruct ev; try apply IH. discriminate.
Qed.

Lemma clean_app (a b : list Ev) : clean a -> clean b -> clean (a ++ b).
Proof. intros Ha Hb. apply Forall_app. auto. Qed.

(** In a trace that is clean up to its last event, a failed call can only
    be that last event. *)
Lemma clean_last_unique (l : list Ev) ev' pre ev post :
  clean l -> l ++ [ev'] = pre ++ ev :: post -> is_failure ev = true ->
  post = [] /\ pre = l /\ ev = ev'.
Proof.
  revert pre. induction l as [|x l IH]; intros pre Hc E Hf.
  - destruct pre as [|y pre]; simpl in E.
    + inversion E; subst. auto.
    + inversion E; subst. destruct pre; discriminate.
  - inversion Hc as [|? ? Hx Hl]; subst.
    destruct pre as [|y pre]; simpl in E; inversion E; subst.
    + congruence.
    + destruct (IH pre Hl H1 Hf) as [-> [-> ->]]. auto.
Qed.

Lemma clean_no_failure (tr : list Ev) pre ev post :
  clean tr -> tr = pre ++ ev :: post -> is_failure ev = true -> False.
Proof.
  intros Hc -> Hf. apply Forall_app in Hc. destruct Hc as [_ Hc].
  inversion Hc; subst. congruence.
Qed.

End Sequencing.

(** ** The retry helper and one unit *)

Ltac inv_bind H :=
  let a := fresh "a" in
  let w1 := fresh "w" in
  let tr1 := fresh "tr" in
  let tr2 := fresh "tr" in
  let e := fresh "e" in
  let H1 := fresh "Hm" in
  let H2 := fresh "Hk" in
  let H3 := fresh "Htr" in
  apply bind_inv in H;
  destruct H as [[a [w1 [tr1 [tr2 [H1 [H2 H3]]]]]] | [e [H1 H3]]].

Section Units.

Context {W Res Wr Ctx : Type}.
Context {RT : Runtime} {RI : Resource W Res Wr} {WI : Writer W Wr}.

Local Open Scope import_scope.

Notation "'Ev'" := (Event Res Wr Ctx).
Notation "'Act'" := (M W Res Wr Ctx).

Variables hcl tfstate : option Wr.
Variable f : Filter.

Lemma call_Read_run (r : Res) w :
  call_Read (Ctx:=Ctx) r f w =
    (Next (fst (Read r f w)), snd (Read r f w), [EvRead r (fst (Read r f w))]).
Proof. unfold call_Read, call. now destruct (Read r f w). Qed.

(** What [Retry] leaves behind: it never returns from [Import] by itself;
    on success the last attempt is the only one that succeeded; on failure
    every attempt failed and the error is the cause of the last one. *)
Lemma Retry_spec (r : Res) (n : nat) :
  forall last w,
  exists err w' tr,
    Retry n (call_Read (Ctx:=Ctx) r f) last w = (Next err, w', tr) /\
    match err with
    | None =>
        (n = 0 /\ last = None /\ tr = [] /\ w' = w) \/
        (exists rds, tr = rds ++ [EvRead r None] /\
                     Forall (failed_read r) rds /\ List.length rds < n)
    | Some c =>
        Forall (failed_read r) tr /\ List.length tr = n /\
        ((tr = [] /\ exists e, last = Some e /\ c = Cause e) \/
         (exists rds e0, tr = rds ++ [EvRead r (Some e0)] /\ c = Cause e0))
    end.
Proof.
  induction n as [|n IH]; intros last w.
  - exists (option_map Cause last), w, []. split; [reflexivity|].
    destruct last as [e|]; simpl.
    + repeat split; auto. left. split; auto. now exists e.
    + left. auto.
  - cbn [Retry]. unfold bind at 1. rewrite call_Read_run.
    destruct (Read r f w) as [[e|] w1]; cbn [fst snd].
    + destruct (IH (Some e) w1) as [err [w' [tr [E S]]]].
      rewrite E. exists err, w', ([EvRead r (Some e)] ++ tr).
      split; [reflexivity|].
      destruct err as [c|].
      * destruct S as [HF [HL HS]]. split; [|split].
        -- constructor; [now exists e|assumption].
        -- simpl. now rewrite HL.
        -- right. destruct HS as [[-> [e' [He' ->]]] | [rds [e0 [-> ->]]]].
           ++ inversion He'; subst. exists [], e'. auto.
           ++ exists (EvRead r (Some e) :: rds), e0. auto.
      * right. destruct S as [[Hn [Hl _]] | [rds [-> [HF HL]]]]; [discriminate|].
        exists (EvRead r (Some e) :: rds). split; [reflexivity|]. split.
        -- constructor; [now exists e|assumption].
        -- simpl. lia.
    + exists None, w1, ([EvRead r None] ++ []). split; [reflexivity|].
      right. exists []. split; [reflexivity|]. split; [constructor|simpl; lia].
Qed.

(** [Retry] reports a failure exactly when every attempt failed (and, with
    no attempt left, when it was entered with a failure). *)
Lemma Retry_fails_iff (r : Res) (n : nat) :
  forall last w,
    (exists c, fst (fst (Retry n (call_Read (Ctx:=Ctx) r f) last w)) = Next (Some c)) <->
    (all_attempts_fail n (Read r f) w = true /\ (0 < n \/ last <> None)).
Proof.
  induction n as [|n IH]; intros last w.
  - simpl. destruct last as [e|]; simpl; split.
    + intros _. split; auto. right. discriminate.
    + intros _. eauto.
    + intros [c Hc]. discriminate.
    + intros [_ [H|H]]; [lia|congruence].
  - cbn [Retry all_attempts_fail]. unfold bind at 1. rewrite call_Read_run.
    destruct (Read r f w) as [[e|] w1]; cbn [fst snd].
    + specialize (IH (Some e) w1).
      destruct (Retry n (call_Read r f) (Some e) w1) as [[o w2] tr2] eqn:E.
      simpl in *. rewrite IH. split.
      * intros [H _]. split; [assumption|lia].
      * intros [H _]. split; [assumption|]. right. discriminate.
    + simpl. split; [intros [c Hc]; discriminate|intros [H _]; discriminate].
Qed.

Lemma Retry_emits (P : Ev -> Prop) (r : Res) (n : nat) last :
  (forall x, P (EvRead r x)) ->
  emits_only P (Retry n (call_Read (Ctx:=Ctx) r f) last).
Proof.
  intros HP. revert last. induction n as [|n IH]; intros last; simpl.
  - apply emits_only_ret.
  - apply emits_only_bind; [apply emits_only_call; assumption|].
    intros [e|]; [apply IH|apply emits_only_ret].
Qed.

End Units.

(** ** The loops *)

Ltac emits :=
  repeat match goal with
    | |- emits_only _ (ret _) => apply emits_only_ret
    | |- emits_only _ (abort _) => apply emits_only_abort
    | |- emits_only _ (bind _ _) => apply emits_only_bind
    | |- emits_only _ (emit _) => apply emits_only_emit
    | |- emits_only _ (Log _ _ _) => apply emits_only_emit
    | |- emits_only _ (Fprintf _) => apply emits_only_emit
    | |- emits_only _ (call _ _) => apply emits_only_call
    | |- emits_only _ (match ?x with _ => _ end) => destruct x eqn:?
    | |- emits_only _ (if ?x then _ else _) => destruct x eqn:?
    | |- forall _, _ => intro
    end.

Section Loops.

Context {W Res Wr Ctx : Type}.
Context {RT : Runtime} {RI : Resource W Res Wr} {WI : Writer W Wr}.

Local Open Scope import_scope.

Notation "'Ev'" := (Event Res Wr Ctx).
Notation "'Act'" := (M W Res Wr Ctx).

Variable ctx : Ctx.
Variable p : Provider W Res Ctx.
Variables hcl tfstate : option Wr.
Variable f : Filter.

(** *** Which events each part emits *)

Lemma import_unit_emits logger t r :
  emits_only (body_event hcl tfstate)
    (import_unit (Ctx:=Ctx) hcl tfstate f logger t r).
Proof.
  unfold import_unit, RetryDefault, unit_HCL, unit_State, call_HCL, call_State.
  apply emits_only_bind; [apply Retry_emits; constructor|].
  emits; constructor; simpl; tauto.
Qed.

Lemma range_units_emits logger t us :
  emits_only (body_event hcl tfstate)
    (range_units (Ctx:=Ctx) hcl tfstate f logger t us).
Proof.
  induction us as [|r us IH]; simpl; emits; auto using import_unit_emits.
Qed.

Lemma import_resource_emits logger t n i re :
  emits_only (body_event hcl tfstate)
    (import_resource (Ctx:=Ctx) hcl tfstate f logger t n i re).
Proof.
  unfold import_resource, call_ImportState.
  emits; try (constructor; simpl; tauto). apply range_units_emits.
Qed.

Lemma range_resources_emits logger t n rs :
  forall i,
  emits_only (body_event hcl tfstate)
    (range_resources (Ctx:=Ctx) hcl tfstate f logger t n i rs).
Proof.
  induction rs as [|r rs IH]; intros i; simpl; emits;
    auto using import_resource_emits.
Qed.

Lemma log_resource_With (l : Logger) (t : string) :
  log_resource (With l "resource" (VStr t)) = Some t.
Proof.
  unfold log_resource, logger_get, With. rewrite rev_app_distr. reflexivity.
Qed.

Lemma import_type_emits logger t :
  emits_only (loop_event ctx hcl tfstate f)
    (import_type ctx p hcl tfstate f logger t).
Proof.
  unfold import_type, call_Resources.
  destruct (IsExcluded f t) eqn:HX.
  - emits. eapply le_excluded; eauto using log_resource_With.
  - apply emits_only_bind;
      [apply emits_only_emit; eapply le_fetching; eauto using log_resource_With|].
    intros _. apply emits_only_bind;
      [apply emits_only_call; intros a; now apply le_fetch|].
    intros x. destruct (snd x); [apply emits_only_abort|].
    apply emits_only_bind;
      [eapply emits_only_impl; [apply le_body|apply range_resources_emits]|].
    emits; apply le_body; constructor; simpl; tauto.
Qed.

Lemma range_types_emits types :
  forall logger,
  emits_only (loop_event ctx hcl tfstate f)
    (range_types ctx p hcl tfstate f logger types).
Proof.
  induction types as [|t types IH]; intros logger; simpl; emits;
    auto using import_type_emits.
Qed.

(** *** The return discipline *)

Lemma disciplined_ret {A} t (a : A) : disciplined t (ret (W:=W) (Res:=Res) (Wr:=Wr) (Ctx:=Ctx) a).
Proof. intros w. constructor. Qed.

Lemma disciplined_emit t (ev : Ev) :
  is_failure ev = false -> disciplined t (emit (W:=W) ev).
Proof. intros H w. simpl. constructor; [assumption|constructor]. Qed.

Lemma disciplined_bind {A B} t (m : Act A) (k : A -> Act B) :
  disciplined t m -> (forall a, disciplined t (k a)) -> disciplined t (bind m k).
Proof.
  intros Hm Hk w. unfold bind. specialize (Hm w).
  destruct (m w) as [[[a|e] w1] tr1]; [|exact Hm].
  specialize (Hk a w1). destruct (k a w1) as [[[b|e] w2] tr2].
  - now apply clean_app.
  - destruct Hk as [pre [ev [-> [Hc Hf]]]].
    exists (tr1 ++ pre), ev. rewrite app_assoc.
    split; [reflexivity|]. split; [now apply clean_app|assumption].
Qed.

(** A collaborator call whose failure makes [Import] return. *)
Lemma disciplined_guard {A B} t (op : W -> A * W) (evf : A -> Ev)
    (err : A -> option error) (g : error -> error) (k : A -> Act B) :
  (forall a e, err a = Some e -> fatal_error t (evf a) = Some (g e)) ->
  (forall a, err a = None -> is_failure (evf a) = false) ->
  (forall a, disciplined t (k a)) ->
  disciplined t
    (bind (call op evf)
          (fun x => match err x with Some e => abort (g e) | None => k x end)).
Proof.
  intros Hf Hn Hk w. unfold bind, call. destruct (op w) as [a w1].
  destruct (err a) as [e|] eqn:E.
  - simpl. exists [], (evf a). split; [reflexivity|].
    split; [constructor|auto].
  - specialize (Hk a w1). destruct (k a w1) as [[[b|e] w2] tr2].
    + constructor; auto.
    + destruct Hk as [pre [ev [-> [Hc Hfe]]]].
      exists (evf a :: pre), ev. split; [reflexivity|]. split; [|assumption].
      constructor; auto.
Qed.

Lemma disciplined_Retry t r n last :
  disciplined t (Retry n (call_Read (Ctx:=Ctx) r f) last).
Proof.
  intros w. destruct (Retry_spec (Ctx:=Ctx) f r n last w) as [err [w' [tr [E _]]]].
  rewrite E. eapply emits_only_run; [|exact E].
  apply Retry_emits. reflexivity.
Qed.

Lemma disciplined_unit_HCL logger t r :
  disciplined t (unit_HCL (Ctx:=Ctx) hcl logger t r).
Proof.
  unfold unit_HCL. destruct hcl as [h|]; [|apply disciplined_ret].
  apply disciplined_bind; [now apply disciplined_emit|]. intros _.
  unfold call_HCL.
  apply (disciplined_guard t (HCL r h) (EvHCL r h) (fun x => x)
           (fun e => Wrapf e ("error while calculating the Config of resource "
                                ++ fmt_q t))
           (fun _ => ret tt)).
  - intros a e ->. reflexivity.
  - intros a ->. reflexivity.
  - intros a. apply disciplined_ret.
Qed.

Lemma disciplined_unit_State logger t r :
  disciplined t (unit_State (Ctx:=Ctx) tfstate logger t r).
Proof.
  unfold unit_State. destruct tfstate as [s|]; [|apply disciplined_ret].
  apply disciplined_bind; [now apply disciplined_emit|]. intros _.
  unfold call_State.
  apply (disciplined_guard t (State r s) (EvState r s) (fun x => x)
           (fun e => Wrapf e ("error while calculating the satate of resource "
                                ++ fmt_q t))
           (fun _ => ret tt)).
  - intros a e ->. reflexivity.
  - intros a ->. reflexivity.
  - intros a. apply disciplined_ret.
Qed.

Lemma disciplined_import_unit logger t r :
  disciplined t (import_unit (Ctx:=Ctx) hcl tfstate f logger t r).
Proof.
  unfold import_unit, RetryDefault.
  apply disciplined_bind; [apply disciplined_Retry|].
  intros [e|]; [now apply disciplined_emit|].
  apply disciplined_bind; [apply disciplined_unit_HCL|].
  intros _. apply disciplined_unit_State.
Qed.

Lemma disciplined_range_units logger t us :
  disciplined t (range_units (Ctx:=Ctx) hcl tfstate f logger t us).
Proof.
  induction us as [|r us IH]; simpl; [apply disciplined_ret|].
  apply disciplined_bind; [apply disciplined_import_unit|auto].
Qed.

Lemma disciplined_import_resource logger t n i re :
  disciplined t (import_resource (Ctx:=Ctx) hcl tfstate f logger t n i re).
Proof.
  unfold import_resource.
  apply disciplined_bind; [now apply disciplined_emit|]. intros _.
  apply disciplined_bind; [now apply disciplined_emit|]. intros _.
  unfold call_ImportState.
  apply (disciplined_guard t (ImportState re)
           (fun x => EvImportState re (snd x)) snd (fun e => e)).
  - intros a e Ha. simpl. now rewrite Ha.
  - intros a Ha. simpl. now rewrite Ha.
  - intros a. apply disciplined_range_units.
Qed.

Lemma disciplined_range_resources logger t n rs :
  forall i,
  disciplined t (range_resources (Ctx:=Ctx) hcl tfstate f logger t n i rs).
Proof.
  induction rs as [|r rs IH]; intros i; simpl; [apply disciplined_ret|].
  apply disciplined_bind; [apply disciplined_import_resource|auto].
Qed.

(** *** Events that do not count *)

Lemma body_event_opened (ev : Ev) :
  body_event hcl tfstate ev -> opened_type ev = [].
Proof.
  destruct 1 as [s|l m Hm|l e|r e|r e|r h e|r s e]; try reflexivity.
  simpl in Hm. decompose [or] Hm; subst; try reflexivity. contradiction.
Qed.

Lemma body_event_not_excluded t (ev : Ev) :
  body_event hcl tfstate ev -> is_excluded_event t ev = false.
Proof.
  destruct 1 as [s|l m Hm|l e|r e|r e|r h e|r s e]; try reflexivity.
  simpl in Hm. decompose [or] Hm; subst; try reflexivity. contradiction.
Qed.

Lemma body_event_no_fetch (ev : Ev) :
  body_event hcl tfstate ev -> fetch_type ev = [].
Proof. destruct 1; reflexivity. Qed.

Lemma loop_event_no_sync (ev : Ev) :
  loop_event ctx hcl tfstate f ev -> is_sync ev = false.
Proof. destruct 1 as [ev H| | |]; try reflexivity. destruct H; reflexivity. Qed.

(** *** One type *)

Lemma import_type_run logger t w o w' tr :
  import_type ctx p hcl tfstate f logger t w = (o, w', tr) ->
  if IsExcluded f t
  then o = Next (With logger "resource" (VStr t)) /\ w' = w /\
       tr = [EvLog (With logger "resource" (VStr t)) "msg" (VStr "excluded")]
  else exists x tl,
       tr = EvLog (With logger "resource" (VStr t)) "msg"
                  (VStr "fetching the list of resources")
              :: EvResources ctx t x :: tl /\
       Forall (body_event hcl tfstate) tl /\
       (forall a, o = Next a -> a = With logger "resource" (VStr t) /\ x = None).
Proof.
  unfold import_type. destruct (IsExcluded f t).
  - intros H. inversion H. auto.
  - intros H. apply bind_emit_inv in H. destruct H as [tl1 [H ->]].
    apply bind_call_inv in H. destruct H as [tl [H ->]].
    cbn [snd fst] in *.
    destruct (Resources p ctx t f w) as [[rs [e|]] w1]; cbn [snd fst] in *.
    + inversion H; subst. exists (Some e), []. split; [reflexivity|].
      split; [constructor|]. intros a Ha. discriminate.
    + exists None, tl. split; [reflexivity|]. split.
      * eapply emits_only_run; [|exact H].
        apply emits_only_bind; [apply range_resources_emits|].
        emits; constructor; simpl; tauto.
      * intros a ->. split; [|reflexivity].
        inv_bind H; [|discriminate].
        inv_bind Hk; [|discriminate].
        apply bind_emit_inv in Hk0. destruct Hk0 as [tl2 [Hk0 _]].
        now inversion Hk0.
Qed.

Lemma disciplined_import_type logger t :
  disciplined t (import_type ctx p hcl tfstate f logger t).
Proof.
  unfold import_type. destruct (IsExcluded f t).
  - apply disciplined_bind; [now apply disciplined_emit|].
    intros _. apply disciplined_ret.
  - apply disciplined_bind; [now apply disciplined_emit|]. intros _.
    unfold call_Resources.
    apply (disciplined_guard t (Resources p ctx t f)
             (fun x => EvResources ctx t (snd x)) snd WithStack).
    + intros a e Ha. simpl. now rewrite Ha.
    + intros a Ha. simpl. now rewrite Ha.
    + intros a.
      apply disciplined_bind; [apply disciplined_range_resources|]. intros _.
      apply disciplined_bind.
      * destruct (Nat.ltb 0 (List.length (fst a)));
          [now apply disciplined_emit|apply disciplined_ret].
      * intros _. apply disciplined_bind; [now apply disciplined_emit|].
        intros _. apply disciplined_ret.
Qed.

(** *** The loop over the types *)

Lemma excluded_events_app t (a b : list Ev) :
  excluded_events t (a ++ b) = excluded_events t a + excluded_events t b.
Proof. unfold excluded_events. now rewrite filter_app, length_app. Qed.

Lemma excluded_events_body t (tr : list Ev) :
  Forall (body_event hcl tfstate) tr -> excluded_events t tr = 0.
Proof.
  intros H. unfold excluded_events. rewrite filter_nil; [reflexivity|].
  eapply Forall_impl; [|exact H]. apply body_event_not_excluded.
Qed.

(** What one iteration adds to the counts. *)
Lemma import_type_counts logger t w o w' tr :
  import_type ctx p hcl tfstate f logger t w = (o, w', tr) ->
  processed_types tr = [t] /\
  fetched_types tr = (if IsExcluded f t then [] else [t]) /\
  forall t', excluded_events t' tr =
             if IsExcluded f t && String.eqb t t' then 1 else 0.
Proof.
  intros H. apply import_type_run in H. destruct (IsExcluded f t).
  - destruct H as [_ [_ ->]]. unfold processed_types, fetched_types, excluded_events.
    cbn [flat_map filter opened_type fetch_type is_excluded_event String.eqb
         Ascii.eqb Bool.eqb andb orb app].
    rewrite log_resource_With. repeat split.
    intros t'. simpl. now destruct (String.eqb t t').
  - destruct H as [x [tl [-> [HB _]]]].
    unfold processed_types, fetched_types.
    cbn [flat_map opened_type fetch_type String.eqb Ascii.eqb Bool.eqb andb orb app].
    rewrite log_resource_With.
    rewrite !flat_map_nil; [repeat split| |].
    + intros t'.
      change (EvLog (With logger "resource" (VStr t)) "msg"
                (VStr "fetching the list of resources") :: EvResources ctx t x :: tl)
        with ([EvLog (With logger "resource" (VStr t)) "msg"
                 (VStr "fetching the list of resources"); EvResources ctx t x] ++ tl).
      rewrite excluded_events_app, (excluded_events_body t' tl HB). reflexivity.
    + eapply Forall_impl; [|exact HB]. apply body_event_no_fetch.
    + eapply Forall_impl; [|exact HB]. apply body_event_opened.
Qed.

Lemma count_occ_cons_eqb (t t' : string) (l : list string) :
  count_occ string_dec (t :: l) t' =
  (if String.eqb t t' then 1 else 0) + count_occ string_dec l t'.
Proof.
  simpl. destruct (string_dec t t') as [E|E].
  - apply String.eqb_eq in E. now rewrite E.
  - apply String.eqb_neq in E. now rewrite E.
Qed.

(** How far the loop went: the types it opened are a prefix of the list it
    ranges over, all of it when the loop ends without returning; the fetch
    calls and the "excluded" entries are those of that prefix. *)
Lemma range_types_progress types :
  forall logger w o w' tr,
    range_types ctx p hcl tfstate f logger types w = (o, w', tr) ->
    exists done rest,
      types = done ++ rest /\
      processed_types tr = done /\
      fetched_types tr = filter (fun t => negb (IsExcluded f t)) done /\
      (forall t, excluded_events t tr =
                 count_occ string_dec (filter (IsExcluded f) done) t) /\
      (forall a, o = Next a -> rest = []).
Proof.
  induction types as [|t types IH]; intros logger w o w' tr H.
  - inversion H; subst. exists [], []. repeat split.
  - simpl in H. inv_bind H.
    + destruct (import_type_counts _ _ _ _ _ _ Hm) as [HP [HF HE]].
      destruct (IH _ _ _ _ _ Hk) as [done [rest [-> [HP2 [HF2 [HE2 HN]]]]]].
      exists (t :: done), rest. subst tr.
      split; [reflexivity|].
      unfold processed_types, fetched_types in *. rewrite !flat_map_app.
      rewrite HP, HF, HP2, HF2. split; [reflexivity|]. split; [|split].
      * simpl. now destruct (IsExcluded f t).
      * intros t'. rewrite excluded_events_app, HE, HE2. cbn [filter].
        destruct (IsExcluded f t); cbn [andb]; [|reflexivity].
        now rewrite count_occ_cons_eqb.
      * exact HN.
    + destruct (import_type_counts _ _ _ _ _ _ Hm) as [HP [HF HE]].
      exists [t], types. split; [reflexivity|]. split; [assumption|].
      split; [|split].
      * rewrite HF. simpl. now destruct (IsExcluded f t).
      * intros t'. rewrite HE. cbn [filter].
        destruct (IsExcluded f t); cbn [andb]; [|reflexivity].
        rewrite count_occ_cons_eqb. simpl. lia.
      * intros a Ha. subst o. discriminate.
Qed.

(** The return discipline of the loop: it returns right after its only
    failed call, with the error of that call for the type fetched last. *)
Lemma range_types_discipline types :
  forall logger w,
    match range_types ctx p hcl tfstate f logger types w with
    | (Next _, _, tr) => clean tr
    | (Return e, _, tr) =>
        exists pre ev t,
          tr = pre ++ [ev] /\ clean pre /\ fatal_error t ev = Some e /\
          forall cur, current_type tr cur = Some t
    end.
Proof.
  induction types as [|t types IH]; intros logger w; simpl.
  - constructor.
  - unfold bind.
    pose proof (disciplined_import_type logger t w) as HD.
    pose proof (import_type_run logger t w) as HR.
    destruct (import_type ctx p hcl tfstate f logger t w) as [[[a|e] w1] tr1].
    + specialize (IH a w1).
      destruct (range_types ctx p hcl tfstate f a types w1) as [[[b|e] w2] tr2].
      * now apply clean_app.
      * destruct IH as [pre [ev [t' [-> [Hc [Hf Hcur]]]]]].
        exists (tr1 ++ pre), ev, t'. rewrite app_assoc.
        split; [reflexivity|]. split; [now apply clean_app|].
        split; [assumption|].
        intros cur. rewrite <- app_assoc, current_type_app. apply Hcur.
    + destruct HD as [pre [ev [E [Hc Hf]]]].
      exists pre, ev, t. repeat split; auto.
      intros cur. specialize (HR _ _ _ eq_refl).
      destruct (IsExcluded f t); [destruct HR; discriminate|].
      destruct HR as [x [tl [E' [HB _]]]]. rewrite E'. simpl.
      apply current_type_no_fetch.
      eapply Forall_impl; [|exact HB]. apply body_event_no_fetch.
Qed.

(** *** The finalization and the whole run *)

(** Lines 115-139 case by case: which [Sync] calls are made and what is
    returned; nothing else of note happens there. *)
Lemma sync_phase logger w o w' (tr : list Ev) :
  (sync_hcl (Ctx:=Ctx) hcl logger ;; sync_tfstate tfstate logger) w = (o, w', tr) ->
  processed_types tr = [] /\ fetched_types tr = [] /\
  (forall t, excluded_events t tr = 0) /\
  filter is_serialization tr = [] /\ clean tr /\
  (forall r x, ~ In (EvImportState r x) tr) /\
  (forall e, o = Return e -> exists pre wr e', tr = pre ++ [EvSync wr (Some e')]) /\
  match hcl, tfstate with
  | None, None => syncs tr = [] /\ o = Next tt
  | Some h, None =>
      syncs tr = [EvSync h (fst (Sync h w))] /\
      o = match fst (Sync h w) with
          | Some e => Return (Wrapf e "error while Sync Config")
          | None => Next tt
          end
  | None, Some s =>
      syncs tr = [EvSync s (fst (Sync s w))] /\
      o = match fst (Sync s w) with
          | Some e => Return (Wrapf e "error while Sync State")
          | None => Next tt
          end
  | Some h, Some s =>
      match fst (Sync h w) with
      | Some e =>
          syncs tr = [EvSync h (Some e)] /\
          o = Return (Wrapf e "error while Sync Config")
      | None =>
          syncs tr = [EvSync h None; EvSync s (fst (Sync s (snd (Sync h w))))] /\
          o = match fst (Sync s (snd (Sync h w))) with
              | Some e => Return (Wrapf e "error while Sync State")
              | None => Next tt
              end
      end
  end.
Proof.
  unfold sync_hcl, sync_tfstate, bind, Log, Fprintf, emit, call_Sync, call, ret, abort.
  destruct hcl as [h|], tfstate as [s|].
  - destruct (Sync h w) as [[e|] w1]; cbn [fst snd].
    + intros H. inversion H; subst. repeat split; try (intros; discriminate).
      * repeat constructor.
      * intros r x [E|[E|[E|[]]]]; discriminate.
      * intros e0 _. eexists [_; _], h, e. reflexivity.
    + destruct (Sync s w1) as [[e|] w2]; cbn [fst snd];
        intros H; inversion H; subst; repeat split; try (intros; discriminate);
        try (repeat constructor).
      * intros r x HI. simpl in HI. decompose [or] HI; discriminate || contradiction.
      * intros e0 _. eexists [_; _; _; _; _; _; _], s, e. reflexivity.
      * intros r x HI. simpl in HI. decompose [or] HI; discriminate || contradiction.
  - destruct (Sync h w) as [[e|] w1]; cbn [fst snd];
      intros H; inversion H; subst; repeat split; try (intros; discriminate);
      try (repeat constructor).
    + intros r x HI. simpl in HI. decompose [or] HI; discriminate || contradiction.
    + intros e0 _. eexists [_; _], h, e. reflexivity.
    + intros r x HI. simpl in HI. decompose [or] HI; discriminate || contradiction.
  - destruct (Sync s w) as [[e|] w1]; cbn [fst snd];
      intros H; inversion H; subst; repeat split; try (intros; discriminate);
      try (repeat constructor).
    + intros r x HI. simpl in HI. decompose [or] HI; discriminate || contradiction.
    + intros e0 _. eexists [_; _], s, e. reflexivity.
    + intros r x HI. simpl in HI. decompose [or] HI; discriminate || contradiction.
  - intros H. inversion H; subst. repeat split; try (intros; discriminate).
    + constructor.
    + intros r x [].
Qed.

(** A run either stops at validation, having done nothing, or opens with
    the banner, ranges over the resolved types and, when that loop ends
    without returning, finalizes. *)
Lemma Import_inv w res w' (tr : list Ev) :
  Import ctx p hcl tfstate f w = (res, w', tr) ->
  (exists e, resolve p f = inl e /\ res = Some e /\ w' = w /\ tr = []) \/
  (exists types ol w1 tr1 tr2,
      resolve p f = inr types /\
      range_types ctx p hcl tfstate f start_logger types w = (ol, w1, tr1) /\
      tr = banner (Res:=Res) (Wr:=Wr) (Ctx:=Ctx) f ++ tr1 ++ tr2 /\
      match ol with
      | Return e => res = Some e /\ w' = w1 /\ tr2 = []
      | Next l =>
          exists o,
            (sync_hcl hcl l ;; sync_tfstate tfstate l) w1 = (o, w', tr2) /\
            res = result_of o
      end).
Proof.
  unfold Import. destruct (resolve p f) as [e|types].
  - intros H. inversion H; subst. left. now exists e.
  - intros H. right.
    destruct (import_body ctx p hcl tfstate f types w) as [[o w2] tr0] eqn:E.
    assert (Hres : res = result_of o /\ w' = w2 /\ tr = tr0).
    { destruct o; inversion H; subst; auto. }
    destruct Hres as [-> [-> ->]]. clear H.
    unfold import_body in E.
    apply bind_emit_inv in E. destruct E as [t1 [E ->]].
    apply bind_emit_inv in E. destruct E as [t2 [E ->]].
    inv_bind E.
    + exists types, (Next a), w0, tr, tr0. subst t2. repeat split; auto.
      exists o. auto.
    + exists types, (Return e), w2, t2, []. subst o.
      rewrite app_nil_r. repeat split; auto.
Qed.

Lemma count_occ_filter_true (g : string -> bool) (l : list string) t :
  g t = true ->
  count_occ string_dec (filter g l) t = count_occ string_dec l t.
Proof.
  intros Hg. induction l as [|a l IH]; simpl; [reflexivity|].
  destruct (string_dec a t) as [->|Hne].
  - rewrite Hg. simpl. destruct (string_dec t t); congruence.
  - destruct (g a); simpl; [|assumption].
    destruct (string_dec a t); congruence.
Qed.

Lemma banner_counts :
  processed_types (banner (Res:=Res) (Wr:=Wr) (Ctx:=Ctx) f) = [] /\
  fetched_types (banner (Res:=Res) (Wr:=Wr) (Ctx:=Ctx) f) = [] /\
  (forall t, excluded_events t (banner (Res:=Res) (Wr:=Wr) (Ctx:=Ctx) f) = 0) /\
  clean (banner (Res:=Res) (Wr:=Wr) (Ctx:=Ctx) f).
Proof. repeat split. repeat constructor. Qed.

(** How far a run went through the universe. *)
Lemma Import_progress w res w' (tr : list Ev) :
  Import ctx p hcl tfstate f w = (res, w', tr) ->
  exists done rest,
    universe p f = done ++ rest /\
    processed_types tr = done /\
    fetched_types tr = filter (fun t => negb (IsExcluded f t)) done /\
    (forall t, excluded_events t tr =
               count_occ string_dec (filter (IsExcluded f) done) t) /\
    (res = None -> rest = []).
Proof.
  intros H. apply Import_inv in H.
  destruct H as [[e [HR [-> [-> ->]]]] | [types [ol [w1 [tr1 [tr2 [HR [HL [-> HS]]]]]]]]].
  - exists [], (universe p f). repeat split. discriminate.
  - apply resolve_inr in HR. subst types.
    destruct (range_types_progress _ _ _ _ _ _ HL)
      as [done [rest [HU [HP [HF [HE HN]]]]]].
    destruct banner_counts as [BP [BF [BE _]]].
    exists done, rest. split; [assumption|].
    assert (HT : processed_types tr2 = [] /\ fetched_types tr2 = [] /\
                 (forall t, excluded_events t tr2 = 0) /\
                 (res = None -> rest = [])).
    { destruct ol as [l|e].
      - destruct HS as [o [HS ->]]. apply sync_phase in HS.
        destruct HS as [S1 [S2 [S3 _]]]. repeat split; auto.
        intros _. now apply (HN l).
      - destruct HS as [-> [_ ->]]. repeat split. discriminate. }
    destruct HT as [TP [TF [TE TN]]].
    unfold processed_types, fetched_types in *.
    rewrite !flat_map_app, BP, BF, HP, HF, TP, TF, !app_nil_r.
    repeat split; auto.
    intros t. rewrite !excluded_events_app, BE, HE, TE. lia.
Qed.

(** *** Units that go through *)

Lemma Cause_idem (e : error) : Cause (Cause e) = Cause e.
Proof. induction e; simpl; auto. Qed.

(** A unit whose serialization does not return went to every configured
    sink, configuration first. *)
Lemma serialization_run logger t r w w' (tr : list Ev) :
  (unit_HCL hcl logger t r ;; unit_State tfstate logger t r) w = (Next tt, w', tr) ->
  tr = serialization hcl tfstate logger r.
Proof.
  unfold unit_HCL, unit_State, serialization, bind, Log, emit, call_HCL,
    call_State, call, ret, abort.
  destruct hcl as [h|], tfstate as [s|].
  - destruct (HCL r h w) as [[e|] w1]; [discriminate|].
    destruct (State r s w1) as [[e|] w2]; [discriminate|].
    intros H. now inversion H.
  - destruct (HCL r h w) as [[e|] w1]; [discriminate|].
    intros H. now inversion H.
  - destruct (State r s w) as [[e|] w1]; [discriminate|].
    intros H. now inversion H.
  - intros H. now inversion H.
Qed.

Lemma import_unit_block logger t r w w' (tr : list Ev) :
  0 < RetryTimes ->
  import_unit hcl tfstate f logger t r w = (Next tt, w', tr) ->
  unit_block hcl tfstate logger r tr.
Proof.
  intros Hpos H. unfold import_unit, RetryDefault in H.
  destruct (Retry_spec (Ctx:=Ctx) f r RetryTimes None w) as [err [w1 [tr1 [E S]]]].
  unfold bind at 1 in H. rewrite E in H.
  destruct err as [c|].
  - unfold Log, emit in H. inversion H; subst.
    destruct S as [HF [HL _]]. now apply ub_skipped.
  - destruct S as [[Hn _]|[rds [-> [HF HL]]]]; [lia|].
    match type of H with
    | context [?c w1] => destruct (c w1) as [[o2 w2] tr2] eqn:E2
    end.
    inversion H; subst.
    apply serialization_run in E2. subst tr2.
    rewrite <- app_assoc. simpl. now apply ub_done.
Qed.

Lemma range_units_blocks logger t us :
  0 < RetryTimes ->
  forall w w' (tr : list Ev),
    range_units hcl tfstate f logger t us w = (Next tt, w', tr) ->
    exists blocks,
      tr = List.concat blocks /\ Forall2 (unit_block hcl tfstate logger) us blocks.
Proof.
  intros Hpos. induction us as [|r us IH]; intros w w' tr H.
  - inversion H; subst. exists []. split; [reflexivity|constructor].
  - simpl in H. inv_bind H; [|discriminate].
    destruct a. apply import_unit_block in Hm; [|assumption].
    destruct (IH _ _ _ Hk) as [blocks [-> HB]].
    exists (tr0 :: blocks). subst tr. split; [reflexivity|]. now constructor.
Qed.

(** A unit that cannot be read: every attempt is made, the cause of the
    last failure is logged, nothing is serialized and the loop goes on. *)
Lemma import_unit_skips logger t r w :
  0 < RetryTimes ->
  all_attempts_fail RetryTimes (Read r f) w = true ->
  exists rds e0 w1,
    Forall (failed_read (Wr:=Wr) (Ctx:=Ctx) r) rds /\
    S (List.length rds) = RetryTimes /\
    import_unit hcl tfstate f logger t r w =
      (Next tt, w1,
       rds ++ [EvRead r (Some e0); EvLog logger "error" (VErr (Cause e0))]).
Proof.
  intros Hpos HA.
  destruct (Retry_spec (Ctx:=Ctx) f r RetryTimes None w) as [err [w1 [tr1 [E S]]]].
  assert (HS : exists c, err = Some c).
  { destruct (proj2 (Retry_fails_iff (Ctx:=Ctx) f r RetryTimes None w)) as [c Hc];
      [split; auto|].
    rewrite E in Hc. simpl in Hc. inversion Hc. now exists c. }
  destruct HS as [c ->].
  destruct S as [HF [HL [[-> _]|[rds [e0 [-> ->]]]]]]; [simpl in HL; lia|].
  exists rds, e0, w1. apply Forall_app in HF. destruct HF as [HF _].
  split; [assumption|]. split.
  - rewrite length_app in HL. simpl in HL. lia.
  - unfold import_unit, RetryDefault. unfold bind at 1. rewrite E.
    unfold Log, emit. rewrite Cause_idem, <- app_assoc. reflexivity.
Qed.

(** *** Where a run stops *)

(** A failed fetch, expansion or serialization is the last thing a run
    does, and the run returns the error of that call. *)
Lemma Import_failure_last w res w' (tr : list Ev) pre ev post :
  Import ctx p hcl tfstate f w = (res, w', tr) ->
  tr = pre ++ ev :: post -> is_failure ev = true ->
  post = [] /\ syncs tr = [] /\
  exists t, current_type (pre ++ [ev]) None = Some t /\ res = fatal_error t ev.
Proof.
  intros H Htr Hf. apply Import_inv in H.
  destruct H as [[e [HR [-> [-> ->]]]] | [types [ol [w1 [tr1 [tr2 [HR [HL [E HS]]]]]]]]].
  - destruct pre; discriminate.
  - destruct banner_counts as [_ [_ [_ BC]]].
    pose proof (range_types_discipline types start_logger w) as HD.
    rewrite HL in HD. destruct ol as [l|e].
    + destruct HS as [o [HS _]]. apply sync_phase in HS.
      destruct HS as [_ [_ [_ [_ [SC _]]]]].
      exfalso. eapply (clean_no_failure tr); [|exact Htr|exact Hf].
      rewrite E. apply clean_app; [assumption|]. now apply clean_app.
    + destruct HS as [-> [_ ->]].
      destruct HD as [pre1 [ev1 [t [-> [Hc [Hfe Hcur]]]]]].
      rewrite app_nil_r, app_assoc in E. rewrite E in Htr.
      destruct (clean_last_unique _ _ _ _ _ (clean_app _ _ BC Hc) Htr Hf)
        as [-> [-> ->]].
      split; [reflexivity|]. split.
      * rewrite E. unfold syncs. rewrite <- app_assoc, filter_app. simpl.
        apply filter_nil.
        pose proof (range_types_emits types start_logger w) as HE.
        rewrite HL in HE. simpl in HE.
        eapply Forall_impl; [|exact HE]. apply loop_event_no_sync.
      * exists t. split; [|now rewrite Hfe].
        rewrite <- app_assoc, current_type_app. apply Hcur.
Qed.

(** The error a run returns is a validation error, found before anything
    was done, or was caused by the last call of the run, which is then a
    fetch, an expansion, a serialization or a [Sync], never a [Read]. *)
Lemma Import_error_origin w e w' (tr : list Ev) :
  Import ctx p hcl tfstate f w = (Some e, w', tr) ->
  (tr = [] /\ resolve p f = inl e) \/
  (exists pre ev,
      tr = pre ++ [ev] /\
      (is_failure ev = true \/ exists wr e', ev = EvSync wr (Some e'))).
Proof.
  intros H. apply Import_inv in H.
  destruct H as [[e1 [HR [He [_ ->]]]] | [types [ol [w1 [tr1 [tr2 [HR [HL [E HS]]]]]]]]].
  - left. inversion He; subst. auto.
  - right. pose proof (range_types_discipline types start_logger w) as HD.
    rewrite HL in HD. destruct ol as [l|e1].
    + destruct HS as [o [HS Ho]]. destruct o as [[]|e1]; [discriminate|].
      apply sync_phase in HS. destruct HS as [_ [_ [_ [_ [_ [_ [HS _]]]]]]].
      destruct (HS e1 eq_refl) as [pre [wr [e' ->]]].
      exists (banner f ++ tr1 ++ pre), (EvSync wr (Some e')).
      split; [now rewrite E, <- !app_assoc|]. right. eauto.
    + destruct HS as [_ [_ ->]].
      destruct HD as [pre1 [ev1 [t [-> [Hc [Hfe _]]]]]].
      exists (banner f ++ pre1), ev1.
      split; [now rewrite E, app_nil_r, <- app_assoc|]. left.
      destruct ev1 as [| | ? ? [?|] | ? [?|] | | ? ? [?|] | ? ? [?|] |];
        simpl in Hfe; try discriminate; reflexivity.
Qed.

(** *** Every expanded resource is read *)

Lemma reads_follow_app (a b : list Ev) :
  reads_follow a -> reads_follow b -> reads_follow (a ++ b).
Proof.
  intros Ha Hb r Hr. apply in_app_or in Hr. destruct Hr as [Hr|Hr].
  - destruct (Ha r Hr) as [x Hx]. exists x. apply in_or_app. now left.
  - destruct (Hb r Hr) as [x Hx]. exists x. apply in_or_app. now right.
Qed.

Lemma reads_follow_quiet (tr : list Ev) :
  Forall (fun ev => is_expanded ev = false) tr -> reads_follow tr.
Proof.
  intros H r Hr. rewrite Forall_forall in H. specialize (H _ Hr). discriminate.
Qed.

Lemma reads_follow_bind {A B} (m : M W Res Wr Ctx A) (k : A -> M W Res Wr Ctx B) :
  (forall w, reads_follow (snd (m w))) ->
  (forall a w, reads_follow (snd (k a w))) ->
  forall w, reads_follow (snd (bind m k w)).
Proof.
  intros Hm Hk w. unfold bind. specialize (Hm w).
  destruct (m w) as [[[a|e] w1] tr1]; [|exact Hm].
  specialize (Hk a w1). destruct (k a w1) as [[o w2] tr2].
  now apply reads_follow_app.
Qed.

Lemma reads_follow_emits {A} (c : M W Res Wr Ctx A) :
  emits_only (fun ev => is_expanded ev = false) c ->
  forall w, reads_follow (snd (c w)).
Proof. intros H w. apply reads_follow_quiet, H. Qed.

Lemma range_units_not_expanded logger t us :
  emits_only (fun ev : Ev => is_expanded ev = false)
    (range_units hcl tfstate f logger t us).
Proof.
  induction us as [|r us IH]; simpl; [apply emits_only_ret|].
  apply emits_only_bind; [|intros _; exact IH].
  unfold import_unit, RetryDefault, unit_HCL, unit_State, call_HCL, call_State.
  apply emits_only_bind; [apply Retry_emits; reflexivity|].
  emits; reflexivity.
Qed.

Lemma bind_head {A B} (m : M W Res Wr Ctx A) (k : A -> M W Res Wr Ctx B) w ev tl :
  snd (m w) = ev :: tl -> exists tl', snd (bind m k w) = ev :: tl'.
Proof.
  unfold bind. destruct (m w) as [[[a|e] w1] tr1]; simpl; intros ->.
  - destruct (k a w1) as [[o w2] tr2]. simpl. eauto.
  - simpl. eauto.
Qed.

Lemma range_units_first_read logger t r us w :
  0 < RetryTimes ->
  exists x tl,
    snd (range_units (Ctx:=Ctx) hcl tfstate f logger t (r :: us) w)
      = EvRead r x :: tl.
Proof.
  intros Hpos. simpl. unfold import_unit, RetryDefault.
  destruct RetryTimes as [|n]; [lia|]. cbn [Retry].
  exists (fst (Read r f w)).
  assert (H1 : exists tl, snd (call_Read (Ctx:=Ctx) r f w)
                           = EvRead r (fst (Read r f w)) :: tl).
  { rewrite call_Read_run. simpl. eauto. }
  destruct H1 as [tl1 H1].
  eapply bind_head in H1. destruct H1 as [tl2 H2].
  eapply bind_head in H2. destruct H2 as [tl3 H3].
  eapply bind_head in H3. exact H3.
Qed.

Lemma import_resource_reads logger t n i re :
  0 < RetryTimes ->
  forall w,
    reads_follow (snd (import_resource (Ctx:=Ctx) hcl tfstate f logger t n i re w)).
Proof.
  intros Hpos w. unfold import_resource, Fprintf, Log.
  rewrite bind_emit. cbn [snd]. rewrite bind_emit. cbn [snd].
  unfold bind at 1. unfold call_ImportState, call.
  destruct (ImportState re w) as [[res [e|]] w1]; cbn [snd fst].
  - intros r Hr. simpl in Hr. decompose [or] Hr; discriminate || contradiction.
  - match goal with
    | |- context [range_units ?a ?b ?c ?l ?d ?us w1] =>
        pose proof (range_units_first_read l d re res w1 Hpos) as HF;
        pose proof (range_units_not_expanded l d (re :: res) w1) as HQ;
        destruct (range_units a b c l d us w1) as [[o w2] tr2]
    end.
    cbn [snd] in *. destruct HF as [x [tl ->]].
    intros r Hr. simpl in Hr.
    destruct Hr as [Hr|[Hr|[Hr|Hr]]]; try discriminate.
    + inversion Hr; subst. exists x. simpl. auto.
    + rewrite Forall_forall in HQ. specialize (HQ _ Hr). discriminate.
Qed.

Lemma range_resources_reads logger t n rs :
  0 < RetryTimes ->
  forall i w,
    reads_follow (snd (range_resources (Ctx:=Ctx) hcl tfstate f logger t n i rs w)).
Proof.
  intros Hpos. induction rs as [|r rs IH]; intros i w; simpl.
  - intros r [].
  - apply reads_follow_bind; [now apply import_resource_reads|].
    intros _. apply IH.
Qed.

Lemma import_type_reads logger t :
  0 < RetryTimes ->
  forall w, reads_follow (snd (import_type ctx p hcl tfstate f logger t w)).
Proof.
  intros Hpos. unfold import_type, call_Resources.
  destruct (IsExcluded f t).
  - apply reads_follow_emits. emits. reflexivity.
  - apply reads_follow_bind; [apply reads_follow_emits; emits; reflexivity|].
    intros _. apply reads_follow_bind;
      [apply reads_follow_emits; emits; reflexivity|].
    intros x. destruct (snd x); [apply reads_follow_emits; emits|].
    apply reads_follow_bind; [now apply range_resources_reads|].
    intros _. apply reads_follow_emits. emits; reflexivity.
Qed.

Lemma range_types_reads types :
  0 < RetryTimes ->
  forall logger w,
    reads_follow (snd (range_types ctx p hcl tfstate f logger types w)).
Proof.
  intros Hpos. induction types as [|t types IH]; intros logger w; simpl.
  - intros r [].
  - apply reads_follow_bind; [now apply import_type_reads|].
    intros l. apply IH.
Qed.

Lemma Import_reads w :
  0 < RetryTimes ->
  reads_follow (snd (Import ctx p hcl tfstate f w)).
Proof.
  intros Hpos.
  destruct (Import ctx p hcl tfstate f w) as [[res w'] tr] eqn:E.
  apply Import_inv in E. simpl.
  destruct E as [[e [HR [-> [-> ->]]]] | [types [ol [w1 [tr1 [tr2 [HR [HL [-> HS]]]]]]]]].
  - intros r [].
  - apply reads_follow_app;
      [apply reads_follow_quiet; repeat constructor|].
    apply reads_follow_app.
    + pose proof (range_types_reads types Hpos start_logger w) as H.
      now rewrite HL in H.
    + destruct ol as [l|e].
      * destruct HS as [o [HS _]]. apply sync_phase in HS.
        destruct HS as [_ [_ [_ [_ [_ [HI _]]]]]].
        intros r Hr. elim (HI _ _ Hr).
      * destruct HS as [_ [_ ->]]. intros r [].
Qed.

Lemma loop_event_not_serialization (ev : Ev) :
  hcl = None -> tfstate = None ->
  loop_event ctx hcl tfstate f ev -> is_serialization ev = false.
Proof.
  intros Hh Hs [ev' H| | |]; try reflexivity.
  destruct H; try reflexivity; congruence.
Qed.


(** *** The context reaches the provider only *)





End Loops.

(** ** The properties of the import pipeline *)

Section Claims.

Context {W Res Wr Ctx : Type}.
Context {RT : Runtime} {RI : Resource W Res Wr} {WI : Writer W Wr}.

Local Open Scope import_scope.

Notation "'Ev'" := (Event Res Wr Ctx).

(** C1. When the filter holds an entry the provider does not support, in
    [Include] or in [Exclude], [Import] returns
    [ErrProviderResourceNotSupported] wrapped with a message that names the
    offending identifier and the list it was found in; the run did nothing
    before: no fetch, no other event, and the world is as it was. Both
    lists are validated before anything else happens. *)
Theorem C1_unsupported_entry_is_rejected_before_any_fetch
    (ctx : Ctx) (p : Provider W Res Ctx) (hcl tfstate : option Wr)
    (f : Filter) (w : W) :
  (exists x, In x (Include f ++ Exclude f) /\ HasResourceType p x = false) ->
  fetched_types (snd (Import ctx p hcl tfstate f w)) = [] /\
  exists x,
    HasResourceType p x = false /\
    ((In x (Include f) /\
      Import ctx p hcl tfstate f w =
        (Some (Wrapf ErrProviderResourceNotSupported
                 ("type " ++ x ++ " on Include filter")), w, [])) \/
     (In x (Exclude f) /\
      Import ctx p hcl tfstate f w =
        (Some (Wrapf ErrProviderResourceNotSupported
                 ("type " ++ x ++ " on Exclude filter")), w, []))).
Proof.
  intros [x [Hin Hx]].
  assert (HG : exists y,
    HasResourceType p y = false /\
    ((In y (Include f) /\
      Import ctx p hcl tfstate f w =
        (Some (Wrapf ErrProviderResourceNotSupported
                 ("type " ++ y ++ " on Include filter")), w, [])) \/
     (In y (Exclude f) /\
      Import ctx p hcl tfstate f w =
        (Some (Wrapf ErrProviderResourceNotSupported
                 ("type " ++ y ++ " on Exclude filter")), w, [])))).
  { destruct (existsb (fun y => negb (HasResourceType p y)) (Include f)) eqn:HE.
    - apply existsb_exists in HE. destruct HE as [y [Hy1 Hy2]].
      apply negb_true_iff in Hy2.
      destruct (range_Include_unsupported p (Include f)) as [z [Hz1 [Hz2 Hz3]]];
        [now exists y|].
      exists z. split; [assumption|]. left. split; [assumption|].
      unfold Import, resolve. rewrite Hz3.
      destruct (Include f); [destruct Hz1|reflexivity].
    - assert (HI : forall y, In y (Include f) -> HasResourceType p y = true).
      { intros y Hy. destruct (HasResourceType p y) eqn:E; [reflexivity|].
        assert (existsb (fun y => negb (HasResourceType p y)) (Include f) = true)
          by (apply existsb_exists; exists y; rewrite E; auto).
        congruence. }
      apply in_app_or in Hin. destruct Hin as [Hin|Hin];
        [rewrite (HI x Hin) in Hx; discriminate|].
      destruct (range_Exclude_unsupported p (Exclude f)) as [z [Hz1 [Hz2 Hz3]]];
        [now exists x|].
      exists z. split; [assumption|]. right. split; [assumption|].
      unfold Import, resolve.
      rewrite (range_Include_supported p (Include f) HI), Hz3.
      destruct (Exclude f); [destruct Hz1|].
      now destruct (negb (List.length (Include f) =? 0)%nat). }
  split; [|exact HG].
  destruct HG as [y [_ [[_ E]|[_ E]]]]; now rewrite E.
Qed.


(** C4. A unit whose [Read] fails at every attempt of the retry helper is
    attempted [RetryTimes] times; the cause of the last failure is logged;
    the unit goes to neither sink; the unit loop goes on with the next
    unit from the world the attempts left, and what it then returns is
    what the remaining units make it return. Whenever [Import] returns an
    error, that error was found at validation or was caused by the last
    call of the run, a fetch, an expansion, a serialization or a [Sync]:
    never a [Read]. *)
Theorem C4_unreadable_unit_is_logged_and_skipped
    (ctx : Ctx) (p : Provider W Res Ctx) (hcl tfstate : option Wr)
    (f : Filter) (logger : Logger) (t : string) (r : Res) (w : W) :
  0 < RetryTimes ->
  all_attempts_fail RetryTimes (Read r f) w = true ->
  (exists (rds : list Ev) e0 w1,
      Forall (failed_read r) rds /\
      S (List.length rds) = RetryTimes /\
      import_unit (Ctx:=Ctx) hcl tfstate f logger t r w =
        (Next tt, w1,
         rds ++ [EvRead r (Some e0); EvLog logger "error" (VErr (Cause e0))]) /\
      filter is_serialization
        (rds ++ [EvRead r (Some e0); EvLog logger "error" (VErr (Cause e0))]) = [] /\
      forall us,
        range_units (Ctx:=Ctx) hcl tfstate f logger t (r :: us) w =
          (fst (fst (range_units (Ctx:=Ctx) hcl tfstate f logger t us w1)),
           snd (fst (range_units (Ctx:=Ctx) hcl tfstate f logger t us w1)),
           (rds ++ [EvRead r (Some e0); EvLog logger "error" (VErr (Cause e0))])
             ++ snd (range_units (Ctx:=Ctx) hcl tfstate f logger t us w1))) /\
  (forall w0 e w' (tr : list Ev),
      Import ctx p hcl tfstate f w0 = (Some e, w', tr) ->
      (tr = [] /\ resolve p f = inl e) \/
      (exists pre ev,
          tr = pre ++ [ev] /\
          (is_failure ev = true \/ exists wr e', ev = EvSync wr (Some e')))).
Proof.
  intros Hpos HA. split.
  - destruct (import_unit_skips (Ctx:=Ctx) hcl tfstate f logger t r w Hpos HA)
      as [rds [e0 [w1 [HF [HL HU]]]]].
    exists rds, e0, w1. repeat split; try assumption.
    + rewrite filter_app. simpl. rewrite app_nil_r. apply filter_nil.
      eapply Forall_impl; [|exact HF]. intros ev [e ->]. reflexivity.
    + intros us. cbn [range_units].
      exact (bind_Next _ (fun _ => range_units hcl tfstate f logger t us)
               _ _ _ _ HU).
  - intros w0 e w' tr. apply Import_error_origin.
Qed.

(** C5. A failed serialization, into the configuration sink or into the
    state sink, is the last thing a run does: no event follows it, so no
    further unit, resource or type is processed and no sink is synced.
    [Import] returns the error of that call wrapped with a message that
    quotes the resource type being imported. *)
Theorem C5_serialization_failure_aborts_the_run
    (ctx : Ctx) (p : Provider W Res Ctx) (hcl tfstate : option Wr)
    (f : Filter) (w : W) res w' (tr pre post : list Ev) ev r wr e :
  Import ctx p hcl tfstate f w = (res, w', tr) ->
  tr = pre ++ ev :: post ->
  ev = EvHCL r wr (Some e) \/ ev = EvState r wr (Some e) ->
  post = [] /\ syncs tr = [] /\
  exists t,
    current_type pre None = Some t /\
    (ev = EvHCL r wr (Some e) ->
     res = Some (Wrapf e ("error while calculating the Config of resource "
                            ++ fmt_q t))) /\
    (ev = EvState r wr (Some e) ->
     res = Some (Wrapf e ("error while calculating the satate of resource "
                            ++ fmt_q t))).
Proof.
  intros H Htr Hev.
  assert (Hf : is_failure ev = true) by (destruct Hev; subst; reflexivity).
  destruct (Import_failure_last _ _ _ _ _ _ _ _ _ _ _ _ H Htr Hf)
    as [-> [HS [t [Hcur ->]]]].
  split; [reflexivity|]. split; [assumption|]. exists t.
  rewrite current_type_app in Hcur.
  destruct Hev; subst; simpl in Hcur; (split; [assumption|]);
    split; intros E; inversion E; subst; reflexivity.
Qed.

(** C7, as the code has it. In a run whose type loop ends without
    returning, every type of the universe was opened and no [Sync] was
    called before the loop was over. The [Sync] calls of the run are then,
    in this order and each at most once: the one of the configuration sink,
    made whenever that sink is configured, and the one of the state sink,
    made whenever that sink is configured unless the [Sync] of the
    configuration sink failed. A failed [Sync] makes [Import] return at
    once with the error wrapped as "error while Sync Config" or "error
    while Sync State"; when no [Sync] fails the run returns nil. *)
Theorem C7_sinks_are_synced_once_after_the_loop
    (ctx : Ctx) (p : Provider W Res Ctx) (hcl tfstate : option Wr)
    (f : Filter) (w w1 : W) (types : list string) (l : Logger) (tr1 : list Ev) :
  resolve p f = inr types ->
  range_types ctx p hcl tfstate f start_logger types w = (Next l, w1, tr1) ->
  let res := fst (fst (Import ctx p hcl tfstate f w)) in
  let tr := snd (Import ctx p hcl tfstate f w) in
  processed_types (banner f ++ tr1) = types /\
  syncs (banner f ++ tr1) = [] /\
  (exists tr2, tr = banner f ++ tr1 ++ tr2 /\ syncs tr = syncs tr2) /\
  match hcl, tfstate with
  | None, None => syncs tr = [] /\ res = None
  | Some h, None =>
      syncs tr = [EvSync h (fst (Sync h w1))] /\
      res = option_map (fun e => Wrapf e "error while Sync Config")
              (fst (Sync h w1))
  | None, Some s =>
      syncs tr = [EvSync s (fst (Sync s w1))] /\
      res = option_map (fun e => Wrapf e "error while Sync State")
              (fst (Sync s w1))
  | Some h, Some s =>
      match fst (Sync h w1) with
      | Some e =>
          syncs tr = [EvSync h (Some e)] /\
          res = Some (Wrapf e "error while Sync Config")
      | None =>
          syncs tr = [EvSync h None; EvSync s (fst (Sync s (snd (Sync h w1))))] /\
          res = option_map (fun e => Wrapf e "error while Sync State")
                  (fst (Sync s (snd (Sync h w1))))
      end
  end.
Proof.
  intros HR HL res tr. subst res tr.
  destruct (Import ctx p hcl tfstate f w) as [[res w'] tr] eqn:E.
  apply Import_inv in E. cbn [fst snd].
  destruct E as [[e [HR' _]] | [types' [ol [w2 [tr1' [tr2 [HR' [HL' [-> HS]]]]]]]]];
    [congruence|].
  rewrite HR in HR'. inversion HR'; subst types'. clear HR'.
  rewrite HL in HL'. inversion HL'; subst ol w2 tr1'. clear HL'.
  destruct HS as [o [HS ->]].
  destruct (range_types_progress _ _ _ _ _ _ _ _ _ _ _ HL)
    as [done [rest [HU [HP [_ [_ HN]]]]]].
  assert (HQ : syncs (banner f ++ tr1) = []).
  { unfold syncs. rewrite filter_app. simpl. apply filter_nil.
    pose proof (range_types_emits ctx p hcl tfstate f types start_logger w) as HE.
    rewrite HL in HE. simpl in HE.
    eapply Forall_impl; [|exact HE]. apply loop_event_no_sync. }
  assert (HT : syncs (banner f ++ tr1 ++ tr2) = syncs tr2).
  { unfold syncs in *. rewrite app_assoc, filter_app, HQ. reflexivity. }
  split; [|split; [exact HQ|split; [now exists tr2|]]].
  - unfold processed_types in *. rewrite flat_map_app. simpl.
    rewrite HP, HU, (HN l eq_refl). now rewrite app_nil_r.
  - rewrite HT. apply sync_phase in HS.
    destruct HS as [_ [_ [_ [_ [_ [_ [_ HS]]]]]]].
    destruct hcl as [h|], tfstate as [s|].
    + destruct (fst (Sync h w1)) as [e|].
      * destruct HS as [-> ->]. auto.
      * destruct HS as [-> ->].
        now destruct (fst (Sync s (snd (Sync h w1)))).
    + destruct HS as [-> ->]. now destruct (fst (Sync h w1)).
    + destruct HS as [-> ->]. now destruct (fst (Sync s w1)).
    + destruct HS as [-> ->]. auto.
Qed.


(** C10. A failed expansion is the last thing a run does: it is not
    tried again, nothing is logged or skipped after it, no sink is
    synced, and [Import] returns the error of [ImportState] as it is. *)
Theorem C10_expansion_failure_aborts_the_run
    (ctx : Ctx) (p : Provider W Res Ctx) (hcl tfstate : option Wr)
    (f : Filter) (w : W) res w' (tr pre post : list Ev) r e :
  Import ctx p hcl tfstate f w = (res, w', tr) ->
  tr = pre ++ EvImportState r (Some e) :: post ->
  post = [] /\ res = Some e /\ syncs tr = [] /\
  exists t, current_type pre None = Some t.
Proof.
  intros H Htr.
  destruct (Import_failure_last _ _ _ _ _ _ _ _ _ _ _ _ H Htr eq_refl)
    as [-> [HS [t [Hcur ->]]]].
  rewrite current_type_app in Hcur. simpl in Hcur. eauto.
Qed.

End Claims.

(** ** The properties on the concrete account *)

Module Runs.

Import Demo.

Lemma C1_witness :
  (exists x, In x (Include unsupported ++ Exclude unsupported) /\
             HasResourceType (provider (Ctx:=unit) account) x = false) /\
  fetched_types
    (snd (Import tt (provider account) (Some config_writer) (Some state_writer)
            unsupported start)) = [] /\
  exists x,
    HasResourceType (provider (Ctx:=unit) account) x = false /\
    ((In x (Include unsupported) /\
      Import tt (provider account) (Some config_writer) (Some state_writer)
        unsupported start =
        (Some (Wrapf ErrProviderResourceNotSupported
                 ("type " ++ x ++ " on Include filter")), start, [])) \/
     (In x (Exclude unsupported) /\
      Import tt (provider account) (Some config_writer) (Some state_writer)
        unsupported start =
        (Some (Wrapf ErrProviderResourceNotSupported
                 ("type " ++ x ++ " on Exclude filter")), start, []))).
Proof.
  assert (H : exists x, In x (Include unsupported ++ Exclude unsupported) /\
                        HasResourceType (provider (Ctx:=unit) account) x = false).
  { exists "type-X". split; [simpl; auto|reflexivity]. }
  split; [exact H|].
  exact (C1_unsupported_entry_is_rejected_before_any_fetch
           tt (provider account) (Some config_writer) (Some state_writer)
           unsupported start H).
Defined.


Lemma C4_witness :
  0 < RetryTimes /\
  all_attempts_fail RetryTimes (Read 9 no_filter) start = true /\
  exists (rds : list (Event nat nat unit)) e0 w1,
    S (List.length rds) = 3 /\
    import_unit (Some config_writer) (Some state_writer) no_filter
      start_logger "type-A" 9 start =
      (Next tt, w1,
       rds ++ [EvRead 9 (Some e0); EvLog start_logger "error" (VErr (Cause e0))]).
Proof.
  assert (H1 : 0 < RetryTimes) by (simpl; lia).
  assert (H2 : all_attempts_fail RetryTimes (Read 9 no_filter) start = true)
    by reflexivity.
  split; [exact H1|]. split; [exact H2|].
  destruct (C4_unreadable_unit_is_logged_and_skipped
              tt (provider account) (Some config_writer) (Some state_writer)
              no_filter start_logger "type-A" 9 start H1 H2)
    as [[rds [e0 [w1 [_ [HL [HU _]]]]]] _].
  exists rds, e0, w1. split; [exact HL|exact HU].
Defined.

Lemma C5_witness :
  Import tt (provider (only 7)) (Some config_writer) (Some state_writer)
    no_filter start =
    (fst (fst config_failure_run), snd (fst config_failure_run),
     snd config_failure_run) /\
  snd config_failure_run =
    removelast (snd config_failure_run)
      ++ EvHCL 7 config_writer (Some (ErrExternal "bad schema")) :: [] /\
  syncs (snd config_failure_run) = [] /\
  fst (fst config_failure_run) =
    Some (Wrapf (ErrExternal "bad schema")
            ("error while calculating the Config of resource " ++ fmt_q "type-A")).
Proof.
  assert (H1 : Import tt (provider (only 7)) (Some config_writer)
                 (Some state_writer) no_filter start =
               (fst (fst config_failure_run), snd (fst config_failure_run),
                snd config_failure_run)) by (vm_compute; reflexivity).
  assert (H2 : snd config_failure_run =
               removelast (snd config_failure_run)
                 ++ EvHCL 7 config_writer (Some (ErrExternal "bad schema")) :: [])
    by (vm_compute; reflexivity).
  split; [exact H1|]. split; [exact H2|].
  destruct (C5_serialization_failure_aborts_the_run
              tt (provider (only 7)) (Some config_writer) (Some state_writer)
              no_filter start _ _ _ _ _ _ 7 config_writer
              (ErrExternal "bad schema") H1 H2 (or_introl eq_refl))
    as [_ [HS [t [Ht [HC _]]]]].
  split; [exact HS|].
  rewrite (HC eq_refl). vm_compute in Ht. inversion Ht. reflexivity.
Defined.

Lemma C7_witness :
  resolve (provider (Ctx:=unit) (only 4)) no_filter
    = inr ["type-A"; "type-B"; "type-C"] /\
  range_types tt (provider (only 4)) (Some config_writer) (Some state_writer)
    no_filter start_logger ["type-A"; "type-B"; "type-C"] start
    = (Next (logger_of (fst (fst full_loop))), snd (fst full_loop), snd full_loop) /\
  syncs (snd (Import tt (provider (only 4)) (Some config_writer)
                (Some state_writer) no_filter start))
    = [EvSync config_writer None; EvSync state_writer None] /\
  fst (fst (Import tt (provider (only 4)) (Some config_writer)
              (Some state_writer) no_filter start))
    = None.
Proof.
  assert (H1 : resolve (provider (Ctx:=unit) (only 4)) no_filter
               = inr ["type-A"; "type-B"; "type-C"]) by reflexivity.
  assert (H2 : range_types tt (provider (only 4)) (Some config_writer)
                 (Some state_writer) no_filter start_logger
                 ["type-A"; "type-B"; "type-C"] start
               = (Next (logger_of (fst (fst full_loop))), snd (fst full_loop),
                  snd full_loop)) by (vm_compute; reflexivity).
  split; [exact H1|]. split; [exact H2|].
  destruct (C7_sinks_are_synced_once_after_the_loop
              tt (provider (only 4)) (Some config_writer) (Some state_writer)
              no_filter start _ _ _ _ H1 H2) as [_ [_ [_ HS]]].
  exact HS.
Defined.

(** C7, as the claim states it, on the concrete account: both sinks are
    configured and the type loop ends without returning, with resource 4
    serialized into both; the [Sync] of the configuration sink fails, the
    run returns, and the state sink is never synced. *)
Lemma C7_state_sink_is_not_synced_after_a_failed_config_sync :
  (exists l, fst (fst broken_loop) = Next l) /\
  In (EvState 4 state_writer None) (snd broken_loop) /\
  syncs (snd broken_run) = [EvSync broken_writer (Some (ErrExternal "disk full"))] /\
  (forall e, ~ In (EvSync state_writer e) (snd broken_run)) /\
  synced (snd (fst broken_run)) = [] /\
  fst (fst broken_run)
    = Some (Wrapf (ErrExternal "disk full") "error while Sync Config").
Proof.
  split; [vm_compute; eauto|]. split; [vm_compute; tauto|].
  split; [vm_compute; reflexivity|]. split; [|split; vm_compute; reflexivity].
  intros e H. vm_compute in H. decompose [or] H; discriminate || contradiction.
Defined.



Lemma C10_witness :
  Import tt (provider (only 8)) (Some config_writer) (Some state_writer)
    no_filter start =
    (fst (fst expansion_failure_run), snd (fst expansion_failure_run),
     snd expansion_failure_run) /\
  snd expansion_failure_run =
    removelast (snd expansion_failure_run)
      ++ EvImportState 8 (Some (ErrExternal "import state failed")) :: [] /\
  fst (fst expansion_failure_run) = Some (ErrExternal "import state failed") /\
  syncs (snd expansion_failure_run) = [].
Proof.
  assert (H1 : Import tt (provider (only 8)) (Some config_writer)
                 (Some state_writer) no_filter start =
               (fst (fst expansion_failure_run), snd (fst expansion_failure_run),
                snd expansion_failure_run)) by (vm_compute; reflexivity).
  assert (H2 : snd expansion_failure_run =
               removelast (snd expansion_failure_run)
                 ++ EvImportState 8 (Some (ErrExternal "import state failed")) :: [])
    by (vm_compute; reflexivity).
  split; [exact H1|]. split; [exact H2|].
  destruct (C10_expansion_failure_aborts_the_run
              tt (provider (only 8)) (Some config_writer) (Some state_writer)
              no_filter start _ _ _ _ _ 8 (ErrExternal "import state failed")
              H1 H2) as [_ [HR [HS _]]].
  split; [exact HR|exact HS].
Defined.

End Runs.


(** ** More on validation and on how a run ends *)

Section MoreValidation.

Context {W Res Wr Ctx : Type}.
Context {RT : Runtime} {RI : Resource W Res Wr} {WI : Writer W Wr}.

Local Open Scope import_scope.

Notation "'Ev'" := (Event Res Wr Ctx).

Variable ctx : Ctx.
Variable p : Provider W Res Ctx.
Variables hcl tfstate : option Wr.
Variable f : Filter.

Lemma range_Include_find (l : list string) :
  range_Include p l =
    option_map (fun x => Wrapf ErrProviderResourceNotSupported
                           ("type " ++ x ++ " on Include filter"))
               (first_unsupported p l).
Proof.
  unfold first_unsupported. induction l as [|i l IH]; simpl; [reflexivity|].
  now destruct (negb (HasResourceType p i)).
Qed.

Lemma range_Exclude_find (l : list string) :
  range_Exclude p l =
    option_map (fun x => Wrapf ErrProviderResourceNotSupported
                           ("type " ++ x ++ " on Exclude filter"))
               (first_unsupported p l).
Proof.
  unfold first_unsupported. induction l as [|i l IH]; simpl; [reflexivity|].
  now destruct (negb (HasResourceType p i)).
Qed.

Lemma first_unsupported_None (l : list string) :
  first_unsupported p l = None <->
  (forall x, In x l -> HasResourceType p x = true).
Proof.
  unfold first_unsupported. split.
  - intros H x Hx. pose proof (find_none _ _ H x Hx) as Hn.
    now apply negb_false_iff in Hn.
  - intros H. induction l as [|i l IH]; simpl; [reflexivity|].
    rewrite (H i (or_introl eq_refl)). simpl. apply IH.
    intros x Hx. apply H. now right.
Qed.

(** X1. Validation reports the first unsupported entry of [Include], in the
    caller's order, whatever [Exclude] holds; an unsupported entry of
    [Exclude] is reported, the first one again, only when every entry of
    [Include] is supported. Either way nothing else happened. *)
Theorem X1_validation_reports_the_first_unsupported_entry (w : W) (x : string) :
  (first_unsupported p (Include f) = Some x ->
   Import ctx p hcl tfstate f w =
     (Some (Wrapf ErrProviderResourceNotSupported
              ("type " ++ x ++ " on Include filter")), w, [])) /\
  (first_unsupported p (Include f) = None ->
   first_unsupported p (Exclude f) = Some x ->
   Import ctx p hcl tfstate f w =
     (Some (Wrapf ErrProviderResourceNotSupported
              ("type " ++ x ++ " on Exclude filter")), w, [])).
Proof.
  split.
  - intros HI. unfold Import, resolve. rewrite range_Include_find, HI.
    destruct (Include f); [discriminate|reflexivity].
  - intros HI HE. unfold Import, resolve.
    rewrite range_Include_find, range_Exclude_find, HI, HE.
    destruct (Exclude f); [discriminate|].
    now destruct (negb (List.length (Include f) =? 0)%nat).
Qed.

(** X2. A run does nothing at all exactly when the filter holds an
    unsupported entry; with every entry of both lists supported it always
    opens with the filter banner on [out] and the "filters" log entry, in
    this order, made with the "func" logger. *)
Theorem X2_a_valid_filter_opens_the_run (w : W) :
  (snd (Import ctx p hcl tfstate f w) = [] <->
   exists x, In x (Include f ++ Exclude f) /\ HasResourceType p x = false) /\
  ((forall x, In x (Include f ++ Exclude f) -> HasResourceType p x = true) ->
   exists tl : list Ev,
     snd (Import ctx p hcl tfstate f w)
       = EvOut ("Importing with filters: " ++ FilterString f)
         :: EvLog [("func", VStr "provider.Import")] "filters"
              (VStr (FilterString f))
         :: tl).
Proof.
  assert (HV : (forall x, In x (Include f ++ Exclude f) ->
                          HasResourceType p x = true) ->
               exists tl : list Ev,
                 snd (Import ctx p hcl tfstate f w)
                   = EvOut ("Importing with filters: " ++ FilterString f)
                     :: EvLog [("func", VStr "provider.Import")] "filters"
                          (VStr (FilterString f))
                     :: tl).
  { intros H. apply (resolve_inr_iff p f) in H. destruct H as [types HR].
    destruct (Import ctx p hcl tfstate f w) as [[res w'] tr] eqn:E.
    apply Import_inv in E.
    destruct E as [[e [HR' _]] | [types' [ol [w1 [tr1 [tr2 [_ [_ [-> _]]]]]]]]];
      [congruence|].
    exists (tr1 ++ tr2). reflexivity. }
  split; [|exact HV]. split.
  - intros HE.
    destruct (existsb (fun x => negb (HasResourceType p x))
                (Include f ++ Exclude f)) eqn:HX.
    + apply existsb_exists in HX. destruct HX as [x [Hx1 Hx2]].
      exists x. split; [assumption|]. now apply negb_true_iff in Hx2.
    + exfalso. destruct HV as [tl Htl]; [|rewrite Htl in HE; discriminate].
      intros x Hx. destruct (HasResourceType p x) eqn:Hp; [reflexivity|].
      assert (existsb (fun x => negb (HasResourceType p x))
                (Include f ++ Exclude f) = true)
        by (apply existsb_exists; exists x; rewrite Hp; auto).
      congruence.
  - intros [x [Hx1 Hx2]]. unfold Import.
    destruct (resolve p f) as [e|types] eqn:HR; [reflexivity|].
    assert (HS : HasResourceType p x = true).
    { apply (proj1 (resolve_inr_iff p f)); [now exists types|assumption]. }
    congruence.
Qed.

End MoreValidation.

(** ** More on the loops *)

Section MoreLoops.

Context {W Res Wr Ctx : Type}.
Context {RT : Runtime} {RI : Resource W Res Wr} {WI : Writer W Wr}.

Local Open Scope import_scope.

Notation "'Ev'" := (Event Res Wr Ctx).
Notation "'Act'" := (M W Res Wr Ctx).

Variable ctx : Ctx.
Variable p : Provider W Res Ctx.
Variables hcl tfstate : option Wr.
Variable f : Filter.

Lemma fatal_error_is_failure t (ev : Ev) e :
  fatal_error t ev = Some e -> is_failure ev = true.
Proof.
  destruct ev as [| | ? ? [?|] | ? [?|] | | ? ? [?|] | ? ? [?|] |];
    simpl; intros H; try discriminate; reflexivity.
Qed.

Lemma is_fatal_loop_event (ev : Ev) :
  loop_event ctx hcl tfstate f ev -> is_fatal ev = is_failure ev.
Proof.
  intros H. unfold is_fatal.
  destruct ev; try (now rewrite orb_false_r).
  apply loop_event_no_sync in H. discriminate.
Qed.

(** X3. [Import] returns nil exactly when the filter is valid and no fetch,
    no expansion, no serialization and no [Sync] of the run failed; failed
    reads do not count. *)
Theorem X3_nil_means_no_fatal_call (w : W) :
  fst (fst (Import ctx p hcl tfstate f w)) = None <->
  ((forall x, In x (Include f ++ Exclude f) -> HasResourceType p x = true) /\
   Forall (fun ev => is_fatal ev = false) (snd (Import ctx p hcl tfstate f w))).
Proof.
  destruct (Import ctx p hcl tfstate f w) as [[res w'] tr] eqn:E.
  cbn [fst snd]. apply Import_inv in E.
  destruct E as [[e [HR [-> [-> ->]]]] | [types [ol [w1 [tr1 [tr2 [HR [HL [-> HS]]]]]]]]].
  - split; [discriminate|]. intros [HV _].
    apply (resolve_inr_iff p f) in HV. destruct HV as [types HV]. congruence.
  - pose proof (range_types_discipline ctx p hcl tfstate f types start_logger w) as HD.
    pose proof (range_types_emits ctx p hcl tfstate f types start_logger w) as HE.
    rewrite HL in HD, HE. simpl in HE.
    split.
    + intros ->. split; [apply (resolve_inr_iff p f); now exists types|].
      destruct ol as [l|e]; [|destruct HS; discriminate].
      destruct HS as [o [HS Ho]]. destruct o as [[]|e]; [|discriminate].
      apply Forall_app. split; [repeat constructor|].
      apply Forall_app. split.
      * unfold clean in HD. rewrite Forall_forall in *. intros ev Hev.
        rewrite (is_fatal_loop_event ev (HE ev Hev)). now apply HD.
      * apply sync_phase in HS.
        destruct HS as [_ [_ [_ [_ [HC [_ [_ HM]]]]]]].
        assert (HN : Forall (fun ev : Ev => match ev with
                                      | EvSync _ (Some _) => false
                                      | _ => true
                                      end = true) (syncs tr2)).
        { destruct hcl as [h|], tfstate as [s|].
          - destruct (fst (Sync h w1)); [destruct HM; discriminate|].
            destruct HM as [-> HM].
            destruct (fst (Sync s (snd (Sync h w1)))); [discriminate|].
            repeat constructor.
          - destruct HM as [-> HM]. destruct (fst (Sync h w1)); [discriminate|].
            repeat constructor.
          - destruct HM as [-> HM]. destruct (fst (Sync s w1)); [discriminate|].
            repeat constructor.
          - destruct HM as [-> _]. constructor. }
        unfold clean in HC. rewrite Forall_forall in *.
        intros ev Hev. unfold is_fatal.
        rewrite (HC ev Hev). simpl.
        destruct ev as [| | | | | | |wr [e|]]; try reflexivity.
        assert (HI : In (EvSync wr (Some e)) (syncs tr2))
          by (apply filter_In; split; [assumption|reflexivity]).
        specialize (HN _ HI). discriminate.
    + intros [_ HF]. rewrite Forall_forall in HF.
      destruct ol as [l|e].
      * destruct HS as [o [HS ->]]. destruct o as [[]|e]; [reflexivity|].
        apply sync_phase in HS. destruct HS as [_ [_ [_ [_ [_ [_ [HS _]]]]]]].
        destruct (HS e eq_refl) as [pre [wr [e' ->]]].
        assert (HI : In (EvSync wr (Some e'))
                        (banner f ++ tr1 ++ pre ++ [EvSync wr (Some e')])).
        { apply in_or_app. right. apply in_or_app. right.
          apply in_or_app. right. simpl. auto. }
        specialize (HF _ HI). unfold is_fatal in HF. simpl in HF. discriminate.
      * destruct HD as [pre [ev [t [-> [_ [Hfe _]]]]]].
        assert (HI : In ev (banner f ++ (pre ++ [ev]) ++ tr2)).
        { apply in_or_app. right. apply in_or_app. left.
          apply in_or_app. right. simpl. auto. }
        specialize (HF _ HI). unfold is_fatal in HF.
        rewrite (fatal_error_is_failure _ _ _ Hfe) in HF. discriminate.
Qed.

(** X4. In every run, finished or not, with or without sinks, the fetch
    calls are, in order, the opened types that are not excluded, and the
    "excluded" entries are those of the opened types that are: a type the
    loop opens is fetched once or logged as excluded once, never both. *)
Theorem X4_each_opened_type_is_fetched_or_excluded (w : W) :
  fetched_types (snd (Import ctx p hcl tfstate f w))
    = filter (fun t => negb (IsExcluded f t))
        (processed_types (snd (Import ctx p hcl tfstate f w))) /\
  forall t,
    excluded_events t (snd (Import ctx p hcl tfstate f w))
      = count_occ string_dec
          (filter (IsExcluded f)
             (processed_types (snd (Import ctx p hcl tfstate f w)))) t.
Proof.
  destruct (Import ctx p hcl tfstate f w) as [[res w'] tr] eqn:E.
  destruct (Import_progress _ _ _ _ _ _ _ _ _ E)
    as [done [rest [_ [HP [HF [HE _]]]]]].
  cbn [snd]. rewrite HP. auto.
Qed.

(** *** Progress lines *)

Lemma outs_app (a b : list Ev) : outs (a ++ b) = outs a ++ outs b.
Proof. apply flat_map_app. Qed.

Lemma range_units_silent logger t us :
  emits_only (fun ev : Ev => out_line ev = [])
    (range_units hcl tfstate f logger t us).
Proof.
  induction us as [|r us IH]; simpl; [apply emits_only_ret|].
  apply emits_only_bind; [|intros _; exact IH].
  unfold import_unit, RetryDefault, unit_HCL, unit_State, call_HCL, call_State.
  apply emits_only_bind; [apply Retry_emits; reflexivity|].
  emits; reflexivity.
Qed.

Lemma import_resource_outs logger t n i re w :
  outs (snd (import_resource (Ctx:=Ctx) hcl tfstate f logger t n i re w))
    = [progress_line t (i + 1) n].
Proof.
  assert (H : emits_only (fun ev : Ev => out_line ev = [])
                (Log (With (With (With logger "id" (VStr (ID re))) "total" (VInt n))
                           "current" (VInt (i + 1)))
                     "msg" (VStr "reading from TF") ;;
                 x <- call_ImportState re ;;
                 match snd x with
                 | Some e => abort e
                 | None =>
                     range_units hcl tfstate f
                       (With (With (With logger "id" (VStr (ID re))) "total" (VInt n))
                             "current" (VInt (i + 1)))
                       t (re :: fst x)
                 end)).
  { unfold call_ImportState.
    apply emits_only_bind; [now apply emits_only_emit|]. intros _.
    apply emits_only_bind; [now apply emits_only_call|]. intros x.
    destruct (snd x); [apply emits_only_abort|apply range_units_silent]. }
  unfold import_resource, Fprintf. rewrite bind_emit. cbn [snd].
  unfold outs. cbn [flat_map out_line app]. unfold progress_line.
  f_equal. apply flat_map_nil. exact (H w).
Qed.

Lemma range_resources_outs logger t n rs :
  forall i w w' (tr : list Ev),
    range_resources hcl tfstate f logger t n i rs w = (Next tt, w', tr) ->
    outs tr = map (fun j => progress_line t j n) (seq (i + 1) (List.length rs)).
Proof.
  induction rs as [|re rs IH]; intros i w w' tr H.
  - inversion H; subst. reflexivity.
  - simpl in H. inv_bind H; [|discriminate].
    pose proof (import_resource_outs logger t n i re w) as HO.
    rewrite Hm in HO. cbn [snd] in HO.
    apply IH in Hk. subst tr. rewrite outs_app, HO, Hk. reflexivity.
Qed.

(** X5. When the iteration on a type that is not excluded ends without
    returning, what it wrote to [out] is one progress line per fetched
    resource, numbered from 1 to the number of fetched resources in fetch
    order, each showing that total, followed by the "Done!" line; when
    the fetch found nothing it wrote nothing, not even the "Done!" line. *)
Theorem X5_progress_lines_count_the_fetched_resources
    (logger l : Logger) (t : string) (w w' : W) (tr : list Ev) :
  IsExcluded f t = false ->
  import_type ctx p hcl tfstate f logger t w = (Next l, w', tr) ->
  outs tr =
    map (fun j => progress_line t j
                    (List.length (fst (fst (Resources p ctx t f w)))))
        (seq 1 (List.length (fst (fst (Resources p ctx t f w)))))
    ++ match fst (fst (Resources p ctx t f w)) with
       | [] => []
       | _ :: _ => [done_line t (List.length (fst (fst (Resources p ctx t f w))))]
       end.
Proof.
  intros HX H. unfold import_type in H. rewrite HX in H.
  apply bind_emit_inv in H. destruct H as [tl1 [H ->]].
  apply bind_call_inv in H. destruct H as [tl [H ->]].
  destruct (Resources p ctx t f w) as [[rs [e|]] w1]; cbn [fst snd] in *;
    [discriminate|].
  inv_bind H; [|discriminate]. destruct a.
  apply range_resources_outs in Hm.
  inv_bind Hk; [|discriminate]. destruct a.
  apply bind_emit_inv in Hk0. destruct Hk0 as [tl2 [Hk0 ->]].
  inversion Hk0; subst. clear Hk0.
  unfold outs in *. cbn [flat_map out_line app].
  rewrite !flat_map_app, Hm. cbn [flat_map out_line app].
  rewrite app_nil_r. f_equal.
  destruct rs as [|r rs]; simpl in Hm0; inversion Hm0; reflexivity.
Qed.

(** *** Loggers *)

Lemma range_types_logger types :
  forall logger w l w' (tr : list Ev),
    range_types ctx p hcl tfstate f logger types w = (Next l, w', tr) ->
    l = logger ++ map (fun t => ("resource", VStr t)) types.
Proof.
  induction types as [|t types IH]; intros logger w l w' tr H.
  - inversion H; subst. now rewrite app_nil_r.
  - simpl in H. inv_bind H; [|discriminate].
    pose proof (import_type_run _ _ _ _ _ _ _ _ _ _ _ Hm) as HR.
    assert (Ha : a = With logger "resource" (VStr t)).
    { destruct (IsExcluded f t).
      - destruct HR as [HR _]. now inversion HR.
      - destruct HR as [x [tl [_ [_ HR]]]]. now destruct (HR a eq_refl). }
    subst a. apply IH in Hk. subst l. unfold With.
    now rewrite <- app_assoc.
Qed.

Lemma last_cons_default {A} (x d : A) (l : list A) : last (x :: l) d = last l x.
Proof.
  revert x d. induction l as [|y l IH]; intros x d; [reflexivity|].
  change (last (x :: y :: l) d) with (last (y :: l) d).
  rewrite IH. symmetry. apply IH.
Qed.

Lemma log_resource_pairs (types : list string) :
  forall base,
    log_resource (base ++ map (fun t => ("resource", VStr t)) types)
      = last (map Some types) (log_resource base).
Proof.
  induction types as [|t types IH]; intros base.
  - simpl. now rewrite app_nil_r.
  - change (base ++ map (fun t => ("resource", VStr t)) (t :: types))
      with (base ++ [("resource", VStr t)]
              ++ map (fun t => ("resource", VStr t)) types).
    rewrite app_assoc. fold (With base "resource" (VStr t)).
    rewrite IH, log_resource_With.
    change (map Some (t :: types)) with (Some t :: map Some types).
    now rewrite last_cons_default.
Qed.

Lemma sync_logs logger :
  emits_only (fun ev : Ev => match ev with
                             | EvLog l _ _ => l = logger
                             | _ => True
                             end)
    (sync_hcl hcl logger ;; sync_tfstate tfstate logger).
Proof.
  unfold sync_hcl, sync_tfstate, call_Sync. emits; exact I || reflexivity.
Qed.

(** X6. The logger of the type loop is reassigned at every iteration, so
    it grows by one "resource" pair per type: a loop that ends without
    returning hands over the "func" logger followed by one pair per type of
    the list, in order. The four log entries of the finalization are made
    with that logger, so the type they name is the last type of the
    universe, and no type when the universe is empty. *)
Theorem X6_the_loop_logger_accumulates_resource_pairs :
  (forall types logger w l w' (tr : list Ev),
      range_types ctx p hcl tfstate f logger types w = (Next l, w', tr) ->
      l = logger ++ map (fun t => ("resource", VStr t)) types) /\
  (forall w l m,
      In (EvLog l "msg" (VStr m)) (snd (Import ctx p hcl tfstate f w)) ->
      In m ["writing the HCL"; "writing the HCL done";
            "writing the TFState"; "writing the TFState done"] ->
      l = start_logger ++ map (fun t => ("resource", VStr t)) (universe p f) /\
      log_resource l = last (map Some (universe p f)) None).
Proof.
  split; [intros types; apply range_types_logger|].
  intros w l m HI Hm.
  assert (HL : l = start_logger
                     ++ map (fun t => ("resource", VStr t)) (universe p f)).
  { destruct (Import ctx p hcl tfstate f w) as [[res w'] tr] eqn:E.
    apply Import_inv in E. cbn [snd] in HI.
    destruct E as [[e [_ [_ [_ ->]]]] | [types [ol [w1 [tr1 [tr2 [HR [HL [-> HS]]]]]]]]];
      [destruct HI|].
    apply resolve_inr in HR. subst types.
    apply in_app_or in HI. destruct HI as [HI|HI].
    { simpl in HI. destruct HI as [HI|[HI|[]]]; discriminate. }
    apply in_app_or in HI. destruct HI as [HI|HI].
    - exfalso.
      pose proof (range_types_emits ctx p hcl tfstate f (universe p f)
                    start_logger w) as HE.
      rewrite HL in HE. simpl in HE. rewrite Forall_forall in HE.
      specialize (HE _ HI).
      simpl in Hm.
      inversion HE as [ev HB|l0 t0 _ _|l0 t0 _ _|]; subst.
      + inversion HB as [|l0 m0 Hm0| | | | |]; subst.
        simpl in Hm0.
        decompose [or] Hm0; decompose [or] Hm; subst;
          discriminate || contradiction.
      + decompose [or] Hm; subst; discriminate || contradiction.
      + decompose [or] Hm; subst; discriminate || contradiction.
    - destruct ol as [l'|e]; [|destruct HS as [_ [_ ->]]; destruct HI].
      destruct HS as [o [HS _]].
      pose proof (sync_logs l' w1) as HG. rewrite HS in HG. simpl in HG.
      rewrite Forall_forall in HG. specialize (HG _ HI). simpl in HG. subst l.
      eapply range_types_logger; exact HL. }
  split; [exact HL|]. rewrite HL. apply log_resource_pairs.
Qed.

Lemma range_units_logs logger t us :
  emits_only (fun ev : Ev => match ev with
                             | EvLog l _ _ => l = logger
                             | _ => True
                             end)
    (range_units hcl tfstate f logger t us).
Proof.
  induction us as [|r us IH]; simpl; [apply emits_only_ret|].
  apply emits_only_bind; [|intros _; exact IH].
  unfold import_unit, RetryDefault, unit_HCL, unit_State, call_HCL, call_State.
  apply emits_only_bind; [apply Retry_emits; intros; exact I|].
  emits; exact I || reflexivity.
Qed.

Lemma import_resource_logs logger t n i re :
  emits_only (fun ev : Ev => match ev with
                             | EvLog l _ _ =>
                                 l = With (With (With logger "id" (VStr (ID re)))
                                                "total" (VInt n))
                                          "current" (VInt (i + 1))
                             | _ => True
                             end)
    (import_resource hcl tfstate f logger t n i re).
Proof.
  unfold import_resource, call_ImportState.
  apply emits_only_bind; [now apply emits_only_emit|]. intros _.
  apply emits_only_bind; [now apply emits_only_emit|]. intros _.
  apply emits_only_bind; [now apply emits_only_call|]. intros x.
  destruct (snd x); [apply emits_only_abort|apply range_units_logs].
Qed.

Lemma logger_get_With3 (l : Logger) (a b c : Val) :
  logger_get (With (With (With l "id" a) "total" b) "current" c) "id" = Some a /\
  logger_get (With (With (With l "id" a) "total" b) "current" c) "total" = Some b /\
  logger_get (With (With (With l "id" a) "total" b) "current" c) "current" = Some c /\
  log_resource (With (With (With l "id" a) "total" b) "current" c) = log_resource l.
Proof.
  unfold log_resource, logger_get, With. rewrite !rev_app_distr. simpl. auto.
Qed.


Lemma range_resources_logs logger t n rs :
  forall i,
    emits_only (fun ev : Ev => match ev with
                               | EvLog l _ _ => log_resource l = log_resource logger
                               | _ => True
                               end)
      (range_resources hcl tfstate f logger t n i rs).
Proof.
  induction rs as [|re rs IH]; intros i; simpl; [apply emits_only_ret|].
  apply emits_only_bind; [|intros _; apply IH].
  eapply emits_only_impl; [|apply import_resource_logs].
  intros [| l k v| | | | | |]; try (intros _; exact I).
  intros ->. apply logger_get_With3.
Qed.

(** X8. Although the loop logger keeps the pairs of the types already
    processed, every log entry made during the iteration on a type names
    that type: it is the last "resource" pair of the logger the entry was
    made with. *)
Theorem X8_entries_of_an_iteration_name_its_type
    (logger : Logger) (t : string) (w : W) :
  logs_with (fun l => log_resource l = Some t)
    (snd (import_type ctx p hcl tfstate f logger t w)).
Proof.
  unfold logs_with.
  assert (H : emits_only (fun ev : Ev => match ev with
                                         | EvLog l _ _ => log_resource l = Some t
                                         | _ => True
                                         end)
                (import_type ctx p hcl tfstate f logger t)).
  { unfold import_type, call_Resources.
    destruct (IsExcluded f t).
    - emits. apply log_resource_With.
    - apply emits_only_bind;
        [apply emits_only_emit; apply log_resource_With|]. intros _.
      apply emits_only_bind; [now apply emits_only_call|]. intros x.
      destruct (snd x); [apply emits_only_abort|].
      apply emits_only_bind.
      + eapply emits_only_impl; [|apply range_resources_logs].
        intros [| l k v| | | | | |]; try (intros _; exact I).
        intros ->. apply log_resource_With.
      + emits; exact I || apply log_resource_With. }
  apply H.
Qed.

(** *** A read that ends up succeeding *)

Lemma Retry_succeeds (r : Res) (k : nat) :
  forall n last w,
    k < n ->
    all_attempts_fail k (Read r f) w = true ->
    fst (Read r f (after_attempts k (Read r f) w)) = None ->
    exists rds : list Ev,
      List.length rds = k /\ Forall (failed_read r) rds /\
      Retry n (call_Read r f) last w =
        (Next None, snd (Read r f (after_attempts k (Read r f) w)),
         rds ++ [EvRead r None]).
Proof.
  induction k as [|k IH]; intros n last w Hlt HA HS.
  - destruct n as [|n]; [lia|]. exists []. split; [reflexivity|].
    split; [constructor|].
    cbn [Retry after_attempts] in *. unfold bind. rewrite call_Read_run.
    destruct (Read r f w) as [o w1]. simpl in HS. subst o. reflexivity.
  - destruct n as [|n]; [lia|].
    cbn [all_attempts_fail after_attempts] in *.
    cbn [Retry]. unfold bind at 1. rewrite call_Read_run.
    destruct (Read r f w) as [[e|] w1]; [|discriminate]. cbn [fst snd] in *.
    destruct (IH n (Some e) w1) as [rds [HL [HF HR]]]; [lia|assumption|assumption|].
    rewrite HR. exists (EvRead r (Some e) :: rds).
    split; [simpl; now rewrite HL|].
    split; [constructor; [now exists e|assumption]|reflexivity].
Qed.

(** X9. A unit whose read fails [k] times and then succeeds, with [k]
    smaller than the number of attempts, is read [k+1] times and no more;
    no "error" entry is logged, and the unit goes on to the configured
    sinks from the world the successful read left: when neither
    serialization fails, the events of the unit are the [k] failed reads,
    the successful one, and the serialization into every configured sink,
    configuration first. *)
Theorem X9_a_read_that_succeeds_in_time_is_serialized
    (logger : Logger) (t : string) (r : Res) (k : nat) (w : W) :
  k < RetryTimes ->
  all_attempts_fail k (Read r f) w = true ->
  fst (Read r f (after_attempts k (Read r f) w)) = None ->
  exists rds : list Ev,
    List.length rds = k /\ Forall (failed_read r) rds /\
    (forall o w' tl,
        (unit_HCL hcl logger t r ;; unit_State tfstate logger t r)
          (snd (Read r f (after_attempts k (Read r f) w))) = (o, w', tl) ->
        import_unit hcl tfstate f logger t r w
          = (o, w', rds ++ EvRead r None :: tl) /\
        (o = Next tt -> tl = serialization hcl tfstate logger r)).
Proof.
  intros Hlt HA HS.
  destruct (Retry_succeeds r k RetryTimes None w Hlt HA HS) as [rds [HL [HF HR]]].
  exists rds. split; [assumption|]. split; [assumption|].
  intros o w' tl Hk. split.
  - unfold import_unit, RetryDefault. unfold bind at 1. rewrite HR, Hk.
    now rewrite <- app_assoc.
  - intros ->. now apply serialization_run in Hk.
Qed.

(** *** No serialization without a successful read *)

Lemma serializes_is_serialization (r : Res) (ev : Ev) :
  serializes r ev -> is_serialization ev = true.
Proof. intros [[wr [x ->]]|[wr [x ->]]]; reflexivity. Qed.

Lemma app_split_quiet (a b pre post : list Ev) ev :
  a ++ b = pre ++ ev :: post ->
  Forall (fun x => is_serialization x = false) a ->
  is_serialization ev = true ->
  exists pre', pre = a ++ pre' /\ b = pre' ++ ev :: post.
Proof.
  revert pre. induction a as [|x a IH]; intros pre E HQ Hev.
  - exists pre. auto.
  - inversion HQ as [|? ? Hx Ha]; subst.
    destruct pre as [|y pre]; simpl in E; inversion E; subst; [congruence|].
    destruct (IH pre H1 Ha Hev) as [pre' [-> ->]]. exists pre'. auto.
Qed.

Lemma read_before_serialized_quiet (tr : list Ev) :
  Forall (fun x => is_serialization x = false) tr -> read_before_serialized tr.
Proof.
  intros HQ pre ev post r -> Hs. apply serializes_is_serialization in Hs.
  apply Forall_app in HQ. destruct HQ as [_ HQ]. inversion HQ; subst. congruence.
Qed.

Lemma read_before_serialized_app (a b : list Ev) :
  read_before_serialized a -> read_before_serialized b ->
  read_before_serialized (a ++ b).
Proof.
  intros Ha Hb pre ev post r E Hs.
  apply app_eq_app in E. destruct E as [l [[E1 E2]|[E1 E2]]].
  - destruct l as [|x l].
    + simpl in E2. symmetry in E2. elim (Hb [] ev post r E2 Hs).
    + simpl in E2. inversion E2; subst. exact (Ha pre x l r eq_refl Hs).
  - subst pre. apply in_or_app. right. exact (Hb l ev post r E2 Hs).
Qed.

Lemma read_before_serialized_bind {A B} (m : Act A) (k : A -> Act B) :
  (forall w, read_before_serialized (snd (m w))) ->
  (forall a w, read_before_serialized (snd (k a w))) ->
  forall w, read_before_serialized (snd (bind m k w)).
Proof.
  intros Hm Hk w. unfold bind. specialize (Hm w).
  destruct (m w) as [[[a|e] w1] tr1]; [|exact Hm].
  specialize (Hk a w1). destruct (k a w1) as [[o w2] tr2].
  now apply read_before_serialized_app.
Qed.

Lemma read_before_serialized_emits {A} (c : Act A) :
  emits_only (fun ev => is_serialization ev = false) c ->
  forall w, read_before_serialized (snd (c w)).
Proof. intros H w. apply read_before_serialized_quiet, H. Qed.

Lemma unit_sinks_events logger t r :
  emits_only (fun ev : Ev => forall r', serializes r' ev -> r' = r)
    (unit_HCL hcl logger t r ;; unit_State tfstate logger t r).
Proof.
  unfold unit_HCL, unit_State, call_HCL, call_State.
  emits;
    match goal with
    | H : serializes _ _ |- _ =>
        destruct H as [[wr [x E]]|[wr [x E]]]; try discriminate; now inversion E
    end.
Qed.

Lemma import_unit_read_first logger t r :
  0 < RetryTimes ->
  forall w,
    read_before_serialized
      (snd (import_unit (Ctx:=Ctx) hcl tfstate f logger t r w)).
Proof.
  intros Hpos w. unfold import_unit, RetryDefault.
  destruct (Retry_spec (Ctx:=Ctx) f r RetryTimes None w) as [err [w1 [tr1 [E S]]]].
  unfold bind at 1. rewrite E. destruct err as [c|].
  - destruct S as [HF _]. unfold Log, emit. cbn [snd].
    apply read_before_serialized_quiet. apply Forall_app. split.
    + eapply Forall_impl; [|exact HF]. intros ev [e ->]. reflexivity.
    + repeat constructor.
  - destruct S as [[Hn _]|[rds [-> [HF _]]]]; [lia|].
    pose proof (unit_sinks_events logger t r w1) as HU.
    destruct ((unit_HCL hcl logger t r ;; unit_State tfstate logger t r) w1)
      as [[o w2] tr2].
    cbn [snd] in *. intros pre ev post r' Etr Hs.
    apply app_split_quiet in Etr.
    + destruct Etr as [pre' [-> Etr]]. rewrite Forall_forall in HU.
      assert (Hin : In ev tr2) by (rewrite Etr; apply in_or_app; right; simpl; auto).
      rewrite (HU ev Hin r' Hs).
      apply in_or_app. left. apply in_or_app. right. simpl. auto.
    + apply Forall_app. split; [|repeat constructor].
      eapply Forall_impl; [|exact HF]. intros x [e ->]. reflexivity.
    + now apply serializes_is_serialization in Hs.
Qed.

Lemma range_types_read_first types :
  0 < RetryTimes ->
  forall logger w,
    read_before_serialized (snd (range_types ctx p hcl tfstate f logger types w)).
Proof.
  intros Hpos.
  assert (HU : forall logger t us w,
             read_before_serialized
               (snd (range_units (Ctx:=Ctx) hcl tfstate f logger t us w))).
  { intros logger t us. induction us as [|r us IH]; intros w; simpl.
    - apply read_before_serialized_quiet. constructor.
    - apply read_before_serialized_bind; [now apply import_unit_read_first|].
      intros _. apply IH. }
  assert (HR : forall logger t n rs i w,
             read_before_serialized
               (snd (range_resources (Ctx:=Ctx) hcl tfstate f logger t n i rs w))).
  { intros logger t n rs. induction rs as [|re rs IH]; intros i w; simpl.
    - apply read_before_serialized_quiet. constructor.
    - apply read_before_serialized_bind; [|intros _; apply IH].
      unfold import_resource, call_ImportState.
      apply read_before_serialized_bind;
        [apply read_before_serialized_emits; emits; reflexivity|]. intros _.
      apply read_before_serialized_bind;
        [apply read_before_serialized_emits; emits; reflexivity|]. intros _.
      apply read_before_serialized_bind;
        [apply read_before_serialized_emits; emits; reflexivity|]. intros x.
      destruct (snd x); [apply read_before_serialized_emits; emits|apply HU]. }
  induction types as [|t types IH]; intros logger w; simpl.
  - apply read_before_serialized_quiet. constructor.
  - apply read_before_serialized_bind; [|intros l; apply IH].
    unfold import_type, call_Resources. destruct (IsExcluded f t).
    + apply read_before_serialized_emits. emits. reflexivity.
    + apply read_before_serialized_bind;
        [apply read_before_serialized_emits; emits; reflexivity|]. intros _.
      apply read_before_serialized_bind;
        [apply read_before_serialized_emits; emits; reflexivity|]. intros x.
      destruct (snd x); [apply read_before_serialized_emits; emits|].
      apply read_before_serialized_bind; [apply HR|]. intros _.
      apply read_before_serialized_emits. emits; reflexivity.
Qed.

(** X10. With at least one attempt per read, no unit is ever handed to a
    sink before it was read successfully: wherever a run serializes a unit,
    into the configuration sink or into the state sink, a successful
    [Read] of that unit comes earlier in the run. *)
Theorem X10_no_serialization_without_a_successful_read (w : W) :
  0 < RetryTimes ->
  read_before_serialized (snd (Import ctx p hcl tfstate f w)).
Proof.
  intros Hpos.
  destruct (Import ctx p hcl tfstate f w) as [[res w'] tr] eqn:E.
  apply Import_inv in E. cbn [snd].
  destruct E as [[e [_ [_ [_ ->]]]] | [types [ol [w1 [tr1 [tr2 [_ [HL [-> HS]]]]]]]]].
  - apply read_before_serialized_quiet. constructor.
  - apply read_before_serialized_app;
      [apply read_before_serialized_quiet; repeat constructor|].
    apply read_before_serialized_app.
    + pose proof (range_types_read_first types Hpos start_logger w) as H.
      now rewrite HL in H.
    + apply read_before_serialized_quiet. destruct ol as [l|e].
      * destruct HS as [o [HS _]]. apply sync_phase in HS.
        destruct HS as [_ [_ [_ [HQ _]]]].
        clear - HQ. induction tr2 as [|x tr2 IH]; [constructor|].
        simpl in HQ. destruct (is_serialization x) eqn:Hx; [discriminate|].
        constructor; auto.
      * destruct HS as [_ [_ ->]]. constructor.
Qed.

End MoreLoops.

(** ** Properties of the generator of listing functions *)

Module CodegenFacts.

Import Codegen.

Lemma append_nil_r (s : string) : (s ++ EmptyString)%string = s.
Proof. induction s as [|c s IH]; simpl; [reflexivity|now rewrite IH]. Qed.

Lemma append_assoc (a b c : string) :
  ((a ++ b) ++ c)%string = (a ++ (b ++ c))%string.
Proof. induction a as [|x a IH]; simpl; [reflexivity|now rewrite IH]. Qed.

Lemma concat_cons (c : string) (cs : list string) :
  String.concat EmptyString (c :: cs) = (c ++ String.concat EmptyString cs)%string.
Proof. destruct cs; simpl; [now rewrite append_nil_r|reflexivity]. Qed.

Lemma defaults_idem (f : Function) : defaults (defaults f) = defaults f.
Proof.
  destruct f as [r z n sn rg a nf rl].
  destruct rl, a, n, sn, r; reflexivity.
Qed.

(** X11. The defaults of [Execute] touch only the four derived fields, and
    only those left empty: [ResourceList] becomes the resource followed by
    "List", [API] becomes "compute", [Name] and [ServiceName] become the
    resource followed by "s"; a field given by the caller is kept. After
    them none of the four is empty, whatever the resource, and applying
    them again changes nothing. *)
Theorem X11_defaults_fill_only_the_empty_fields (f : Function) :
  Resource (defaults f) = Resource f /\
  Zone (defaults f) = Zone f /\
  Region (defaults f) = Region f /\
  NoFilter (defaults f) = NoFilter f /\
  ResourceList (defaults f)
    = match ResourceList f with
      | EmptyString => (Resource f ++ "List")%string
      | _ => ResourceList f
      end /\
  API (defaults f)
    = match API f with EmptyString => "compute"%string | _ => API f end /\
  Name (defaults f)
    = match Name f with
      | EmptyString => (Resource f ++ "s")%string
      | _ => Name f
      end /\
  ServiceName (defaults f)
    = match ServiceName f with
      | EmptyString => (Resource f ++ "s")%string
      | _ => ServiceName f
      end /\
  ResourceList (defaults f) <> EmptyString /\
  API (defaults f) <> EmptyString /\
  Name (defaults f) <> EmptyString /\
  ServiceName (defaults f) <> EmptyString /\
  defaults (defaults f) = defaults f.
Proof.
  destruct f as [r z n sn rg a nf rl].
  destruct rl, a, n, sn, r; cbn; repeat split; discriminate.
Qed.

Lemma defaults_with_Region (b : bool) (f : Function) :
  defaults (with_Region b f) = with_Region b (defaults f).
Proof.
  destruct f as [r z n sn rg a nf rl].
  destruct rl, a, n, sn; reflexivity.
Qed.

Lemma chunks_with_Region (b : bool) (f : Function) :
  Zone f = true ->
  chunks_of (with_Region b f) functionTmpl = chunks_of f functionTmpl.
Proof.
  destruct f as [r z n sn rg a nf rl]. simpl. intros ->. reflexivity.
Qed.

(** X12. For a zonal resource the [Region] flag is ignored: with [Zone]
    set, the pieces the template writes are the same whether [Region] is
    set or not, so [Execute] leaves any writer in the same state and fails
    on the same writes. *)
Theorem X12_Zone_overrides_Region
    (S : Type) (Write : S -> string -> option error * S)
    (f : Function) (b : bool) (s : S) :
  Zone f = true ->
  chunks_of (defaults (with_Region b f)) functionTmpl
    = chunks_of (defaults f) functionTmpl /\
  snd (Execute S Write (with_Region b f) s) = snd (Execute S Write f s) /\
  (fst (Execute S Write (with_Region b f) s) = None <->
   fst (Execute S Write f s) = None).
Proof.
  intros HZ.
  assert (HC : chunks_of (defaults (with_Region b f)) functionTmpl
               = chunks_of (defaults f) functionTmpl).
  { rewrite defaults_with_Region. apply chunks_with_Region.
    destruct f as [r z n sn rg a nf rl]. simpl in HZ. subst z.
    destruct rl, a, n, sn; reflexivity. }
  split; [exact HC|].
  unfold Execute, fnTmpl_Execute. rewrite HC.
  destruct (write_all S Write (chunks_of (defaults f) functionTmpl) s)
    as [[e|] s']; simpl; (split; [reflexivity|]); split; intros H;
    discriminate || reflexivity.
Qed.

Lemma write_all_buffer (cs : list string) :
  forall s,
    write_all string buffer_Write cs s
      = (None, (s ++ String.concat EmptyString cs)%string).
Proof.
  induction cs as [|c cs IH]; intros s.
  - simpl. now rewrite append_nil_r.
  - cbn [write_all]. unfold buffer_Write at 1. rewrite IH, concat_cons.
    now rewrite append_assoc.
Qed.

(** X13. On a writer that keeps everything it is given, [Execute] returns
    nil and the writer has grown by exactly the text of the template for
    the function with its defaults filled in: the pieces written one by one
    add up to the rendered text, after whatever the writer held before. *)
Theorem X13_Execute_appends_the_rendered_text (f : Function) (s : string) :
  Execute string buffer_Write f s
    = (None, (s ++ render (defaults f) functionTmpl)%string).
Proof.
  unfold Execute, fnTmpl_Execute, render. now rewrite write_all_buffer.
Qed.

(** X14. The [NoFilter] flag removes two pieces and nothing else: the
    [filter string] parameter of the generated function and the [Filter]
    call on the listing request. With the flag clear both are there, with
    the flag set neither is, and every other piece is the same in the same
    order. *)
Theorem X14_NoFilter_drops_the_parameter_and_the_call (f : Function) :
  exists a b c,
    chunks_of (with_NoFilter true f) functionTmpl = a ++ b ++ c /\
    chunks_of (with_NoFilter false f) functionTmpl =
      a ++ [", filter string "%string] ++ b
        ++ [(LF ++ TAB ++ TAB ++ TAB ++ "Filter(filter)." ++ LF ++ TAB ++ TAB)%string]
        ++ c.
Proof.
  destruct f as [r z n sn rg a nf rl]. destruct z.
  - exists (firstn 9 (chunks_of (with_NoFilter true
                                   (mkFunction r true n sn rg a nf rl))
                        functionTmpl)),
           (firstn 25 (skipn 9 (chunks_of (with_NoFilter true
                                   (mkFunction r true n sn rg a nf rl))
                        functionTmpl))),
           (skipn 34 (chunks_of (with_NoFilter true
                                   (mkFunction r true n sn rg a nf rl))
                        functionTmpl)).
    split; reflexivity.
  - destruct rg.
    + exists (firstn 8 (chunks_of (with_NoFilter true
                                     (mkFunction r false n sn true a nf rl))
                          functionTmpl)),
             (firstn 19 (skipn 8 (chunks_of (with_NoFilter true
                                     (mkFunction r false n sn true a nf rl))
                          functionTmpl))),
             (skipn 27 (chunks_of (with_NoFilter true
                                     (mkFunction r false n sn true a nf rl))
                          functionTmpl)).
      split; reflexivity.
    + exists (firstn 8 (chunks_of (with_NoFilter true
                                     (mkFunction r false n sn false a nf rl))
                          functionTmpl)),
             (firstn 19 (skipn 8 (chunks_of (with_NoFilter true
                                     (mkFunction r false n sn false a nf rl))
                          functionTmpl))),
             (skipn 27 (chunks_of (with_NoFilter true
                                     (mkFunction r false n sn false a nf rl))
                          functionTmpl)).
      split; reflexivity.
Qed.

Lemma write_all_fails (S : Type) (Write : S -> string -> option error * S)
    (cs : list string) :
  forall s e s',
    write_all S Write cs s = (Some e, s') ->
    exists done c rest s0,
      cs = done ++ c :: rest /\
      write_all S Write done s = (None, s0) /\
      Write s0 c = (Some e, s').
Proof.
  induction cs as [|c cs IH]; intros s e s' H; [discriminate|].
  cbn [write_all] in H. destruct (Write s c) as [[e0|] s1] eqn:EW.
  - inversion H; subst. exists [], c, cs, s. auto.
  - destruct (IH _ _ _ H) as [done [c' [rest [s0 [-> [HD HW]]]]]].
    exists (c :: done), c', rest, s0. split; [reflexivity|]. split; [|assumption].
    cbn [write_all]. now rewrite EW.
Qed.

(** X15. [Execute] fails only when a write fails. It then stops at that
    write: the pieces before it were all accepted, the writer is left as
    the failed write left it, nothing is written afterwards, and the error
    returned is the one of the writer wrapped with a message that prints
    the function with its defaults filled in, not as the caller gave it. *)
Theorem X15_Execute_stops_at_the_first_failed_write
    (S : Type) (Write : S -> string -> option error * S)
    (f : Function) (s s' : S) (e : error) :
  Execute S Write f s = (Some e, s') ->
  exists done c rest s0 e0,
    chunks_of (defaults f) functionTmpl = done ++ c :: rest /\
    write_all S Write done s = (None, s0) /\
    Write s0 c = (Some e0, s') /\
    e = Wrapf e0 ("failed to Execute with Function " ++ fmt_plus_v (defaults f)).
Proof.
  unfold Execute, fnTmpl_Execute.
  destruct (write_all S Write (chunks_of (defaults f) functionTmpl) s)
    as [[e0|] s1] eqn:E; [|discriminate].
  intros H. inversion H; subst.
  destruct (write_all_fails _ _ _ _ _ _ E) as [done [c [rest [s0 [HC [HD HW]]]]]].
  exists done, c, rest, s0, e0. auto.
Qed.

End CodegenFacts.

(** ** The further properties on the concrete account *)

Module MoreRuns.

Import Demo MoreDemo.

Lemma X1_witness :
  first_unsupported (provider (Ctx:=unit) account) (Include unsupported)
    = Some "type-X"%string /\
  Import tt (provider account) (Some config_writer) (Some state_writer)
    unsupported start =
    (Some (Wrapf ErrProviderResourceNotSupported
             ("type " ++ "type-X" ++ " on Include filter")), start, []).
Proof.
  assert (H : first_unsupported (provider (Ctx:=unit) account) (Include unsupported)
              = Some "type-X"%string) by reflexivity.
  split; [exact H|].
  exact (proj1 (X1_validation_reports_the_first_unsupported_entry
                  tt (provider account) (Some config_writer) (Some state_writer)
                  unsupported start "type-X") H).
Defined.

Lemma X5_witness :
  IsExcluded no_filter "type-A" = false /\
  import_type tt (provider account) None None no_filter start_logger "type-A" start
    = (Next (logger_of (fst (fst type_A_iteration))), snd (fst type_A_iteration),
       snd type_A_iteration) /\
  outs (snd type_A_iteration)
    = [progress_line "type-A" 1 2; progress_line "type-A" 2 2;
       done_line "type-A" 2].
Proof.
  assert (H1 : IsExcluded no_filter "type-A" = false) by reflexivity.
  assert (H2 : import_type tt (provider account) None None no_filter start_logger
                 "type-A" start
               = (Next (logger_of (fst (fst type_A_iteration))),
                  snd (fst type_A_iteration), snd type_A_iteration))
    by (vm_compute; reflexivity).
  split; [exact H1|]. split; [exact H2|].
  exact (X5_progress_lines_count_the_fetched_resources
           tt (provider account) None None no_filter start_logger _ "type-A"
           start _ _ H1 H2).
Defined.

Lemma X9_witness :
  2 < RetryTimes /\
  all_attempts_fail 2 (Read 2 no_filter) start = true /\
  fst (Read 2 no_filter (after_attempts 2 (Read 2 no_filter) start)) = None /\
  exists rds : list (Event nat nat unit),
    List.length rds = 2 /\
    snd (import_unit (Some config_writer) (Some state_writer) no_filter
           start_logger "type-A" 2 start)
    = rds ++ EvRead 2 None
          :: serialization (Some config_writer) (Some state_writer) start_logger 2.
Proof.
  assert (H1 : 2 < RetryTimes) by (simpl; lia).
  assert (H2 : all_attempts_fail 2 (Read 2 no_filter) start = true) by reflexivity.
  assert (H3 : fst (Read 2 no_filter (after_attempts 2 (Read 2 no_filter) start))
               = None) by reflexivity.
  split; [exact H1|]. split; [exact H2|]. split; [exact H3|].
  destruct (X9_a_read_that_succeeds_in_time_is_serialized
              (Ctx:=unit) (Some config_writer) (Some state_writer) no_filter
              start_logger "type-A" 2 2 start H1 H2 H3) as [rds [HL [_ HK]]].
  exists rds. split; [exact HL|].
  destruct (HK (Next tt)
               (snd (fst ((bind (unit_HCL (Ctx:=unit) (Some config_writer)
                                   start_logger "type-A" 2)
                                (fun _ => unit_State (Some state_writer)
                                            start_logger "type-A" 2))
                           (snd (Read 2 no_filter
                                   (after_attempts 2 (Read 2 no_filter) start))))))
               (snd ((bind (unit_HCL (Ctx:=unit) (Some config_writer)
                              start_logger "type-A" 2)
                           (fun _ => unit_State (Some state_writer)
                                       start_logger "type-A" 2))
                      (snd (Read 2 no_filter
                              (after_attempts 2 (Read 2 no_filter) start))))))
    as [HE HS]; [vm_compute; reflexivity|].
  rewrite HE. cbn [snd]. now rewrite (HS eq_refl).
Defined.

Lemma X10_witness :
  0 < RetryTimes /\ read_before_serialized (snd cancelled_run).
Proof.
  assert (H : 0 < RetryTimes) by (simpl; lia).
  split; [exact H|].
  exact (X10_no_serialization_without_a_successful_read
           tt (provider account) (Some config_writer) (Some state_writer)
           two_types start H).
Defined.

Lemma X12_witness :
  Codegen.Zone instance = true /\
  snd (Codegen.Execute string Codegen.buffer_Write
         (Codegen.with_Region true instance) EmptyString)
    = snd (Codegen.Execute string Codegen.buffer_Write instance EmptyString).
Proof.
  assert (H : Codegen.Zone instance = true) by reflexivity.
  split; [exact H|].
  exact (proj1 (proj2 (CodegenFacts.X12_Zone_overrides_Region
                         string Codegen.buffer_Write instance true EmptyString H))).
Defined.

Lemma X15_witness :
  Codegen.Execute (nat * string) Codegen.bounded_Write Codegen.firewall
    (30, EmptyString)
    = (Some (Wrapf (ErrExternal "short write")
               ("failed to Execute with Function "
                  ++ Codegen.fmt_plus_v (Codegen.defaults Codegen.firewall))),
       snd short_write_run) /\
  exists done c rest,
    Codegen.chunks_of (Codegen.defaults Codegen.firewall) Codegen.functionTmpl
      = done ++ c :: rest /\
    List.length done = 2.
Proof.
  assert (H : Codegen.Execute (nat * string) Codegen.bounded_Write Codegen.firewall
                (30, EmptyString)
              = (Some (Wrapf (ErrExternal "short write")
                         ("failed to Execute with Function "
                            ++ Codegen.fmt_plus_v
                                 (Codegen.defaults Codegen.firewall))),
                 snd short_write_run)) by (vm_compute; reflexivity).
  split; [exact H|].
  destruct (CodegenFacts.X15_Execute_stops_at_the_first_failed_write
              _ _ _ _ _ _ H) as [done [c [rest [s0 [e0 [HC [HD [HW _]]]]]]]].
  exists done, c, rest. split; [exact HC|].
  destruct done as [|d0 [|d1 [|d2 done]]]; [| |reflexivity|];
    vm_compute in HC; inversion HC; subst; vm_compute in HD, HW;
    inversion HD; subst; try discriminate.
Defined.

End MoreRuns.

(** ** The work a run owes, and where a resource iteration stops *)

Section Owing.

Context {W Res Wr Ctx : Type}.
Context {RT : Runtime} {RI : Resource W Res Wr} {WI : Writer W Wr}.

Local Open Scope import_scope.

Notation "'Ev'" := (Event Res Wr Ctx).
Notation "'Act'" := (M W Res Wr Ctx).

Variable ctx : Ctx.
Variable p : Provider W Res Ctx.
Variables hcl tfstate : option Wr.
Variable f : Filter.

(** *** Reading the events of a sequence *)

Lemma replay_app (a b : list Ev) w :
  replay p f (a ++ b) w = replay p f b (replay p f a w).
Proof. revert w. induction a as [|ev a IH]; intros w; simpl; auto. Qed.

Lemma expanded_app (a b : list Ev) : expanded (a ++ b) = expanded a ++ expanded b.
Proof. apply flat_map_app. Qed.

Lemma fetched_along_app (a b : list Ev) w :
  fetched_along p f (a ++ b) w
    = fetched_along p f a w ++ fetched_along p f b (replay p f a w).
Proof.
  revert w. induction a as [|ev a IH]; intros w; simpl; [reflexivity|].
  now rewrite IH, app_assoc.
Qed.

Lemma units_along_app (a b : list Ev) w :
  units_along p f (a ++ b) w
    = units_along p f a w ++ units_along p f b (replay p f a w).
Proof.
  revert w. induction a as [|ev a IH]; intros w; simpl; [reflexivity|].
  now rewrite IH, app_assoc.
Qed.

Lemma finished_units_app (a b : list Ev) cur :
  finished_units cur (a ++ b)
    = finished_units cur a ++ finished_units (reading cur a) b.
Proof.
  revert cur. induction a as [|ev a IH]; intros cur; simpl; [reflexivity|].
  destruct ev as [s|l k v|c t e|r e|r [e|]|r h e|r s e|wr e]; simpl;
    try apply IH.
  - destruct (String.eqb k "error"); [|apply IH].
    destruct cur; simpl; now rewrite IH.
  - now rewrite IH.
Qed.

Lemma replay_notes (tr : list Ev) w :
  Forall (fun ev => is_note ev = true) tr -> replay p f tr w = w.
Proof.
  induction 1 as [|ev tr Hev _ IH]; simpl; [reflexivity|].
  destruct ev; try discriminate; exact IH.
Qed.

Lemma expanded_notes (tr : list Ev) :
  Forall (fun ev => is_note ev = true) tr -> expanded tr = [].
Proof.
  intros H. apply flat_map_nil. eapply Forall_impl; [|exact H].
  intros ev Hev. destruct ev; try discriminate; reflexivity.
Qed.

Lemma fetched_along_notes (tr : list Ev) w :
  Forall (fun ev => is_note ev = true) tr -> fetched_along p f tr w = [].
Proof.
  induction 1 as [|ev tr Hev _ IH]; simpl; [reflexivity|].
  destruct ev; try discriminate; exact IH.
Qed.

Lemma units_along_notes (tr : list Ev) w :
  Forall (fun ev => is_note ev = true) tr -> units_along p f tr w = [].
Proof.
  induction 1 as [|ev tr Hev _ IH]; simpl; [reflexivity|].
  destruct ev; try discriminate; exact IH.
Qed.

Lemma reading_app (a b : list Ev) cur :
  reading cur (a ++ b) = reading (reading cur a) b.
Proof.
  revert cur. induction a as [|ev a IH]; intros cur; simpl; [reflexivity|].
  destruct ev as [s|l k v|c t e|r e|r [e|]|r h e|r s e|wr e]; simpl;
    try apply IH.
  destruct (String.eqb k "error"); apply IH.
Qed.

Lemma finished_units_notes (tr : list Ev) cur :
  Forall (fun ev => is_note ev = true) tr ->
  finished_units cur tr = [] /\ reading cur tr = cur.
Proof.
  induction 1 as [|ev tr Hev _ IH]; simpl; [auto|].
  destruct ev as [s|l k v|c t e|r e|r e|r h e|r s e|wr e]; try discriminate;
    [exact IH|].
  simpl in Hev. destruct (String.eqb k "error"); [discriminate|exact IH].
Qed.

(** The events of the unit loop: no fetch, no expansion. *)
Lemma fetched_along_units (tr : list Ev) w :
  Forall (fun ev => fetch_type ev = []) tr -> fetched_along p f tr w = [].
Proof.
  intros H. revert w. induction H as [|ev tr Hev _ IH]; intros w; simpl;
    [reflexivity|].
  destruct ev; try discriminate; apply IH.
Qed.

Lemma units_along_units (tr : list Ev) w :
  Forall (fun ev => is_expanded ev = false) tr -> units_along p f tr w = [].
Proof.
  intros H. revert w. induction H as [|ev tr Hev _ IH]; intros w; simpl;
    [reflexivity|].
  destruct ev as [s|l k v|c t e|r [e|]|r e|r h e|r s e|wr e];
    try discriminate; apply IH.
Qed.

Lemma expanded_units (tr : list Ev) :
  Forall (fun ev => expand_of ev = []) tr -> expanded tr = [].
Proof. apply flat_map_nil. Qed.

(** *** The events replay to the world *)

Lemma replays_ret {A} (a : A) : replays p f (ret (Ctx:=Ctx) a).
Proof. intros w. reflexivity. Qed.

Lemma replays_abort {A} e : replays p f (abort (Ctx:=Ctx) (A:=A) e).
Proof. intros w. reflexivity. Qed.

Lemma replays_note (ev : Ev) : is_note ev = true -> replays p f (emit ev).
Proof. intros H w. simpl. destruct ev; try discriminate; reflexivity. Qed.

Lemma replays_bind {A B} (m : Act A) (k : A -> Act B) :
  replays p f m -> (forall a, replays p f (k a)) -> replays p f (bind m k).
Proof.
  intros Hm Hk w. unfold bind. specialize (Hm w).
  destruct (m w) as [[[a|e] w1] tr1]; simpl in *; [|exact Hm].
  specialize (Hk a w1). destruct (k a w1) as [[o w2] tr2]; simpl in *.
  now rewrite replay_app, Hm.
Qed.

Lemma replays_Resources t : replays p f (call_Resources p ctx t f).
Proof.
  intros w. unfold call_Resources, call.
  destruct (Resources p ctx t f w) as [x w1] eqn:E. simpl. now rewrite E.
Qed.

Lemma replays_ImportState re : replays p f (call_ImportState (Ctx:=Ctx) re).
Proof.
  intros w. unfold call_ImportState, call.
  destruct (ImportState re w) as [x w1] eqn:E. simpl. now rewrite E.
Qed.

Lemma replays_Read r : replays p f (call_Read (Ctx:=Ctx) r f).
Proof.
  intros w. unfold call_Read, call.
  destruct (Read r f w) as [x w1] eqn:E. simpl. now rewrite E.
Qed.

Lemma replays_HCL r h : replays p f (call_HCL (Ctx:=Ctx) r h).
Proof.
  intros w. unfold call_HCL, call.
  destruct (HCL r h w) as [x w1] eqn:E. simpl. now rewrite E.
Qed.

Lemma replays_State r s : replays p f (call_State (Ctx:=Ctx) r s).
Proof.
  intros w. unfold call_State, call.
  destruct (State r s w) as [x w1] eqn:E. simpl. now rewrite E.
Qed.

Lemma replays_Retry r n : forall last, replays p f (Retry n (call_Read (Ctx:=Ctx) r f) last).
Proof.
  induction n as [|n IH]; intros last; simpl; [apply replays_ret|].
  apply replays_bind; [apply replays_Read|].
  intros [e|]; [apply IH|apply replays_ret].
Qed.

Lemma replays_import_unit logger t r :
  replays p f (import_unit (Ctx:=Ctx) hcl tfstate f logger t r).
Proof.
  unfold import_unit, RetryDefault. apply replays_bind; [apply replays_Retry|].
  intros [e|]; [intros w; reflexivity|].
  unfold unit_HCL, unit_State, Log.
  apply replays_bind.
  - destruct hcl as [h|]; [|apply replays_ret].
    apply replays_bind; [now apply replays_note|]. intros _.
    apply replays_bind; [apply replays_HCL|].
    intros [e|]; [apply replays_abort|apply replays_ret].
  - intros _. destruct tfstate as [s|]; [|apply replays_ret].
    apply replays_bind; [now apply replays_note|]. intros _.
    apply replays_bind; [apply replays_State|].
    intros [e|]; [apply replays_abort|apply replays_ret].
Qed.

Lemma replays_range_units logger t us :
  replays p f (range_units (Ctx:=Ctx) hcl tfstate f logger t us).
Proof.
  induction us as [|r us IH]; simpl; [apply replays_ret|].
  apply replays_bind; [apply replays_import_unit|intros _; exact IH].
Qed.

Lemma replays_import_resource logger t n i re :
  replays p f (import_resource (Ctx:=Ctx) hcl tfstate f logger t n i re).
Proof.
  unfold import_resource, Fprintf, Log.
  apply replays_bind; [now apply replays_note|]. intros _.
  apply replays_bind; [now apply replays_note|]. intros _.
  apply replays_bind; [apply replays_ImportState|].
  intros x. destruct (snd x); [apply replays_abort|apply replays_range_units].
Qed.

Lemma replays_range_resources logger t n rs :
  forall i, replays p f (range_resources (Ctx:=Ctx) hcl tfstate f logger t n i rs).
Proof.
  induction rs as [|r rs IH]; intros i; simpl; [apply replays_ret|].
  apply replays_bind; [apply replays_import_resource|intros _; apply IH].
Qed.

Lemma replays_import_type logger t :
  replays p f (import_type ctx p hcl tfstate f logger t).
Proof.
  unfold import_type, Fprintf, Log. destruct (IsExcluded f t).
  - apply replays_bind; [now apply replays_note|]. intros _. apply replays_ret.
  - apply replays_bind; [now apply replays_note|]. intros _.
    apply replays_bind; [apply replays_Resources|].
    intros x. destruct (snd x); [apply replays_abort|].
    apply replays_bind; [apply replays_range_resources|]. intros _.
    apply replays_bind.
    + destruct (Nat.ltb 0 (List.length (fst x)));
        [now apply replays_note|apply replays_ret].
    + intros _. apply replays_bind; [now apply replays_note|].
      intros _. apply replays_ret.
Qed.

Lemma replays_run {A} (c : Act A) w o w' tr :
  replays p f c -> c w = (o, w', tr) -> replay p f tr w = w'.
Proof. intros H E. specialize (H w). now rewrite E in H. Qed.

(** *** The events of one unit *)

Lemma import_unit_run logger t r w w' (tr : list Ev) :
  0 < RetryTimes ->
  import_unit hcl tfstate f logger t r w = (Next tt, w', tr) ->
  unit_run hcl tfstate logger r tr.
Proof.
  intros Hpos H. unfold import_unit, RetryDefault in H.
  destruct (Retry_spec (Ctx:=Ctx) f r RetryTimes None w) as [err [w1 [tr1 [E S]]]].
  unfold bind at 1 in H. rewrite E in H.
  destruct err as [c|].
  - unfold Log, emit in H. inversion H; subst.
    destruct S as [HF [HL [[-> _]|[rds [e0 [-> ->]]]]]]; [simpl in HL; lia|].
    rewrite Cause_idem, <- app_assoc. simpl.
    apply Forall_app in HF. destruct HF as [HF _].
    apply ur_skipped; [assumption|].
    rewrite length_app in HL. simpl in HL. lia.
  - destruct S as [[Hn _]|[rds [-> [HF HL]]]]; [lia|].
    match type of H with
    | context [?c w1] => destruct (c w1) as [[o2 w2] tr2] eqn:E2
    end.
    inversion H; subst.
    apply serialization_run in E2. subst tr2.
    rewrite <- app_assoc. simpl. now apply ur_done.
Qed.

Lemma serialization_cut logger t r w e w' (tr : list Ev) :
  (unit_HCL hcl logger t r ;; unit_State tfstate logger t r) w = (Return e, w', tr) ->
  (exists h e0,
      hcl = Some h /\
      e = Wrapf e0 ("error while calculating the Config of resource " ++ fmt_q t) /\
      tr = [EvLog logger "msg" (VStr "calculating HCL"); EvHCL r h (Some e0)]) \/
  (exists s e0,
      tfstate = Some s /\
      e = Wrapf e0 ("error while calculating the satate of resource " ++ fmt_q t) /\
      tr = match hcl with
           | Some h => [EvLog logger "msg" (VStr "calculating HCL"); EvHCL r h None]
           | None => []
           end ++ [EvLog logger "msg" (VStr "calculating TFState");
                   EvState r s (Some e0)]).
Proof.
  unfold unit_HCL, unit_State, bind, Log, emit, call_HCL, call_State, call,
    ret, abort.
  destruct hcl as [h|], tfstate as [s|].
  - destruct (HCL r h w) as [[e0|] w1].
    + intros H. inversion H; subst. left. eauto.
    + destruct (State r s w1) as [[e0|] w2]; [|discriminate].
      intros H. inversion H; subst. right. eauto.
  - destruct (HCL r h w) as [[e0|] w1]; [|discriminate].
    intros H. inversion H; subst. left. eauto.
  - destruct (State r s w) as [[e0|] w1]; [|discriminate].
    intros H. inversion H; subst. right. eauto.
  - discriminate.
Qed.

Lemma import_unit_cut logger t r w e w' (tr : list Ev) :
  0 < RetryTimes ->
  import_unit hcl tfstate f logger t r w = (Return e, w', tr) ->
  unit_cut hcl tfstate logger t r e tr.
Proof.
  intros Hpos H. unfold import_unit, RetryDefault in H.
  destruct (Retry_spec (Ctx:=Ctx) f r RetryTimes None w) as [err [w1 [tr1 [E S]]]].
  unfold bind at 1 in H. rewrite E in H.
  destruct err as [c|]; [unfold Log, emit in H; discriminate|].
  destruct S as [[Hn _]|[rds [-> [HF HL]]]]; [lia|].
  match type of H with
  | context [?c w1] => destruct (c w1) as [[o2 w2] tr2] eqn:E2
  end.
  inversion H; subst.
  apply serialization_cut in E2.
  destruct E2 as [[h [e0 [Hh [-> ->]]]] | [s [e0 [Hs [-> ->]]]]];
    rewrite <- app_assoc; simpl.
  - now apply uc_config.
  - now apply uc_state.
Qed.

Lemma range_units_runs logger t us :
  0 < RetryTimes ->
  forall w w' (tr : list Ev),
    range_units hcl tfstate f logger t us w = (Next tt, w', tr) ->
    exists blocks,
      tr = List.concat blocks /\ Forall2 (unit_run hcl tfstate logger) us blocks.
Proof.
  intros Hpos. induction us as [|r us IH]; intros w w' tr H.
  - inversion H; subst. exists []. split; [reflexivity|constructor].
  - simpl in H. inv_bind H; [|discriminate].
    destruct a. apply import_unit_run in Hm; [|assumption].
    destruct (IH _ _ _ Hk) as [blocks [-> HB]].
    exists (tr0 :: blocks). subst tr. split; [reflexivity|]. now constructor.
Qed.

(** Where the unit loop returns: the units before went through, the unit
    at which it returns was read and failed to serialize, the units after
    it were not touched. *)
Lemma range_units_cut logger t us :
  0 < RetryTimes ->
  forall w e w' (tr : list Ev),
    range_units hcl tfstate f logger t us w = (Return e, w', tr) ->
    exists done u rest blocks cut,
      us = done ++ u :: rest /\
      tr = List.concat blocks ++ cut /\
      Forall2 (unit_run hcl tfstate logger) done blocks /\
      unit_cut hcl tfstate logger t u e cut.
Proof.
  intros Hpos. induction us as [|r us IH]; intros w e w' tr H.
  - discriminate.
  - simpl in H. inv_bind H.
    + destruct a. apply import_unit_run in Hm; [|assumption].
      destruct (IH _ _ _ _ Hk) as [done [u [rest [blocks [cut [-> [-> [HB HC]]]]]]]].
      exists (r :: done), u, rest, (tr0 :: blocks), cut. subst tr.
      split; [reflexivity|]. split; [simpl; now rewrite app_assoc|].
      split; [now constructor|assumption].
    + inversion Htr; subst. apply import_unit_cut in Hm; [|assumption].
      exists [], r, us, [], tr. repeat split; auto.
Qed.

(** *** Every unit is read to an end *)

Lemma finished_failed_reads r (rds rest : list Ev) :
  Forall (failed_read r) rds ->
  forall cur,
    finished_units cur (rds ++ rest)
      = finished_units (match rds with [] => cur | _ => Some r end) rest /\
    reading cur (rds ++ rest)
      = reading (match rds with [] => cur | _ => Some r end) rest.
Proof.
  induction 1 as [|ev rds [e ->] _ IH]; intros cur; simpl; [auto|].
  destruct (IH (Some r)) as [H1 H2]. rewrite H1, H2.
  destruct rds; auto.
Qed.

Lemma unit_run_finished logger r (tr : list Ev) :
  unit_run hcl tfstate logger r tr ->
  finished_units None tr = [r] /\ reading None tr = None.
Proof.
  intros [rds e0 HF HL | rds HF HL].
  - destruct (finished_failed_reads r rds
                [EvRead r (Some e0); EvLog logger "error" (VErr (Cause e0))]
                HF None) as [-> ->].
    simpl. auto.
  - destruct (finished_failed_reads r rds
                (EvRead r None :: serialization hcl tfstate logger r)
                HF None) as [-> ->].
    unfold serialization. destruct hcl, tfstate; simpl; auto.
Qed.

Lemma units_finished us : forall (blocks : list (list Ev)) logger,
  Forall2 (unit_run hcl tfstate logger) us blocks ->
  finished_units None (List.concat blocks) = us /\
  reading None (List.concat blocks) = None.
Proof.
  induction us as [|r us IH]; intros blocks logger H; inversion H; subst;
    simpl; [auto|].
  destruct (unit_run_finished _ _ _ H2) as [H1 H3].
  destruct (IH _ _ H4) as [H5 H6].
  rewrite finished_units_app, reading_app, H1, H3, H5, H6. auto.
Qed.

Lemma range_units_quiet logger t us :
  emits_only (fun ev : Ev => fetch_type ev = [] /\ is_expanded ev = false /\
                             expand_of ev = [])
    (range_units hcl tfstate f logger t us).
Proof.
  induction us as [|r us IH]; simpl; [apply emits_only_ret|].
  apply emits_only_bind; [|intros _; exact IH].
  unfold import_unit, RetryDefault, unit_HCL, unit_State, call_HCL, call_State.
  apply emits_only_bind; [apply Retry_emits; auto|].
  emits; auto.
Qed.

(** *** What a loop that goes on has done *)

Lemma import_resource_owed logger t n i re w w' (tr : list Ev) :
  import_resource hcl tfstate f logger t n i re w = (Next tt, w', tr) ->
  expanded tr = [re] /\
  fetched_along p f tr w = [] /\
  (0 < RetryTimes ->
   finished_units None tr = units_along p f tr w /\ reading None tr = None).
Proof.
  unfold import_resource, Fprintf, Log. intros H.
  apply bind_emit_inv in H. destruct H as [tr2 [H ->]].
  apply bind_emit_inv in H. destruct H as [tr3 [H ->]].
  unfold call_ImportState in H.
  apply bind_call_inv in H. destruct H as [tr4 [H ->]].
  destruct (ImportState re w) as [[res [e|]] w1] eqn:EI; cbn [fst snd] in H;
    [discriminate|].
  pose proof (emits_only_run _ _ _ _ _ _ (range_units_quiet _ _ _) H) as HQ.
  assert (HQ1 : Forall (fun ev : Ev => fetch_type ev = []) tr4)
    by (eapply Forall_impl; [|exact HQ]; simpl; tauto).
  assert (HQ2 : Forall (fun ev : Ev => is_expanded ev = false) tr4)
    by (eapply Forall_impl; [|exact HQ]; simpl; tauto).
  assert (HQ3 : Forall (fun ev : Ev => expand_of ev = []) tr4)
    by (eapply Forall_impl; [|exact HQ]; simpl; tauto).
  split; [|split].
  - change (re :: expanded tr4 = [re]). now rewrite (expanded_units _ HQ3).
  - simpl. now apply fetched_along_units.
  - intros Hpos. simpl. rewrite EI. cbn [fst snd].
    rewrite (units_along_units _ _ HQ2), app_nil_r.
    destruct (range_units_runs _ _ _ Hpos _ _ _ H) as [blocks [-> HB]].
    now apply units_finished in HB.
Qed.

Lemma range_resources_owed logger t n rs :
  forall i w w' (tr : list Ev),
    range_resources hcl tfstate f logger t n i rs w = (Next tt, w', tr) ->
    expanded tr = rs /\
    fetched_along p f tr w = [] /\
    (0 < RetryTimes ->
     finished_units None tr = units_along p f tr w /\ reading None tr = None).
Proof.
  induction rs as [|re rs IH]; intros i w w' tr H.
  - inversion H; subst. simpl. auto.
  - simpl in H. inv_bind H; [|discriminate]. destruct a.
    pose proof (replays_run _ _ _ _ _ (replays_import_resource _ _ _ _ _) Hm) as HW.
    apply import_resource_owed in Hm. destruct Hm as [HE [HF HU]].
    apply IH in Hk. destruct Hk as [HE' [HF' HU']].
    subst tr.
    rewrite expanded_app, fetched_along_app, units_along_app, finished_units_app,
      reading_app, HW, HE, HE', HF, HF'.
    split; [reflexivity|]. split; [reflexivity|].
    intros Hpos. destruct (HU Hpos) as [-> ->]. destruct (HU' Hpos) as [-> ->].
    auto.
Qed.

Lemma import_type_owed logger t w l w' (tr : list Ev) :
  import_type ctx p hcl tfstate f logger t w = (Next l, w', tr) ->
  expanded tr = fetched_along p f tr w /\
  (0 < RetryTimes ->
   finished_units None tr = units_along p f tr w /\ reading None tr = None).
Proof.
  unfold import_type. destruct (IsExcluded f t).
  - unfold Log. intros H. apply bind_emit_inv in H. destruct H as [tr2 [H ->]].
    inversion H; subst. simpl. auto.
  - unfold Log at 1. intros H.
    apply bind_emit_inv in H. destruct H as [tr2 [H ->]].
    unfold call_Resources in H.
    apply bind_call_inv in H. destruct H as [tr3 [H ->]].
    destruct (Resources p ctx t f w) as [[rs [e|]] w1] eqn:ER; cbn [fst snd] in H;
      [discriminate|].
    inv_bind H; [|discriminate]. destruct a.
    pose proof (replays_run _ _ _ _ _ (replays_range_resources _ _ _ _ _) Hm) as HW.
    apply range_resources_owed in Hm. destruct Hm as [HE [HF HU]].
    assert (HN : Forall (fun ev : Ev => is_note ev = true) tr0).
    { eapply emits_only_run; [|exact Hk]. unfold Fprintf, Log. emits; reflexivity. }
    subst tr3. simpl. rewrite ER. cbn [fst snd].
    rewrite expanded_app, fetched_along_app, units_along_app, finished_units_app,
      reading_app, HW, HE, HF, (expanded_notes _ HN), (fetched_along_notes _ _ HN),
      (units_along_notes _ _ HN).
    split; [now rewrite !app_nil_r|].
    intros Hpos. destruct (HU Hpos) as [-> ->].
    destruct (finished_units_notes _ None HN) as [-> ->].
    now rewrite !app_nil_r.
Qed.

Lemma range_types_owed types :
  forall logger w l w' (tr : list Ev),
    range_types ctx p hcl tfstate f logger types w = (Next l, w', tr) ->
    expanded tr = fetched_along p f tr w /\
    (0 < RetryTimes ->
     finished_units None tr = units_along p f tr w /\ reading None tr = None).
Proof.
  induction types as [|t types IH]; intros logger w l w' tr H.
  - inversion H; subst. simpl. auto.
  - simpl in H. inv_bind H; [|discriminate].
    pose proof (replays_run _ _ _ _ _ (replays_import_type _ _) Hm) as HW.
    apply import_type_owed in Hm. destruct Hm as [HE HU].
    apply IH in Hk. destruct Hk as [HE' HU'].
    subst tr.
    rewrite expanded_app, fetched_along_app, units_along_app, finished_units_app,
      reading_app, HW, HE, HE'.
    split; [reflexivity|].
    intros Hpos. destruct (HU Hpos) as [-> ->]. destruct (HU' Hpos) as [-> ->].
    auto.
Qed.

(** *** Excluded types, expansions and runs without sinks *)

(** C3, as the code has it. A type the filter marks as excluded is never
    handed to [Provider.Resources], whichever way the universe was
    resolved. The run emits one "excluded" entry about it for each of its
    occurrences among the types the loop went through, which are a prefix
    of the universe, and the whole universe when the run returns nil: then
    there is one entry per occurrence in the universe, so exactly one for
    a type the universe lists once. *)
Theorem C3_excluded_type_is_skipped_with_one_entry_per_occurrence
    (t : string) (w : W) :
  let res := fst (fst (Import ctx p hcl tfstate f w)) in
  let tr := snd (Import ctx p hcl tfstate f w) in
  IsExcluded f t = true ->
  ~ In t (fetched_types tr) /\
  (exists rest, universe p f = processed_types tr ++ rest) /\
  excluded_events t tr = count_occ string_dec (processed_types tr) t /\
  (res = None ->
   processed_types tr = universe p f /\
   excluded_events t tr = count_occ string_dec (universe p f) t /\
   (In t (universe p f) -> NoDup (universe p f) -> excluded_events t tr = 1)).
Proof.
  intros res tr HX. subst res tr.
  destruct (Import ctx p hcl tfstate f w) as [[res w'] tr] eqn:E.
  destruct (Import_progress _ _ _ _ _ _ _ _ _ E)
    as [done [rest [HU [HP [HF [HE HN]]]]]].
  cbn [fst snd]. rewrite HF, HE, HP, (count_occ_filter_true _ _ _ HX).
  split; [|split; [|split]].
  - intros HI. apply filter_In in HI. destruct HI as [_ HI].
    rewrite HX in HI. discriminate.
  - now exists rest.
  - reflexivity.
  - intros ->. rewrite (HN eq_refl), app_nil_r in HU. subst done.
    split; [reflexivity|]. split; [reflexivity|].
    intros HI HD. now apply NoDup_count_occ'.
Qed.

(** C6, as the code has it. When the expansion of a fetched resource
    succeeds with [k] more resources, the iteration, after its progress
    line, its log entry and the expansion, processes the resource and then
    the [k] expansions in the order returned, one unit after the other.
    A unit is read, at most [RetryTimes] times; when every attempt fails
    the cause is logged and the unit goes to no sink, otherwise it goes to
    every configured sink. When no serialization fails the events are
    those of exactly [k+1] units, in that order. When a serialization
    fails, [Import] returns at that unit: the units before it were
    processed, the units after it were not. *)
Theorem C6_expansion_units_are_processed_in_order
    (logger0 : Logger) (t : string)
    (n i : nat) (re : Res) (res : list Res) (w w1 : W) :
  0 < RetryTimes ->
  ImportState re w = ((res, None), w1) ->
  let logger :=
    With (With (With logger0 "id" (VStr (ID re))) "total" (VInt n))
         "current" (VInt (i + 1)) in
  let opening : list Ev :=
    [EvOut (CR ++ "Importing " ++ t ++ " [" ++ fmt_d (i + 1) ++ "/"
               ++ fmt_d n ++ "]");
     EvLog logger "msg" (VStr "reading from TF");
     EvImportState re None] in
  let run := import_resource (Ctx:=Ctx) hcl tfstate f logger0 t n i re w in
  match fst (fst run) with
  | Next _ =>
      exists blocks,
        snd run = opening ++ List.concat blocks /\
        Forall2 (unit_run hcl tfstate logger) (re :: res) blocks /\
        List.length blocks = S (List.length res)
  | Return e =>
      exists done u rest blocks cut,
        re :: res = done ++ u :: rest /\
        snd run = opening ++ List.concat blocks ++ cut /\
        Forall2 (unit_run hcl tfstate logger) done blocks /\
        unit_cut hcl tfstate logger t u e cut
  end.
Proof.
  intros Hpos HI logger opening run.
  assert (HE : run =
    (fst (fst (range_units (Ctx:=Ctx) hcl tfstate f logger t (re :: res) w1)),
     snd (fst (range_units (Ctx:=Ctx) hcl tfstate f logger t (re :: res) w1)),
     opening ++ snd (range_units (Ctx:=Ctx) hcl tfstate f logger t (re :: res) w1))).
  { assert (HB : forall K : list Res * option error -> M W Res Wr Ctx unit,
              bind (call_ImportState re) K w =
                (fst (fst (K (res, None) w1)), snd (fst (K (res, None) w1)),
                 EvImportState re None :: snd (K (res, None) w1))).
    { intros K. unfold bind, call_ImportState, call. rewrite HI.
      now destruct (K (res, None) w1) as [[o w2] tr2]. }
    unfold run, import_resource, Fprintf, Log.
    rewrite bind_emit, bind_emit, HB. reflexivity. }
  rewrite HE.
  destruct (range_units (Ctx:=Ctx) hcl tfstate f logger t (re :: res) w1)
    as [[o w2] tr2] eqn:ER.
  cbn [fst snd]. destruct o as [[]|e].
  - destruct (range_units_runs logger t (re :: res) Hpos _ _ _ ER)
      as [blocks [-> HB]].
    exists blocks. split; [reflexivity|]. split; [assumption|].
    apply Forall2_length in HB. simpl in HB. auto.
  - destruct (range_units_cut logger t (re :: res) Hpos _ _ _ _ ER)
      as [done [u [rest [blocks [cut [HU [-> [HB HC]]]]]]]].
    exists done, u, rest, blocks, cut. auto.
Qed.

End Owing.

(** ** Runs without sinks *)

Section Sinkless.

Context {W Res Wr Ctx : Type}.
Context {RT : Runtime} {RI : Resource W Res Wr} {WI : Writer W Wr}.

Notation "'Ev'" := (Event Res Wr Ctx).

Variable ctx : Ctx.
Variable p : Provider W Res Ctx.
Variable f : Filter.

(** C9. With no sink at all, a run whose filter is valid and in which no
    fetch and no expansion fails returns nil. It fetched exactly the types
    of the universe that are not excluded, in order. It handed to
    [ImportState] exactly the resources those fetches returned, in order.
    It read to an end, with a successful [Read] or with the error entry
    after the last failed attempt, exactly the units those expansions
    call for, each expanded resource followed by its expansions, in
    order. It made no serialization call and no [Sync] call. *)
Theorem C9_no_sink_means_fetch_and_read_work_only (w : W) :
  let res := fst (fst (Import ctx p None None f w)) in
  let tr := snd (Import ctx p None None f w) in
  (forall x, In x (Include f ++ Exclude f) -> HasResourceType p x = true) ->
  (forall c t e, ~ In (EvResources c t (Some e)) tr) ->
  (forall r e, ~ In (EvImportState r (Some e)) tr) ->
  res = None /\
  fetched_types tr = filter (fun t => negb (IsExcluded f t)) (universe p f) /\
  expanded tr = fetched_along p f tr w /\
  (0 < RetryTimes ->
   finished_units None tr = units_along p f tr w /\ reads_follow tr) /\
  filter is_serialization tr = [] /\
  syncs tr = [].
Proof.
  intros res tr HV HF HI. subst res tr.
  assert (HRe : 0 < RetryTimes -> reads_follow (snd (Import ctx p None None f w)))
    by (intros Hpos; now apply Import_reads).
  destruct (Import ctx p None None f w) as [[res w'] tr] eqn:E.
  cbn [fst snd] in *.
  pose proof (Import_progress _ _ _ _ _ _ _ _ _ E) as HP.
  pose proof E as E0. apply Import_inv in E.
  apply (resolve_inr_iff p f) in HV. destruct HV as [types HR].
  destruct E as [[e [HR' _]] | [types' [ol [w1 [tr1 [tr2 [HR' [HL [-> HS]]]]]]]]];
    [congruence|].
  pose proof (range_types_emits ctx p None None f types' start_logger w) as HE.
  rewrite HL in HE. simpl in HE.
  assert (Hres : (exists l, ol = Next l) /\ res = None /\ tr2 = []).
  { destruct ol as [l|e].
    - destruct HS as [o [HS ->]].
      unfold sync_hcl, sync_tfstate, bind, ret in HS.
      inversion HS; subst. eauto.
    - exfalso. destruct HS as [-> [_ ->]].
      pose proof (range_types_discipline ctx p None None f types' start_logger w)
        as HD.
      rewrite HL in HD. destruct HD as [pre [ev [t [-> [_ [Hfe _]]]]]].
      rewrite Forall_forall in HE.
      assert (Hin : In ev (pre ++ [ev])) by (apply in_or_app; right; simpl; auto).
      specialize (HE _ Hin).
      assert (Hin' : In ev (banner f ++ (pre ++ [ev]) ++ [])).
      { apply in_or_app. right. apply in_or_app. now left. }
      destruct ev as [| | c t0 [e0|] | r [e0|] | | r h [e0|] | r s [e0|] |];
        simpl in Hfe; try discriminate.
      + exact (HF _ _ _ Hin').
      + exact (HI _ _ Hin').
      + inversion HE as [ev' HB| | |]; subst. inversion HB; subst. discriminate.
      + inversion HE as [ev' HB| | |]; subst. inversion HB; subst. discriminate. }
  destruct Hres as [[l ->] [-> ->]].
  destruct HP as [done [rest [HU [_ [HFt [_ HN]]]]]].
  destruct (range_types_owed ctx p None None f _ _ _ _ _ _ HL) as [HO1 HO2].
  split; [reflexivity|]. split; [|split; [|split]].
  - rewrite HFt, HU, (HN eq_refl). now rewrite app_nil_r.
  - rewrite app_nil_r. exact HO1.
  - intros Hpos. split; [|now apply HRe].
    rewrite app_nil_r. destruct (HO2 Hpos) as [HO3 _]. exact HO3.
  - rewrite app_nil_r. unfold syncs. rewrite !filter_app. simpl.
    split; apply filter_nil; (eapply Forall_impl; [|exact HE]).
    + intros ev Hev.
      eapply loop_event_not_serialization; [| |exact Hev]; reflexivity.
    + apply loop_event_no_sync.
Qed.

End Sinkless.

(** ** Excluded types, expansions and runs without sinks on concrete accounts *)

Module FurtherRuns.

Import Demo Accounts.

(** C3, as the claim states it, on the concrete account. type-B is in the
    universe and excluded in both runs. In the first the caller's context
    is canceled from the start: the fetch of type-A fails, the run returns
    before the loop reaches type-B and there is no "excluded" entry about
    it. In the second type-B is asked for twice: the run returns nil with
    two entries about it. *)
Lemma C3_an_excluded_type_gets_no_entry_or_two :
  (In "type-B" (universe (provider (Ctx:=unit) account) both) /\
   IsExcluded both "type-B" = true /\
   fst (fst aborted_run) = Some (WithStack (ErrExternal "context canceled")) /\
   processed_types (snd aborted_run) = ["type-A"] /\
   excluded_events "type-B" (snd aborted_run) = 0) /\
  (In "type-B" (universe (provider (Ctx:=unit) account) twice) /\
   IsExcluded twice "type-B" = true /\
   fst (fst twice_run) = None /\
   processed_types (snd twice_run) = ["type-B"; "type-B"] /\
   excluded_events "type-B" (snd twice_run) = 2).
Proof.
  split.
  - split; [simpl; auto|]. repeat split; vm_compute; reflexivity.
  - split; [simpl; auto|]. repeat split; vm_compute; reflexivity.
Defined.

Lemma C3_witness :
  IsExcluded both "type-B" = true /\
  ~ In "type-B" (fetched_types (snd both_run)) /\
  (exists rest,
      universe (provider (Ctx:=unit) account) both
        = processed_types (snd both_run) ++ rest) /\
  excluded_events "type-B" (snd both_run)
    = count_occ string_dec (processed_types (snd both_run)) "type-B" /\
  processed_types (snd both_run) = ["type-A"; "type-B"] /\
  excluded_events "type-B" (snd both_run) = 1.
Proof.
  assert (H : IsExcluded both "type-B" = true) by reflexivity.
  split; [exact H|].
  destruct (C3_excluded_type_is_skipped_with_one_entry_per_occurrence
              tt (provider account) (Some config_writer) (Some state_writer)
              both "type-B" start H) as [H1 [H2 [H3 H4]]].
  split; [exact H1|]. split; [exact H2|]. split; [exact H3|].
  destruct (H4 eq_refl) as [H5 [_ H7]].
  split; [exact H5|]. apply H7.
  - simpl. auto.
  - constructor; [intros [HA|[]]; discriminate|].
    constructor; [intros []|constructor].
Defined.

(** C6, as the claim states it, on resources that expand. Resource 1
    expands into 7 and 12 and both sinks are configured: 7 fails to
    serialize to configuration, [Import] returns, and 12 is neither read
    nor serialized, so two units are processed and not three. Resource 2
    expands into 9 and 10: 9 is read three times in vain and goes to no
    sink, although the iteration goes on to 10. *)
Lemma C6_not_every_unit_of_an_expansion_is_processed :
  (ImportState (Resource:=expanding) 1 tt = (([7; 12], None), tt) /\
   fst (fst cut_iteration)
     = Return (Wrapf (ErrExternal "bad schema")
                 ("error while calculating the Config of resource "
                    ++ fmt_q "type-A")) /\
   finished_units None (snd cut_iteration) = [1; 7] /\
   filter is_serialization (snd cut_iteration)
     = [EvHCL 1 config_writer None; EvState 1 state_writer None;
        EvHCL 7 config_writer (Some (ErrExternal "bad schema"))] /\
   (forall x, ~ In (EvRead 12 x) (snd cut_iteration))) /\
  (ImportState (Resource:=expanding) 2 tt = (([9; 10], None), tt) /\
   fst (fst skipping_iteration) = Next tt /\
   finished_units None (snd skipping_iteration) = [2; 9; 10] /\
   filter is_serialization (snd skipping_iteration)
     = [EvHCL 2 config_writer None; EvState 2 state_writer None;
        EvHCL 10 config_writer None; EvState 10 state_writer None]).
Proof.
  split.
  - split; [reflexivity|]. split; [vm_compute; reflexivity|].
    split; [vm_compute; reflexivity|]. split; [vm_compute; reflexivity|].
    intros x H. vm_compute in H.
    decompose [or] H; discriminate || contradiction.
  - repeat split; vm_compute; reflexivity.
Defined.

Lemma C6_witness :
  0 < RetryTimes /\
  ImportState 1 start = (([11; 12], None), start) /\
  fst (fst whole_iteration) = Next tt /\
  exists blocks : list (list (Event nat nat unit)),
    snd whole_iteration
    = [EvOut (CR ++ "Importing type-A [1/2]");
       EvLog (With (With (With start_logger "id" (VStr "r1")) "total" (VInt 2))
                   "current" (VInt 1))
             "msg" (VStr "reading from TF");
       EvImportState 1 None] ++ List.concat blocks /\
    Forall2
      (unit_run (Some config_writer) (Some state_writer)
         (With (With (With start_logger "id" (VStr "r1")) "total" (VInt 2))
               "current" (VInt 1)))
      [1; 11; 12] blocks /\
    List.length blocks = 3.
Proof.
  assert (H1 : 0 < RetryTimes) by (simpl; lia).
  assert (H2 : ImportState 1 start = (([11; 12], None), start)) by reflexivity.
  split; [exact H1|]. split; [exact H2|]. split; [reflexivity|].
  exact (C6_expansion_units_are_processed_in_order
           (Ctx:=unit) (Some config_writer) (Some state_writer) no_filter
           start_logger "type-A" 2 0 1 [11; 12] start start H1 H2).
Defined.

Lemma C9_witness :
  (forall x, In x (Include skip_B ++ Exclude skip_B) ->
             HasResourceType (provider (Ctx:=unit) account) x = true) /\
  fst (fst sinkless_run) = None /\
  fetched_types (snd sinkless_run) = ["type-A"; "type-C"] /\
  expanded (snd sinkless_run)
    = fetched_along (provider account) skip_B (snd sinkless_run) start /\
  fetched_along (provider account) skip_B (snd sinkless_run) start = [1; 2] /\
  finished_units None (snd sinkless_run)
    = units_along (provider account) skip_B (snd sinkless_run) start /\
  units_along (provider account) skip_B (snd sinkless_run) start
    = [1; 11; 12; 2] /\
  reads_follow (snd sinkless_run) /\
  filter is_serialization (snd sinkless_run) = [] /\
  syncs (snd sinkless_run) = [].
Proof.
  assert (H0 : 0 < RetryTimes) by (simpl; lia).
  assert (H1 : forall x, In x (Include skip_B ++ Exclude skip_B) ->
                         HasResourceType (provider (Ctx:=unit) account) x = true).
  { intros x Hx. simpl in Hx. destruct Hx as [<-|[]]. reflexivity. }
  assert (H2 : forall c t e, ~ In (EvResources c t (Some e)) (snd sinkless_run)).
  { intros c t e H. vm_compute in H.
    decompose [or] H; discriminate || contradiction. }
  assert (H3 : forall r e, ~ In (EvImportState r (Some e)) (snd sinkless_run)).
  { intros r e H. vm_compute in H.
    decompose [or] H; discriminate || contradiction. }
  split; [exact H1|].
  destruct (C9_no_sink_means_fetch_and_read_work_only
              tt (provider account) skip_B start H1 H2 H3)
    as [HR [HF [HE [HU [HS HY]]]]].
  destruct (HU H0) as [HU1 HU2].
  split; [exact HR|]. split; [unfold sinkless_run; rewrite HF; reflexivity|].
  split; [exact HE|]. split; [vm_compute; reflexivity|].
  split; [exact HU1|]. split; [vm_compute; reflexivity|].
  split; [exact HU2|]. split; [exact HS|exact HY].
Defined.

End FurtherRuns.
